(** * Import resolution of graphql-toolkit: a shallow embedding

    The development follows [packages/core/src/import-parser/index.ts]:
    the import-line grammar ([parseImportLine]), the directive extractor
    ([parseSDL]), the path resolver ([resolveModuleFilePath]), the
    definition projector ([filterImportedDefinitions]), the traversal
    ([collectDefinitions]) and the merge loop of [processImportSyntax].

    Strings are sequences of code units below 256.  AST nodes are JavaScript
    objects that are shared between the arrays that hold them and mutated in
    place, so they live in a store indexed by object identity. *)

From Stdlib Require Import String Ascii List ZArith Bool Lia Permutation Sorted.
From stdpp Require Import gmap strings.
Import ListNotations.

(** ** Results of fallible code *)

Inductive JsError :=
| Error (message : string)
| TypeError (message : string)
| HostError (code : string).

Inductive Result (A : Type) :=
| Ok (a : A)
| Throw (e : JsError).
Arguments Ok {A} a.
Arguments Throw {A} e.

Definition bind {A B} (r : Result A) (f : A -> Result B) : Result B :=
  match r with
  | Ok a => f a
  | Throw e => Throw e
  end.

Notation "'let*' x ':=' c1 'in' c2" := (bind c1 (fun x => c2))
  (at level 10, x pattern, c1 at level 100, c2 at level 200).

(** [Array.prototype.map] with a callback that may throw: the first
    exception, in index order, aborts the whole map. *)
Fixpoint mapM {A B} (f : A -> Result B) (l : list A) : Result (list B) :=
  match l with
  | [] => Ok []
  | x :: l' => let* y := f x in let* ys := mapM f l' in Ok (y :: ys)
  end.

(** ** Characters and strings *)

Definition squote : ascii := "039"%char.
Definition dquote : ascii := "034"%char.
Definition newline : ascii := "010"%char.

(** Line terminators are what [.] refuses in a regular expression. *)
Definition is_line_terminator (c : ascii) : bool :=
  match c with
  | "010" | "013" => true
  | _ => false
  end%char.

(** White space as [\s] and [String.prototype.trim] see it. *)
Definition is_whitespace (c : ascii) : bool :=
  match c with
  | "009" | "010" | "011" | "012" | "013" | " " | "160" => true
  | _ => false
  end%char.

Definition dot (c : ascii) : bool := negb (is_line_terminator c).
Definition is_quote (c : ascii) : bool := Ascii.eqb c squote || Ascii.eqb c dquote.

Fixpoint all_chars (p : ascii -> bool) (s : string) : bool :=
  match s with
  | EmptyString => true
  | String c s' => p c && all_chars p s'
  end.

Fixpoint ltrim (s : string) : string :=
  match s with
  | String c s' => if is_whitespace c then ltrim s' else s
  | EmptyString => EmptyString
  end.

Fixpoint rtrim (s : string) : string :=
  match s with
  | String c s' =>
      match rtrim s' with
      | EmptyString => if is_whitespace c then EmptyString else String c EmptyString
      | r => String c r
      end
  | EmptyString => EmptyString
  end.

(** [s.trim()] *)
Definition trim (s : string) : string := rtrim (ltrim s).

(** [s.split(sep)] for a separator of one character. *)
Fixpoint split (sep : ascii) (s : string) : list string :=
  match s with
  | EmptyString => [EmptyString]
  | String c s' =>
      if Ascii.eqb c sep then EmptyString :: split sep s'
      else match split sep s' with
           | piece :: rest => String c piece :: rest
           | [] => [String c EmptyString]
           end
  end.

(** [s.startsWith(p)] *)
Definition startsWith (s p : string) : bool := String.prefix p s.

(** [s.replace(c, '')] for a pattern of one character: only the first
    occurrence goes. *)
Fixpoint replace_first (c : ascii) (s : string) : string :=
  match s with
  | EmptyString => EmptyString
  | String d s' => if Ascii.eqb d c then s' else String d (replace_first c s')
  end.

Fixpoint strip_prefix (p s : string) : option string :=
  match p, s with
  | EmptyString, _ => Some s
  | String a p', String b s' => if Ascii.eqb a b then strip_prefix p' s' else None
  | String _ _, EmptyString => None
  end.

Fixpoint ends_with (p s : string) : bool :=
  String.eqb p s ||
  match s with
  | EmptyString => false
  | String _ s' => ends_with p s'
  end.

(** [arr.includes(x)] on strings *)
Definition includes (l : list string) (x : string) : bool :=
  existsb (String.eqb x) l.

(** ** Regular expressions

    The fragment the two import patterns use: literal text, character
    classes, greedy [*] and [+] over a class, sequence, ordered choice,
    greedy [?], capture groups and [$].  [run] is a backtracking matcher:
    choices are tried in the order the pattern gives them and the first
    complete match wins, which fixes what the groups capture. *)

Inductive regex :=
| Chars (lit : string)
| Class (p : ascii -> bool)
| Star (p : ascii -> bool)
| Plus (p : ascii -> bool)
| Seq (r1 r2 : regex)
| Alt (r1 r2 : regex)
| Opt (r : regex)
| Group (i : nat) (r : regex)
| Eol.

(** Index 0 is the whole match, index [i] is group [i]; [None] is a group
    that did not take part ([undefined]). *)
Definition Captures := list (option string).

Fixpoint star (p : ascii -> bool) (s : string) (k : string -> option Captures)
  : option Captures :=
  match s with
  | String c s' =>
      if p c then
        match star p s' k with
        | Some res => Some res
        | None => k s
        end
      else k s
  | EmptyString => k s
  end.

(** The text between two positions of the input, the later one given by
    what is left of it. *)
Definition consumed (s rest : string) : string :=
  String.substring 0 (String.length s - String.length rest) s.

Fixpoint run (r : regex) (s : string) (caps : Captures)
    (k : string -> Captures -> option Captures) {struct r} : option Captures :=
  match r with
  | Chars lit =>
      match strip_prefix lit s with
      | Some s' => k s' caps
      | None => None
      end
  | Class p =>
      match s with
      | String c s' => if p c then k s' caps else None
      | EmptyString => None
      end
  | Star p => star p s (fun s' => k s' caps)
  | Plus p =>
      match s with
      | String c s' => if p c then star p s' (fun s'' => k s'' caps) else None
      | EmptyString => None
      end
  | Seq r1 r2 => run r1 s caps (fun s' caps' => run r2 s' caps' k)
  | Alt r1 r2 =>
      match run r1 s caps k with
      | Some res => Some res
      | None => run r2 s caps k
      end
  | Opt r1 =>
      match run r1 s caps k with
      | Some res => Some res
      | None => k s caps
      end
  | Group i r1 =>
      run r1 s caps (fun s' caps' => k s' (<[i := Some (consumed s s')]> caps'))
  | Eol =>
      match s with
      | EmptyString => k s caps
      | String _ _ => None
      end
  end.

(** [s.match(re)] for a pattern anchored by [^], with [groups] capture
    groups: the array of the whole match and the groups, or [None]. *)
Definition exec (groups : nat) (r : regex) (s : string) : option Captures :=
  run r s (replicate (S groups) None)
      (fun rest caps => Some (<[0 := Some (consumed s rest)]> caps)).

Definition test (groups : nat) (r : regex) (s : string) : bool :=
  match exec groups r s with
  | Some _ => true
  | None => false
  end.

Fixpoint seq_of (rs : list regex) : regex :=
  match rs with
  | [] => Chars EmptyString
  | [r] => r
  | r :: rs' => Seq r (seq_of rs')
  end.

Definition quote : regex := Alt (Chars "'") (Chars (String dquote EmptyString)).

(** [re.test(s)] for a pattern with no [^]: the match may start anywhere. *)
Fixpoint search (groups : nat) (r : regex) (s : string) : bool :=
  test groups r s ||
  match s with
  | EmptyString => false
  | String _ s' => search groups r s'
  end.

(** The pattern [\.g(raph)?ql(s)?$]. *)
Definition gqlExt : regex :=
  seq_of [ Chars ".g"; Opt (Group 1 (Chars "raph")); Chars "ql";
           Opt (Group 2 (Chars "s")); Eol ].

Definition isGraphQLFile (f : string) : bool := search 2 gqlExt f.

(** The pattern [^import\s+(\*|(.* ))\s+from\s+(Q)(.* )(Q);?$], where [Q]
    stands for the choice between the single and the double quote. *)
Definition IMPORT_FROM_REGEX : regex :=
  seq_of [ Chars "import"; Plus is_whitespace;
           Group 1 (Alt (Chars "*") (Group 2 (Star dot)));
           Plus is_whitespace; Chars "from"; Plus is_whitespace;
           Group 3 quote; Group 4 (Star dot); Group 5 quote;
           Opt (Chars ";"); Eol ].

(** The pattern [^import\s+(Q)(.* )(Q);?$]. *)
Definition IMPORT_DEFAULT_REGEX : regex :=
  seq_of [ Chars "import"; Plus is_whitespace;
           Group 1 quote; Group 2 (Star dot); Group 3 quote;
           Opt (Chars ";"); Eol ].

(** ** The import-line grammar *)

(** The information of a single import line. *)
Record RawModule := { imports : list string; from : string }.

(** The message of the error, a template with the line in it. *)
Definition message_start : string :=
  String newline "    Import statement is not valid: ".

Definition message_advice : string :=
  String newline "    If you want to have comments starting with '# import', please use ''' instead!" +:+
  String newline "    You can only have 'import' statements in the following pattern;" +:+
  String newline "    ".

Definition message_pattern : string := "# import [Type].[Field] from [File]".

Definition message_end : string := String newline "  ".

Definition invalid_import (importLine : string) : JsError :=
  Error (message_start +:+ importLine +:+ message_advice +:+ message_pattern
         +:+ message_end).

(** [matches[i]] read as a value: [None] is [undefined]. *)
Definition group (matches : Captures) (i : nat) : option string :=
  match matches !! i with
  | Some (Some g) => Some g
  | _ => None
  end.

(** [v === s] for a value that may be [undefined] *)
Definition strict_eq (v : option string) (s : string) : bool :=
  match v with
  | Some w => String.eqb w s
  | None => false
  end.

Definition parseImportLine (importLine : string) : Result RawModule :=
  if test 5 IMPORT_FROM_REGEX importLine then
    match exec 5 IMPORT_FROM_REGEX importLine with
    | Some matches =>
        match Nat.eqb (length matches) 6, group matches 4 with
        | true, Some (String c f) =>
            let wildcard := group matches 1 in
            let importsString := group matches 2 in
            let from := String c f in
            if strict_eq wildcard "*" then Ok {| imports := ["*"]; from := from |}
            else
              match importsString with
              | Some str =>
                  Ok {| imports := List.map trim (split "," str); from := from |}
              | None => Throw (TypeError "Cannot read property 'split' of undefined")
              end
        | _, _ => Throw (invalid_import importLine)
        end
    | None => Throw (invalid_import importLine)
    end
  else if test 3 IMPORT_DEFAULT_REGEX importLine then
    match exec 3 IMPORT_DEFAULT_REGEX importLine with
    | Some matches =>
        match group matches 2 with
        | Some from => Ok {| imports := ["*"]; from := from |}
        | None => Throw (TypeError "undefined is not iterable")
        end
    | None => Throw (TypeError "null is not iterable")
    end
  else Throw (invalid_import importLine).

(** ** The directive extractor *)

Definition is_import_comment (l : string) : bool :=
  startsWith l "# import " || startsWith l "#import ".

Definition parseSDL (sdl : string) : Result (list RawModule) :=
  mapM parseImportLine
    (List.map (fun l => trim (replace_first "#" l))
       (List.filter is_import_comment
          (List.map trim (split newline sdl)))).

(** ** AST nodes

    A definition node is read by the code through three properties only:
    [kind], [name] (tested with ['name' in def], then read as
    [def.name.value]) and [fields] (tested with ['fields' in def]).  The
    key [name] can be present and hold [undefined], as in the node of an
    anonymous operation; reading [.value] through it throws. *)

Inductive NameSlot :=
| NoName
| NameUndefined
| Name (value : string).

Record FieldNode := {
  field_kind : string;
  field_name : string;
  field_type : string
}.

(** An element of a [fields] array; [None] is an [undefined] element, which
    [concat(undefined)] leaves behind. *)
Definition FieldSlot := option FieldNode.

Record DefinitionNode := {
  kind : string;
  name : NameSlot;
  fields : option (list FieldSlot)
}.

Definition with_fields (d : DefinitionNode) (fs : list FieldSlot) : DefinitionNode :=
  {| kind := kind d; name := name d; fields := Some fs |}.

(** Object identity, and the store of the objects. *)
Definition ref := nat.
Abbreviation Heap := (gmap ref DefinitionNode).

Definition undefined_value (what : string) : JsError :=
  TypeError ("Cannot read property '" +:+ what +:+ "' of undefined").

Definition deref (h : Heap) (r : ref) : Result DefinitionNode :=
  match h !! r with
  | Some d => Ok d
  | None => Throw (undefined_value "name")
  end.

(** ['name' in def && p(def.name.value)] *)
Definition named_and (p : string -> bool) (d : DefinitionNode) : Result bool :=
  match name d with
  | NoName => Ok false
  | NameUndefined => Throw (undefined_value "value")
  | Name v => Ok (p v)
  end.

(** [def.name.value] with no test before it *)
Definition name_value (d : DefinitionNode) : Result string :=
  match name d with
  | Name v => Ok v
  | _ => Throw (undefined_value "value")
  end.

(** [Array.prototype.filter] and [find] with a callback that may throw. *)
Fixpoint filterM {A} (p : A -> Result bool) (l : list A) : Result (list A) :=
  match l with
  | [] => Ok []
  | x :: l' =>
      let* b := p x in
      let* rest := filterM p l' in
      Ok (if b then x :: rest else rest)
  end.

Fixpoint findM {A} (p : A -> Result bool) (l : list A) : Result (option A) :=
  match l with
  | [] => Ok None
  | x :: l' =>
      let* b := p x in
      if b then Ok (Some x) else findM p l'
  end.

Fixpoint foldM {A S} (f : S -> A -> Result S) (l : list A) (s : S) : Result S :=
  match l with
  | [] => Ok s
  | x :: l' => let* s' := f s x in foldM f l' s'
  end.

(** ** Library functions on arrays *)

(** lodash [flatten], one level deep. *)
Definition flatten {A} (l : list (list A)) : list A := concat l.

(** lodash [uniqBy]: the first element of every key stays. *)
Fixpoint uniqBy_from {A K} (same : K -> K -> bool) (key : A -> K)
    (seen : list K) (l : list A) : list A :=
  match l with
  | [] => []
  | x :: l' =>
      if existsb (same (key x)) seen then uniqBy_from same key seen l'
      else x :: uniqBy_from same key (key x :: seen) l'
  end.

Definition uniqBy {A K} (same : K -> K -> bool) (key : A -> K) (l : list A) : list A :=
  uniqBy_from same key [] l.

(** The path ['name.value'] read on an element of [fields]. *)
Definition slot_name (f : FieldSlot) : option string :=
  match f with
  | Some n => Some (field_name n)
  | None => None
  end.

Definition same_key (a b : option string) : bool :=
  match a, b with
  | Some x, Some y => String.eqb x y
  | None, None => true
  | _, _ => false
  end.

Definition uniqByName (l : list FieldSlot) : list FieldSlot :=
  uniqBy same_key slot_name l.

(** lodash [groupBy]: the keys in the order of their first element, every
    group in the order of the array. *)
Fixpoint group_insert (k x : string) (groups : list (string * list string))
  : list (string * list string) :=
  match groups with
  | [] => [(k, [x])]
  | (k', xs) :: rest =>
      if String.eqb k k' then (k', xs ++ [x]) :: rest
      else (k', xs) :: group_insert k x rest
  end.

Definition groupBy (key : string -> string) (l : list string)
  : list (string * list string) :=
  fold_left (fun groups x => group_insert (key x) x groups) l [].

(** lodash [keyBy]: a later element replaces an earlier one of its key. *)
Definition keyBy {A} (key : A -> string) (l : list A) : gmap string A :=
  fold_left (fun m x => <[key x := x]> m) l ∅.

Definition is_hole {A} (x : option A) : bool :=
  match x with
  | None => true
  | Some _ => false
  end.

(** [Array.prototype.sort(cmp)]: [undefined] elements go to the end and the
    comparator never sees them; the order of the others is the stable order
    of [cmp]. *)
Section Sorting.
Context {A : Type} (cmp : A -> A -> Z).

Fixpoint sort_insert (x : A) (l : list A) : list A :=
  match l with
  | [] => [x]
  | y :: l' => if (cmp x y <=? 0)%Z then x :: y :: l' else y :: sort_insert x l'
  end.

Definition stable_sort (l : list A) : list A := fold_right sort_insert [] l.

Definition array_sort (l : list (option A)) : list (option A) :=
  List.map Some (stable_sort (omap id l)) ++ List.filter is_hole l.
End Sorting.

(** The properties a plain object inherits from [Object.prototype]: methods,
    and behind [__proto__] the prototype itself. *)
Definition Object_prototype : list string :=
  [ "constructor"; "hasOwnProperty"; "isPrototypeOf"; "propertyIsEnumerable";
    "toLocaleString"; "toString"; "valueOf"; "__proto__";
    "__defineGetter__"; "__defineSetter__"; "__lookupGetter__"; "__lookupSetter__" ].

(** [obj[k]] read as a condition, on the plain object that [keyBy] returns:
    behind a key of its own is a node, which is truthy; a key it does not
    own is looked up in [Object.prototype], where every property is truthy;
    any other key reads [undefined]. *)
Definition truthy_at {A} (m : gmap string A) (k : string) : bool :=
  match m !! k with
  | Some _ => true
  | None => includes Object_prototype k
  end.

(** ** The definition projector *)

Definition rootFields : list string := ["Query"; "Mutation"; "Subscription"].

(** [i.split('.')[0]]; [split] never returns an empty array. *)
Definition owner (i : string) : string := hd EmptyString (split "." i).

(** [x.split('.')[1]], read where the array has two elements or more. *)
Definition member (x : string) : string := nth 1 (split "." x) EmptyString.

(** The key [keyBy] computes, ['name' in def && def.name.value]; the array
    it is applied to holds named definitions only. *)
Definition name_key (h : Heap) (r : ref) : string :=
  match h !! r with
  | Some d => match name d with Name v => v | _ => "false" end
  | None => "false"
  end.

Section ImportParser.
Variable compareNodes : FieldNode -> FieldNode -> Z.

(** [fields.includes(f.name.value) || fields.includes('*')] *)
Definition field_requested (requested : list string) (f : FieldSlot) : Result bool :=
  match f with
  | Some n => Ok (includes requested (field_name n) || includes requested "*")
  | None => Throw (undefined_value "name")
  end.

(** One round of the loop over [groupedFieldImports]. *)
Definition project_fields (sort : bool) (filteredDefinitions : list ref)
    (h : Heap) (entry : string * list string) : Result Heap :=
  let rootType := fst entry in
  let requested := List.map member (snd entry) in
  let* objectTypeDefinition :=
    findM (fun r => let* d := deref h r in
                    named_and (fun v => String.eqb v rootType) d)
          filteredDefinitions in
  match objectTypeDefinition with
  | None => Ok h
  | Some r =>
      let* d := deref h r in
      match fields d with
      | Some fs =>
          if negb (includes requested "*") then
            let* kept := filterM (field_requested requested) fs in
            Ok (<[r := with_fields d (if sort then array_sort compareNodes kept
                                      else kept)]> h)
          else Ok h
      | None => Ok h
      end
  end.

Definition filterImportedDefinitions (imports : list string)
    (typeDefinitions : list ref) (allDefinitions : list (list ref))
    (sort : bool) (h : Heap) : Result (list ref * Heap) :=
  let filteredDefinitions := typeDefinitions in
  if includes imports "*" then
    if Nat.eqb (length imports) 1
       && match imports with i :: _ => String.eqb i "*" | [] => false end
       && Nat.ltb 1 (length allDefinitions)
    then
      let* previous :=
        filterM (fun r => let* d := deref h r in
                          named_and (fun v => negb (includes rootFields v)) d)
                (flatten (take (length allDefinitions - 1) allDefinitions)) in
      let previousTypeDefinitions := keyBy (name_key h) previous in
      let* result :=
        filterM (fun r => let* typeDef := deref h r in
                          if String.eqb (kind typeDef) "ObjectTypeDefinition"
                          then let* v := name_value typeDef in
                               Ok (truthy_at previousTypeDefinitions v)
                          else Ok false)
                typeDefinitions in
      Ok (result, h)
    else Ok (filteredDefinitions, h)
  else
    let importedTypes := List.map owner imports in
    let* result :=
      filterM (fun r => let* d := deref h r in
                        named_and (includes importedTypes) d)
              filteredDefinitions in
    let fieldImports :=
      List.filter (fun i => Nat.ltb 1 (length (split "." i))) imports in
    let groupedFieldImports := groupBy owner fieldImports in
    let* h' := foldM (project_fields sort filteredDefinitions)
                     groupedFieldImports h in
    Ok (result, h').

(** ** The merge loop of [processImportSyntax] *)

(** [flatten(typeDefinitions).concat(typeDefinitions[0],
    flatten(typeDefinitions.slice(1)))]; [None] is the [undefined] that
    [typeDefinitions[0]] is on an empty array. *)
Definition firstSet (typeDefinitions : list (list ref)) : list (option ref) :=
  List.map Some (flatten typeDefinitions)
  ++ match typeDefinitions with
     | secondFirstTypes :: _ => List.map Some secondFirstTypes
     | [] => [None]
     end
  ++ List.map Some (flatten (drop 1 typeDefinitions)).

(** [a.concat(b)] where [b] is an array or [undefined]. *)
Definition concat_fields (a : list FieldSlot) (b : option (list FieldSlot))
  : list FieldSlot :=
  match b with
  | Some l => a ++ l
  | None => a ++ [None]
  end.

Record MergeState := {
  processedTypeNames : list string;
  mergedFirstTypes : list ref;
  merge_heap : Heap
}.

Definition merge_step (sort : bool) (st : MergeState) (type : option ref)
  : Result MergeState :=
  let h := merge_heap st in
  match type with
  | None => Throw (TypeError "Cannot use 'in' operator to search for 'name' in undefined")
  | Some r =>
      let* d := deref h r in
      match name d with
      | NoName => Ok st
      | NameUndefined => Throw (undefined_value "value")
      | Name v =>
          if negb (includes (processedTypeNames st) v) then
            Ok {| processedTypeNames := processedTypeNames st ++ [v];
                  mergedFirstTypes := mergedFirstTypes st ++ [r];
                  merge_heap := h |}
          else
            let* existingType :=
              findM (fun t => let* e := deref h t in
                              let* n := name_value e in
                              Ok (String.eqb n v))
                    (mergedFirstTypes st) in
            match existingType with
            | None => Throw (TypeError "Cannot use 'in' operator to search for 'fields' in undefined")
            | Some t =>
                let* e := deref h t in
                match fields e with
                | Some ef =>
                    let unioned := uniqByName (concat_fields ef (fields d)) in
                    Ok {| processedTypeNames := processedTypeNames st;
                          mergedFirstTypes := mergedFirstTypes st;
                          merge_heap :=
                            <[t := with_fields e
                                     (if sort then array_sort compareNodes unioned
                                      else unioned)]> h |}
                | None => Ok st
                end
            end
      end
  end.

Definition merge_loop (sort : bool) (candidates : list (option ref)) (h : Heap)
  : Result MergeState :=
  foldM (merge_step sort) candidates
        {| processedTypeNames := []; mergedFirstTypes := []; merge_heap := h |}.

Definition mergeFirstTypes (sort : bool) (typeDefinitions : list (list ref))
    (h : Heap) : Result MergeState :=
  merge_loop sort (firstSet typeDefinitions) h.
End ImportParser.

(** ** The path resolver *)

(** What the code uses of [options.path] and [options.fs].  A failing
    [realpath] hands over an error object, whose [code] tells a missing
    target from other failures. *)
Record PathModule := {
  path_resolve : string -> string -> string;
  path_dirname : string -> string;
  path_join : string -> string -> string
}.

Record FsModule := {
  fs_realpath : string -> Result string
}.

Record LoadTypedefsOptions := {
  sort : bool;
  cwd : string;
  fs : option FsModule;
  path : option PathModule
}.

(** [e.code] *)
Definition error_code (e : JsError) : option string :=
  match e with
  | HostError c => Some c
  | _ => None
  end.

Section Resolver.
(** The default export of the package [resolve-from]. *)
Variable resolveFrom : string -> string -> Result string.

Definition resolveModuleFilePath (options : LoadTypedefsOptions)
    (filePath importFrom : string) : Result string :=
  match fs options, path options with
  | Some fs, Some path =>
      let fullPath := path_resolve path (cwd options) filePath in
      let dirName := path_dirname path fullPath in
      if isGraphQLFile fullPath && isGraphQLFile importFrom then
        match fs_realpath fs (path_join path dirName importFrom) with
        | Ok data => Ok data
        | Throw e =>
            if strict_eq (error_code e) "ENOENT"
            then resolveFrom dirName importFrom
            else Ok importFrom
        end
      else Ok importFrom
  | _, _ => Ok importFrom
  end.
End Resolver.

(** ** The traversal

    [collectDefinitions] is asynchronous: the callbacks of the sibling
    imports of a document are all started by [Promise.all] and each runs
    until its next [await].  Between two [await]s nothing else runs, so a
    pass is a pool of suspended callbacks and a step resumes any one of
    them: a callback waiting for [resolveModuleFilePath] resumes with the
    check and the update of [processedFiles] and the call of
    [loadSingleFile]; a callback waiting for [loadSingleFile] resumes with
    the body of [collectDefinitions] up to the start of its own imports. *)

Record Source := {
  location : string;
  document : list ref;
  rawSDL : string
}.

Global Instance RawModule_eq_dec : EqDecision RawModule.
Proof. solve_decision. Defined.

(** lodash [isEqual] on two import records *)
Definition isEqual (a b : RawModule) : bool := bool_decide (a = b).

Inductive Task :=
| Resolving (importer : string) (m : RawModule)
| Loading (moduleFilePath : string) (m : RawModule).

(** The state the callbacks of one pass share; [processedFiles] is the map
    kept in [options], [failure] the first rejection. *)
Record Pass := {
  pending : list Task;
  processedFiles : gmap string (list RawModule);
  typeDefinitions : list (list ref);
  allDefinitions : list (list ref);
  heap : Heap;
  failure : option JsError
}.

Definition reject (e : JsError) (st : Pass) : Pass :=
  {| pending := pending st;
     processedFiles := processedFiles st;
     typeDefinitions := typeDefinitions st;
     allDefinitions := allDefinitions st;
     heap := heap st;
     failure := match failure st with Some e0 => Some e0 | None => Some e end |}.

(** What a step of the pass shows. *)
Inductive Event :=
| Skipped (moduleFilePath : string) (m : RawModule)
| Marked (moduleFilePath : string) (m : RawModule)
| Visited (moduleFilePath : string) (m : RawModule)
| Failed (t : Task) (e : JsError).

Section Traversal.
Variable compareNodes : FieldNode -> FieldNode -> Z.
Variable resolveFrom : string -> string -> Result string.
(** [loadSingleFile] reads and parses a file; the nodes of the document it
    returns are in the store it hands back. *)
Variable loadSingleFile : string -> Heap -> Result (Source * Heap).
Variable options : LoadTypedefsOptions.

(** The body of [collectDefinitions] down to [Promise.all]. *)
Definition collectDefinitions (imports : list string) (src : Source)
    (st : Pass) : Pass :=
  let all := allDefinitions st ++ [document src] in
  match filterImportedDefinitions compareNodes imports (document src) all
          (sort options) (heap st) with
  | Throw e =>
      reject e {| pending := pending st;
                  processedFiles := processedFiles st;
                  typeDefinitions := typeDefinitions st;
                  allDefinitions := all;
                  heap := heap st;
                  failure := failure st |}
  | Ok (currentTypeDefinitions, h') =>
      let tds := typeDefinitions st ++ [currentTypeDefinitions] in
      match parseSDL (rawSDL src) with
      | Throw e =>
          reject e {| pending := pending st;
                      processedFiles := processedFiles st;
                      typeDefinitions := tds;
                      allDefinitions := all;
                      heap := h';
                      failure := failure st |}
      | Ok rawModules =>
          {| pending := pending st ++ List.map (Resolving (location src)) rawModules;
             processedFiles := processedFiles st;
             typeDefinitions := tds;
             allDefinitions := all;
             heap := h';
             failure := failure st |}
      end
  end.

(** [processedFile && processedFile.find(rModule => isEqual(rModule, m))] *)
Definition already_processed (processedFile : option (list RawModule))
    (m : RawModule) : bool :=
  match processedFile with
  | Some l => existsb (fun rModule => isEqual rModule m) l
  | None => false
  end.

Definition with_pending (st : Pass) (ts : list Task) : Pass :=
  {| pending := ts;
     processedFiles := processedFiles st;
     typeDefinitions := typeDefinitions st;
     allDefinitions := allDefinitions st;
     heap := heap st;
     failure := failure st |}.

(** Resuming the callback [t]; [st] holds the other callbacks. *)
Definition resume (t : Task) (st : Pass) : Event * Pass :=
  match t with
  | Resolving importer m =>
      match resolveModuleFilePath resolveFrom options importer (from m) with
      | Throw e => (Failed t e, reject e st)
      | Ok moduleFilePath =>
          let processedFile := processedFiles st !! moduleFilePath in
          if already_processed processedFile m then (Skipped moduleFilePath m, st)
          else
            (Marked moduleFilePath m,
             {| pending := pending st ++ [Loading moduleFilePath m];
                processedFiles :=
                  <[moduleFilePath := match processedFile with
                                      | Some l => l ++ [m]
                                      | None => [m]
                                      end]> (processedFiles st);
                typeDefinitions := typeDefinitions st;
                allDefinitions := allDefinitions st;
                heap := heap st;
                failure := failure st |})
      end
  | Loading moduleFilePath m =>
      match loadSingleFile moduleFilePath (heap st) with
      | Throw e => (Failed t e, reject e st)
      | Ok (result, h') =>
          (Visited moduleFilePath m,
           collectDefinitions (imports m) result
             {| pending := pending st;
                processedFiles := processedFiles st;
                typeDefinitions := typeDefinitions st;
                allDefinitions := allDefinitions st;
                heap := h';
                failure := failure st |})
      end
  end.

(** One step: any suspended callback may be the next to resume. *)
Inductive step : Pass -> Event -> Pass -> Prop :=
| step_resume st before t after :
    pending st = before ++ t :: after ->
    step st (fst (resume t (with_pending st (before ++ after))))
            (snd (resume t (with_pending st (before ++ after)))).

Inductive steps : Pass -> list Event -> Pass -> Prop :=
| steps_nil st : steps st [] st
| steps_cons st ev st' evs st'' :
    step st ev st' -> steps st' evs st'' -> steps st (ev :: evs) st''.

(** A deterministic schedule, for running the model: always the oldest
    callback. *)
Fixpoint run_pass (fuel : nat) (st : Pass) : option (list Event * Pass) :=
  match pending st with
  | [] => Some ([], st)
  | t :: rest =>
      match fuel with
      | O => None
      | S fuel' =>
          let '(ev, st') := resume t (with_pending st rest) in
          match run_pass fuel' st' with
          | Some (evs, st'') => Some (ev :: evs, st'')
          | None => None
          end
      end
  end.

(** The start of [processImportSyntax]: the entry document is entered with
    the selector list of a wildcard import. *)
Definition processImportSyntax_start (documentSource : Source)
    (processed : gmap string (list RawModule))
    (allDefinitions0 : list (list ref)) (h : Heap) : Pass :=
  collectDefinitions ["*"] documentSource
    {| pending := [];
       processedFiles := processed;
       typeDefinitions := [];
       allDefinitions := allDefinitions0;
       heap := h;
       failure := None |}.

(** The end of [processImportSyntax], once every callback has finished
    and none has failed: the merge loop over the candidates. *)
Definition processImportSyntax_finish (st : Pass) : Result MergeState :=
  match failure st with
  | Some e => Throw e
  | None => mergeFirstTypes compareNodes (sort options) (typeDefinitions st) (heap st)
  end.
End Traversal.

(** ** Vocabulary of the statements *)

(** The nodes a parsed document holds: a definition that has the key [name]
    has a name behind it, an object type is named, and a [fields] array has
    no [undefined] element. *)
Definition well_named (d : DefinitionNode) : bool :=
  match name d with
  | Name _ => true
  | NoName => negb (String.eqb (kind d) "ObjectTypeDefinition")
  | NameUndefined => false
  end.

Definition no_holes (d : DefinitionNode) : bool :=
  match fields d with
  | Some fs => forallb (fun f => negb (is_hole f)) fs
  | None => true
  end.

Definition regular (h : Heap) (r : ref) : bool :=
  match h !! r with
  | Some d => well_named d && no_holes d
  | None => false
  end.

Definition name_of (h : Heap) (r : ref) : option string :=
  match h !! r with
  | Some d => match name d with Name v => Some v | _ => None end
  | None => None
  end.

Definition has_name (h : Heap) (v : string) (r : ref) : bool :=
  match name_of h r with
  | Some w => String.eqb w v
  | None => false
  end.

Definition is_object (h : Heap) (r : ref) : bool :=
  match h !! r with
  | Some d => String.eqb (kind d) "ObjectTypeDefinition"
  | None => false
  end.

(** A name is seen earlier when a definition of a document before the
    current one, the last of [allDefinitions], carries it, the three root
    names apart.  The wildcard alone keeps, on a later document, the object
    types whose name is seen earlier, and those whose name is a property of
    [Object.prototype]. *)
Definition seen_earlier (h : Heap) (allDefinitions : list (list ref))
    (v : string) : bool :=
  negb (includes rootFields v)
  && existsb (has_name h v) (flatten (removelast allDefinitions)).

Definition wildcard_keeps (h : Heap) (allDefinitions : list (list ref))
    (r : ref) : bool :=
  is_object h r
  && match name_of h r with
     | Some v => seen_earlier h allDefinitions v || includes Object_prototype v
     | None => false
     end.

(** The selectors of the form [Type.field], the fields asked of a type, and
    the first definition of a document that carries a name. *)
Definition field_imports (imports : list string) : list string :=
  List.filter (fun i => Nat.ltb 1 (length (split "." i))) imports.


Definition first_named (h : Heap) (defs : list ref) (T : string) : option ref :=
  List.find (has_name h T) defs.

Definition keeps_field (requested : list string) (f : FieldSlot) : bool :=
  match f with
  | Some n => includes requested (field_name n)
  | None => false
  end.


Definition selected (h : Heap) (imports : list string) (r : ref) : bool :=
  match name_of h r with
  | Some v => includes (List.map owner imports) v
  | None => false
  end.

(** The group of a key, and the node the loop over the groups leaves. *)
Fixpoint assoc (k : string) (groups : list (string * list string))
  : option (list string) :=
  match groups with
  | [] => None
  | (k', xs) :: rest => if String.eqb k k' then Some xs else assoc k rest
  end.

Definition project_node (compareNodes : FieldNode -> FieldNode -> Z)
    (sort : bool) (defs : list ref) (h : Heap)
    (groups : list (string * list string)) (r : ref) (d : DefinitionNode)
  : DefinitionNode :=
  match name d, fields d with
  | Name T, Some fs =>
      match assoc T groups with
      | Some members =>
          let requested := List.map member members in
          if negb (includes requested "*")
             && bool_decide (first_named h defs T = Some r)
          then with_fields d
                 (if sort
                  then array_sort compareNodes (List.filter (keeps_field requested) fs)
                  else List.filter (keeps_field requested) fs)
          else d
      | None => d
      end
  | _, _ => d
  end.

(** A store that differs from [h] by the rounds of the projector's loop for
    the groups [P]. *)
Definition after_groups (compareNodes : FieldNode -> FieldNode -> Z)
    (sort : bool) (defs : list ref) (h : Heap)
    (P : list (string * list string)) (hi : Heap) : Prop :=
  forall r, hi !! r = project_node compareNodes sort defs h P r <$> h !! r.

(** For the merge loop: a node that is in the store and whose key [name],
    if it has one, holds a name; the canonical definitions of a sequence, the
    first of every name; the field list a later definition of the name
    leaves on the canonical one. *)
Definition defined_name (h : Heap) (r : ref) : bool :=
  match h !! r with
  | Some d => match name d with NameUndefined => false | _ => true end
  | None => false
  end.

Definition is_named (h : Heap) (r : ref) : bool :=
  match name_of h r with
  | Some _ => true
  | None => false
  end.

Definition canonicals (h : Heap) (l : list ref) : list ref :=
  uniqBy same_key (name_of h) (List.filter (is_named h) l).


(** The state of the merge loop after the candidates [pre], over the store
    [h] the loop started from: the merged definitions are the canonical ones,
    the names met are theirs, and no node changed its name. *)
Record merge_inv (h : Heap) (pre : list ref) (st : MergeState) : Prop := {
  inv_merged : mergedFirstTypes st = canonicals h pre;
  inv_names : List.map Some (processedTypeNames st)
              = List.map (name_of h) (mergedFirstTypes st);
  inv_heap : forall r, name <$> merge_heap st !! r = name <$> h !! r
}.

(** Modelled from the spec: the node-comparison rule [compareNodes] of the
    package common, which is not among the sources; the spec has it order
    nodes by name, ties broken by kind. *)
Definition compareNodes_by_name (a b : FieldNode) : Z :=
  match String.compare (field_name a) (field_name b) with
  | Lt => (-1)%Z
  | Gt => 1%Z
  | Eq =>
      match String.compare (field_kind a) (field_kind b) with
      | Lt => (-1)%Z
      | Gt => 1%Z
      | Eq => 0%Z
      end
  end.

(** ** Sample documents *)

Definition sample_field (n t : string) : FieldSlot :=
  Some {| field_kind := "FieldDefinition"; field_name := n; field_type := t |}.

Definition object_type (n : string) (fs : list FieldSlot) : DefinitionNode :=
  {| kind := "ObjectTypeDefinition"; name := Name n; fields := Some fs |}.

Definition scalar_type (n : string) : DefinitionNode :=
  {| kind := "ScalarTypeDefinition"; name := Name n; fields := None |}.

(** The node of the anonymous operation [{ me }]: the key [name] is there
    and holds [undefined]. *)
Definition anonymous_operation : DefinitionNode :=
  {| kind := "OperationDefinition"; name := NameUndefined; fields := None |}.

(** An entry document with Query and Foo at 0 and 1, and a second document
    with Query, Foo and Bar at 2, 3 and 4. *)
Definition two_documents : Heap :=
  <[0 := object_type "Query" [sample_field "foo" "Foo"]]>
  (<[1 := object_type "Foo" [sample_field "x" "Int"]]>
  (<[2 := object_type "Query" [sample_field "bar" "Bar"]]>
  (<[3 := object_type "Foo" [sample_field "y" "Int"]]>
  (<[4 := object_type "Bar" [sample_field "z" "Int"]]> ∅)))).

(** An entry document with Query at 0, and a second document with one
    object type, of the given name, at 1. *)
Definition inherited_name (n : string) : Heap :=
  <[0 := object_type "Query" [sample_field "a" "Int"]]>
  (<[1 := object_type n [sample_field "a" "Int"]]> ∅).

(** A document that defines Type with the fields fieldB and fieldA, in
    this order, and a scalar. *)
Definition type_document : Heap :=
  <[0 := object_type "Type" [sample_field "fieldB" "Int"; sample_field "fieldA" "Int"]]>
  (<[1 := scalar_type "Date"]> ∅).


(** ** The directive extractor, in the words of the spec

    Split into lines, trim each, retain the lines that begin with one of
    the two prefixes, strip the comment marker, and feed each survivor to
    the import-line grammar in source order. *)

Definition strip_marker (l : string) : string :=
  match l with
  | String _ rest => rest
  | EmptyString => EmptyString
  end.

Fixpoint extract_directives (lines : list string) : Result (list RawModule) :=
  match lines with
  | [] => Ok []
  | l :: rest =>
      if startsWith (trim l) "# import " || startsWith (trim l) "#import " then
        let* m := parseImportLine (trim (strip_marker (trim l))) in
        let* ms := extract_directives rest in
        Ok (m :: ms)
      else extract_directives rest
  end.

(** ** The path resolver, in the words of the spec

    With both endpoints recognizable schema files, the target is resolved
    relative to the directory of the importing file on the store; a target
    that does not exist falls back to the module reference. *)
Definition resolve_relative (resolveFrom : string -> string -> Result string)
    (store : FsModule) (pm : PathModule) (cwd filePath importFrom : string)
  : Result string :=
  let dirName := path_dirname pm (path_resolve pm cwd filePath) in
  match fs_realpath store (path_join pm dirName importFrom) with
  | Ok target => Ok target
  | Throw e =>
      if strict_eq (error_code e) "ENOENT"
      then resolveFrom dirName importFrom
      else Throw e
  end.

(** A path module and a store for the examples: absolute paths with [/],
    and the files /proj/schemas/a.graphql and /proj/schemas/b.graphql. *)
Fixpoint before_last_slash (s : string) : option string :=
  match s with
  | EmptyString => None
  | String c s' =>
      match before_last_slash s' with
      | Some d => Some (String c d)
      | None => if Ascii.eqb c "/" then Some EmptyString else None
      end
  end.

Definition sample_path : PathModule :=
  {| path_resolve := fun cwd p => if startsWith p "/" then p else cwd +:+ "/" +:+ p;
     path_dirname := fun p => match before_last_slash p with
                              | Some EmptyString => "/"
                              | Some d => d
                              | None => "."
                              end;
     path_join := fun d f => d +:+ "/" +:+ f |}.

Definition sample_store : FsModule :=
  {| fs_realpath := fun p =>
       if includes ["/proj/schemas/a.graphql"; "/proj/schemas/b.graphql"] p
       then Ok p else Throw (HostError "ENOENT") |}.

Definition sample_resolveFrom (dir moduleId : string) : Result string :=
  if String.eqb moduleId "pkg/schema.graphql"
  then Ok ("/proj/node_modules/" +:+ moduleId)
  else Throw (HostError "MODULE_NOT_FOUND").

(** ** What a pattern matches

    [Match r a rest caps caps'] : the pattern [r] matches the text [a] when
    [rest] follows it, and turns the captures [caps] into [caps']. *)
Inductive Match : regex -> string -> string -> Captures -> Captures -> Prop :=
| Match_Chars lit rest caps :
    Match (Chars lit) lit rest caps caps
| Match_Class p c rest caps :
    p c = true -> Match (Class p) (String c EmptyString) rest caps caps
| Match_Star p a rest caps :
    all_chars p a = true -> Match (Star p) a rest caps caps
| Match_Plus p c a rest caps :
    p c = true -> all_chars p a = true -> Match (Plus p) (String c a) rest caps caps
| Match_Seq r1 r2 a1 a2 rest caps caps1 caps2 :
    Match r1 a1 (a2 +:+ rest) caps caps1 ->
    Match r2 a2 rest caps1 caps2 ->
    Match (Seq r1 r2) (a1 +:+ a2) rest caps caps2
| Match_Alt_left r1 r2 a rest caps caps' :
    Match r1 a rest caps caps' -> Match (Alt r1 r2) a rest caps caps'
| Match_Alt_right r1 r2 a rest caps caps' :
    Match r2 a rest caps caps' -> Match (Alt r1 r2) a rest caps caps'
| Match_Opt_some r a rest caps caps' :
    Match r a rest caps caps' -> Match (Opt r) a rest caps caps'
| Match_Opt_none r rest caps :
    Match (Opt r) EmptyString rest caps caps
| Match_Group i r a rest caps caps' :
    Match r a rest caps caps' ->
    Match (Group i r) a rest caps (<[i := Some a]> caps')
| Match_Eol caps :
    Match Eol EmptyString EmptyString caps caps.

(** ** The import-line grammar, in the words of the spec

    [import <selectors> from '<path>'] with an optional semicolon, or
    [import '<path>'].  The reading is the widest one: any text for the
    selectors and the path, either quote character, the same on both sides
    of the path. *)
Definition blank (s : string) : Prop :=
  s <> EmptyString /\ all_chars is_whitespace s = true.

Definition semicolon_or_nothing (s : string) : Prop :=
  s = EmptyString \/ s = ";".



Definition on_first (f : string -> string) (l : list string) : list string :=
  match l with
  | p :: rest => f p :: rest
  | [] => []
  end.





(** ** Vocabulary of the traversal *)

(** The pairs of a resolved path and an import record that a run marks,
    visits and loads, and those behind the suspended callbacks. *)
Definition marks (evs : list Event) : list (string * RawModule) :=
  omap (fun ev => match ev with Marked p m => Some (p, m) | _ => None end) evs.

Definition visits (evs : list Event) : list (string * RawModule) :=
  omap (fun ev => match ev with Visited p m => Some (p, m) | _ => None end) evs.

Definition loads (evs : list Event) : list (string * RawModule) :=
  omap (fun ev => match ev with
                  | Visited p m => Some (p, m)
                  | Failed (Loading p m) _ => Some (p, m)
                  | _ => None
                  end) evs.

Definition loadings (ts : list Task) : list (string * RawModule) :=
  omap (fun t => match t with Loading p m => Some (p, m) | _ => None end) ts.

Definition resolvings (ts : list Task) : list (string * RawModule) :=
  omap (fun t => match t with Resolving i m => Some (i, m) | _ => None end) ts.

Definition processed_in (processed : gmap string (list RawModule))
    (pm : string * RawModule) : bool :=
  already_processed (processed !! fst pm) (snd pm).

(** A finite set of files: [texts] lists the location and the text of every
    document the loader can return, the entry document among them.  The
    import edges of the files, the pairs they resolve to, and the measure
    that every step of a pass lowers. *)
Section Files.
Variable resolveFrom : string -> string -> Result string.
Variable options : LoadTypedefsOptions.
Variable texts : list (string * string).

Definition edges_of (text : string * string) : list (string * RawModule) :=
  match parseSDL (snd text) with
  | Ok rawModules => List.map (pair (fst text)) rawModules
  | Throw _ => []
  end.

Definition all_edges : list (string * RawModule) := flat_map edges_of texts.

Definition targets : list (string * RawModule) :=
  omap (fun e => match resolveModuleFilePath resolveFrom options (fst e) (from (snd e)) with
                 | Ok p => Some (p, snd e)
                 | Throw _ => None
                 end) all_edges.

Definition unprocessed (st : Pass) : nat :=
  length (List.filter (fun pm => negb (processed_in (processedFiles st) pm)) targets).

Definition measure (st : Pass) : nat :=
  length (resolvings (pending st))
  + S (length all_edges) * length (loadings (pending st))
  + S (S (length all_edges)) * unprocessed st.

(** Every callback that waits for a path comes from an import of a file. *)
Definition from_files (st : Pass) : Prop :=
  forall importer m, In (Resolving importer m) (pending st) -> In (importer, m) all_edges.
End Files.

(** Two files that import each other with the same selectors, read with
    options that have no [fs]: the [from] strings are the paths. *)
Definition text_a : string :=
  "# import * from 'b.graphql'" +:+ String newline "type Query { b: B }".
Definition text_b : string :=
  "# import * from 'a.graphql'" +:+ String newline "type B { x: Int }".

Definition cycle_store : Heap :=
  <[0 := object_type "Query" [sample_field "b" "B"]]>
  (<[1 := object_type "B" [sample_field "x" "Int"]]> ∅).

Definition source_a : Source :=
  {| location := "a.graphql"; document := [0]; rawSDL := text_a |}.
Definition source_b : Source :=
  {| location := "b.graphql"; document := [1]; rawSDL := text_b |}.

Definition cycle_loader (p : string) (h : Heap) : Result (Source * Heap) :=
  if String.eqb p "a.graphql" then Ok (source_a, h)
  else if String.eqb p "b.graphql" then Ok (source_b, h)
  else Throw (HostError "ENOENT").

Definition cycle_options : LoadTypedefsOptions :=
  {| sort := false; cwd := "/proj"; fs := None; path := None |}.

Definition cycle_texts : list (string * string) :=
  [("a.graphql", text_a); ("b.graphql", text_b)].

Definition cycle_start : Pass :=
  processImportSyntax_start compareNodes_by_name cycle_options source_a ∅ [] cycle_store.

(** An entry file that imports everything from a library file; the library
    defines one object type, of the given name.  The nodes are those of
    [inherited_name]. *)
Definition entry_file : Source :=
  {| location := "a.graphql"; document := [0];
     rawSDL := "# import * from 'lib.graphql'" +:+ String newline "type Query { a: Int }" |}.

Definition library_file (n : string) : Source :=
  {| location := "lib.graphql"; document := [1];
     rawSDL := "type " +:+ n +:+ " { a: Int }" |}.

Definition library_loader (n : string) (p : string) (h : Heap) : Result (Source * Heap) :=
  if String.eqb p "lib.graphql" then Ok (library_file n, h)
  else Throw (HostError "ENOENT").

(** A query file with the anonymous operation [{ me { ...F } }] that imports
    the file of the fragment F. *)
Definition query_store : Heap :=
  <[0 := anonymous_operation]>
  (<[1 := {| kind := "FragmentDefinition"; name := Name "F"; fields := None |}]> ∅).

Definition query_file : Source :=
  {| location := "query.graphql"; document := [0];
     rawSDL := "#import 'fragment.graphql'" +:+ String newline "{ me { ...F } }" |}.

Definition fragment_file : Source :=
  {| location := "fragment.graphql"; document := [1];
     rawSDL := "fragment F on User { id }" |}.

Definition fragment_loader (p : string) (h : Heap) : Result (Source * Heap) :=
  if String.eqb p "fragment.graphql" then Ok (fragment_file, h)
  else Throw (HostError "ENOENT").


(** * The rest of the import parser, and its neighbours *)

(** ** Empty texts *)

(** A document node as the code reads it: its kind, its location when the
    parser recorded one, and its array of definitions. *)
Record DocumentNode := {
  document_kind : string;
  document_loc : option (nat * nat);
  definitions : option (list DefinitionNode)
}.

Definition empty_document : DocumentNode :=
  {| document_kind := "Document"; document_loc := None; definitions := Some [] |}.

(** [isEmptySDL]: no line is left once the blank lines and the comments
    are gone. *)
Definition isEmptySDL (sdl : string) : bool :=
  Nat.eqb
    (length (List.filter
               (fun l => negb (Nat.eqb (String.length l) 0 || startsWith l "#"))
               (List.map trim (split newline sdl))))
    0.

Section Documents.
(** [parse(sdl, { noLocation: true })] of the package graphql. *)
Variable parse : string -> Result DocumentNode.

Definition getDocumentFromSDL (sdl : string) : Result DocumentNode :=
  if isEmptySDL sdl then Ok empty_document else parse sdl.
End Documents.

(** A line that [isEmptySDL] does not count. *)
Definition blank_or_comment (l : string) : bool :=
  Nat.eqb (String.length (trim l)) 0 || startsWith (trim l) "#".

Definition no_newline (l : string) : bool :=
  all_chars (fun c => negb (Ascii.eqb c newline)) l.

(** ** What the projector may do to a node

    [node_shrinks d d']: [d'] is [d] with some of its fields gone, in any
    order. *)
Definition node_shrinks (d d' : DefinitionNode) : Prop :=
  kind d' = kind d /\ name d' = name d
  /\ match fields d, fields d' with
     | Some fs, Some fs' => fs' ⊆+ fs
     | None, None => True
     | _, _ => False
     end.

(** Stores related by the projector: every node is there as before, with
    fields gone at most, and the nodes outside [defs] are the same. *)
Definition store_shrinks (defs : list ref) (h h' : Heap) : Prop :=
  (forall r, option_Forall2 node_shrinks (h !! r) (h' !! r))
  /\ (forall r, ~ In r defs -> h' !! r = h !! r).


(** ** What the merge may do to a node

    [node_merged d d']: [d'] is [d] with the field names of [d] among its
    own.  [settled fs]: the field list is one the merge wrote, one field for
    each name, in the order of the comparison rule when [sort] is set. *)
Definition node_merged (d d' : DefinitionNode) : Prop :=
  kind d' = kind d /\ name d' = name d
  /\ match fields d, fields d' with
     | Some fs, Some fs' =>
         forall k, In k (List.map slot_name fs) -> In k (List.map slot_name fs')
     | None, None => True
     | _, _ => False
     end.

Definition settled (compareNodes : FieldNode -> FieldNode -> Z) (sort : bool)
    (fs : list FieldSlot) : Prop :=
  exists l, fs = if sort then array_sort compareNodes (uniqByName l) else uniqByName l.

Definition settled_at (compareNodes : FieldNode -> FieldNode -> Z) (sort : bool)
    (h : Heap) (r : ref) : Prop :=
  forall d fs, h !! r = Some d -> fields d = Some fs -> settled compareNodes sort fs.

(** ** The documents of a pass

    [aligned n st]: apart from the [n] documents the caller handed in, and
    as long as no callback has failed, the projected definitions go with the
    documents one to one, each a part of its document. *)
Definition aligned (n : nat) (st : Pass) : Prop :=
  n <= length (allDefinitions st)
  /\ (failure st = None ->
      Forall2 sublist (typeDefinitions st) (drop n (allDefinitions st))).

(** ** Filtering a document by kind

    [debugLog] writes to the console when the environment asks for it.  The
    console is the sequence of the calls of [console.log], each with its
    arguments.  [process] may be [undefined], and so may [process.env]; the
    value of a variable of the environment is a string, truthy unless
    empty. *)
Record Process := { env : option (gmap string string) }.

Definition env_truthy (e : gmap string string) (k : string) : bool :=
  match e !! k with
  | Some v => negb (String.eqb v "")
  | None => false
  end.

(** [process?.env?.DEBUG && !process.env.GQL_TOOLKIT_NODEBUG] *)
Definition debugging (process : option Process) : bool :=
  match process with
  | Some p =>
      match env p with
      | Some e => env_truthy e "DEBUG" && negb (env_truthy e "GQL_TOOLKIT_NODEBUG")
      | None => false
      end
  | None => false
  end.

Definition debugLog (process : option Process) (args : list string)
    (console : list (list string)) : list (list string) :=
  if debugging process then console ++ [args] else console.

Definition filtered_message (d : DefinitionNode) (filterKinds : list string) : string :=
  "Filtered document of kind " +:+ kind d +:+ " due to filter policy ("
  +:+ String.concat ", " filterKinds +:+ ")".

(** [filterKind]; [content] and [filterKinds] may be [null]. *)
Definition filterKind (process : option Process) (content : option DocumentNode)
    (filterKinds : option (list string)) (console : list (list string))
  : option DocumentNode * list (list string) :=
  match content, filterKinds with
  | Some c, Some kinds =>
      match definitions c with
      | Some defs =>
          if Nat.ltb 0 (length defs) && Nat.ltb 0 (length kinds) then
            let '(invalidDefinitions, validDefinitions) :=
              fold_left
                (fun '(invalid, valid) definitionNode =>
                   if includes kinds (kind definitionNode)
                   then (invalid ++ [definitionNode], valid)
                   else (invalid, valid ++ [definitionNode]))
                defs ([], []) in
            let console' :=
              fold_left
                (fun con d => debugLog process [filtered_message d kinds] con)
                invalidDefinitions console in
            (Some {| document_kind := "Document";
                     document_loc := None;
                     definitions := Some validDefinitions |},
             console')
          else (content, console)
      | None => (content, console)
      end
  | _, _ => (content, console)
  end.

(** Two filter policies, one after the other, as one. *)
Definition both_policies (k1 k2 : option (list string)) : option (list string) :=
  match k1, k2 with
  | Some a, Some b => Some (a ++ b)
  | Some a, None => Some a
  | None, b => b
  end.

Definition kept_by (kinds : list string) (d : DefinitionNode) : bool :=
  negb (includes kinds (kind d)).

(** The document [filterKind] returns, the console apart. *)
Definition filtered (content : option DocumentNode) (filterKinds : option (list string))
  : option DocumentNode :=
  match content, filterKinds with
  | Some c, Some (k :: kinds) =>
      match definitions c with
      | Some (d :: defs) =>
          Some {| document_kind := "Document"; document_loc := None;
                  definitions := Some (List.filter (kept_by (k :: kinds)) (d :: defs)) |}
      | _ => content
      end
  | _, _ => content
  end.

(** ** Custom loaders

    A loader pointer and the export of a module are JavaScript values of any
    type.  The code looks at a value through [typeof], through its
    truthiness, through its property [default], and through its conversion
    to a string in the message of the error; these are the parameters of the
    section, with the characters of a value that is a string. *)
Section CustomLoader.
Variable Value : Type.
Variable typeof : Value -> string.
Variable truthy : Value -> bool.
(** [v.default] on a truthy value; a getter may throw. *)
Variable read_default : Value -> Result Value.
Variable string_of : Value -> string.
(** The value inside a template literal; the conversion of a symbol
    throws. *)
Variable template : Value -> Result string.

(** The function [importFrom(cwd, path)] of the package import-from. *)
Definition ImportFrom := string -> string -> Result Value.

(** What [require('import-from')] gives: its property [default], when it is
    truthy, as something to call or not, and the module itself as something
    to call or not. *)
Record RequiredPackage := {
  required_default : option (option ImportFrom);
  required_self : option ImportFrom
}.

(** The choice both functions make of what a required module exports:
    its [default] when that is a function, else the module when it is
    one. *)
Definition exported_loader (requiredModule : Value) : option Value :=
  if truthy requiredModule then
    match read_default requiredModule with
    | Ok d =>
        if truthy d && String.eqb (typeof d) "function" then Some d
        else if String.eqb (typeof requiredModule) "function" then Some requiredModule
        else None
    | Throw _ => None
    end
  else None.

(** [getCustomLoaderByPath]: [imported] is the property [default] of what
    [import('import-from')] resolves to, as something to call or not, or the
    rejection.  Every exception is caught; [None] is [null]. *)
Definition getCustomLoaderByPath (imported : Result (option ImportFrom))
    (path cwd : string) : option Value :=
  match imported with
  | Ok (Some importFrom) =>
      match importFrom cwd path with
      | Ok requiredModule => exported_loader requiredModule
      | Throw _ => None
      end
  | _ => None
  end.

(** [getCustomLoaderByPathSync], with [importFrom.default || importFrom]. *)
Definition getCustomLoaderByPathSync (required : Result RequiredPackage)
    (path cwd : string) : option Value :=
  match required with
  | Ok package =>
      let importFrom :=
        match required_default package with
        | Some callable => callable
        | None => required_self package
        end in
      match importFrom with
      | Some f =>
          match f cwd path with
          | Ok requiredModule => exported_loader requiredModule
          | Throw _ => None
          end
      | None => None
      end
  | Throw _ => None
  end.

Definition failed_to_load (loaderPointer : Value) : Result Value :=
  let* text := template loaderPointer in
  Throw (Error ("Failed to load custom loader: " +:+ text)).

(** The part [useCustomLoader] and [useCustomLoaderSync] share; [byPath] is
    the one or the other way to load a module.  [None] is a loader that is
    [undefined] or [null]. *)
Definition use_loader (byPath : string -> string -> option Value)
    (loaderPointer : Value) (cwd : string) : Result Value :=
  let loader :=
    if String.eqb (typeof loaderPointer) "string"
    then byPath (string_of loaderPointer) cwd
    else if String.eqb (typeof loaderPointer) "function" then Some loaderPointer
    else None in
  match loader with
  | Some l =>
      if String.eqb (typeof l) "function" then Ok l else failed_to_load loaderPointer
  | None => failed_to_load loaderPointer
  end.

Definition useCustomLoader (imported : Result (option ImportFrom))
    (loaderPointer : Value) (cwd : string) : Result Value :=
  use_loader (getCustomLoaderByPath imported) loaderPointer cwd.

Definition useCustomLoaderSync (required : Result RequiredPackage)
    (loaderPointer : Value) (cwd : string) : Result Value :=
  use_loader (getCustomLoaderByPathSync required) loaderPointer cwd.
End CustomLoader.

(** Values for the examples: a string, a function, and a module object with
    a function behind [default]. *)
Inductive SampleValue :=
| sample_undefined
| sample_string (s : string)
| sample_function (id : nat)
| sample_module (default_export : nat).

Definition sample_typeof (v : SampleValue) : string :=
  match v with
  | sample_undefined => "undefined"
  | sample_string _ => "string"
  | sample_function _ => "function"
  | sample_module _ => "object"
  end.

Definition sample_truthy (v : SampleValue) : bool :=
  match v with
  | sample_undefined => false
  | sample_string s => negb (String.eqb s "")
  | _ => true
  end.

Definition sample_default (v : SampleValue) : Result SampleValue :=
  match v with
  | sample_module n => Ok (sample_function n)
  | _ => Ok sample_undefined
  end.

Definition sample_text (v : SampleValue) : string :=
  match v with
  | sample_string s => s
  | sample_undefined => "undefined"
  | sample_function _ => "function () {}"
  | sample_module _ => "[object Object]"
  end.

Definition sample_importFrom (cwd path : string) : Result SampleValue :=
  if String.eqb path "./loader.js" then Ok (sample_module 7)
  else Throw (Error ("Cannot find module '" +:+ path +:+ "'")).

(** ** A pass over regular documents

    [sound st]: no callback has failed, and every node of every document
    seen so far is regular in the store. *)
Definition sound (st : Pass) : Prop :=
  failure st = None
  /\ forall r, In r (flatten (allDefinitions st)) -> regular (heap st) r = true.

(** A loader for the examples that finds a file behind every path, and
    puts the nodes of its document in the store. *)
Definition total_loader (p : string) (h : Heap) : Result (Source * Heap) :=
  if String.eqb p "a.graphql"
  then Ok (source_a, <[0 := object_type "Query" [sample_field "b" "B"]]> h)
  else Ok (source_b, <[1 := object_type "B" [sample_field "x" "Int"]]> h).

(** * Properties *)

(** ** Results and array helpers *)

Lemma bind_Ok {A B} (r : Result A) (f : A -> Result B) (b : B) :
  bind r f = Ok b -> exists a, r = Ok a /\ f a = Ok b.
Proof. destruct r as [a|e]; simpl; intros H; [eauto | discriminate]. Qed.

Lemma filterM_pure {A} (p : A -> Result bool) (q : A -> bool) (l : list A) :
  (forall x, In x l -> p x = Ok (q x)) ->
  filterM p l = Ok (List.filter q l).
Proof.
  induction l as [|x l IH]; intros Hp; simpl; [reflexivity|].
  rewrite (Hp x) by (left; reflexivity). simpl.
  rewrite IH by (intros y Hy; apply Hp; right; exact Hy). simpl.
  destruct (q x); reflexivity.
Qed.

Lemma findM_pure {A} (p : A -> Result bool) (q : A -> bool) (l : list A) :
  (forall x, In x l -> p x = Ok (q x)) ->
  findM p l = Ok (List.find q l).
Proof.
  induction l as [|x l IH]; intros Hp; simpl; [reflexivity|].
  rewrite (Hp x) by (left; reflexivity). simpl.
  destruct (q x); [reflexivity|].
  apply IH. intros y Hy. apply Hp. right. exact Hy.
Qed.

Lemma includes_In (l : list string) (x : string) :
  includes l x = true <-> In x l.
Proof.
  unfold includes. rewrite existsb_exists. split.
  - intros (y & Hy & E). apply String.eqb_eq in E. subst. exact Hy.
  - intros H. exists x. split; [exact H | apply String.eqb_refl].
Qed.

Lemma take_removelast {A} (l : list A) :
  take (length l - 1) l = removelast l.
Proof.
  induction l as [|x l IH]; [reflexivity|].
  destruct l as [|y l]; [reflexivity|].
  replace (length (x :: y :: l) - 1) with (S (length (y :: l) - 1))
    by (simpl; lia).
  rewrite firstn_cons, IH. reflexivity.
Qed.

Lemma truthy_at_insert {A} (m : gmap string A) (k v : string) (x : A) :
  truthy_at (<[k := x]> m) v = String.eqb k v || truthy_at m v.
Proof.
  unfold truthy_at. destruct (String.eqb_spec k v) as [->|Hne].
  - rewrite lookup_insert_eq. reflexivity.
  - rewrite lookup_insert_ne by exact Hne. reflexivity.
Qed.

Lemma truthy_at_fold {A} (key : A -> string) (l : list A) (m : gmap string A) (v : string) :
  truthy_at (fold_left (fun m x => <[key x := x]> m) l m) v
  = existsb (fun x => String.eqb (key x) v) l || truthy_at m v.
Proof.
  revert m. induction l as [|x l IH]; intros m; simpl; [reflexivity|].
  rewrite IH, truthy_at_insert.
  destruct (String.eqb (key x) v), (existsb _ l), (truthy_at m v); reflexivity.
Qed.

Lemma truthy_at_keyBy {A} (key : A -> string) (l : list A) (v : string) :
  truthy_at (keyBy key l) v
  = existsb (fun x => String.eqb (key x) v) l || includes Object_prototype v.
Proof.
  unfold keyBy. rewrite truthy_at_fold.
  unfold truthy_at at 1. rewrite lookup_empty. reflexivity.
Qed.

(** ** The definition projector: wildcard selectors *)

Lemma regular_lookup (h : Heap) (r : ref) :
  regular h r = true ->
  exists d, h !! r = Some d /\ well_named d = true /\ no_holes d = true.
Proof.
  unfold regular. destruct (h !! r) as [d|]; [|discriminate].
  intros H. apply andb_true_iff in H. eauto.
Qed.

Lemma previous_pure (h : Heap) (l : list ref) :
  forallb (regular h) l = true ->
  filterM (fun r => let* d := deref h r in
                    named_and (fun v => negb (includes rootFields v)) d) l
  = Ok (List.filter (fun r => match name_of h r with
                              | Some v => negb (includes rootFields v)
                              | None => false
                              end) l).
Proof.
  intros Hl. apply filterM_pure. intros r Hr.
  rewrite forallb_forall in Hl.
  destruct (regular_lookup h r (Hl r Hr)) as (d & Hd & Hn & _).
  unfold deref, name_of, named_and. rewrite Hd. simpl.
  unfold well_named in Hn. destruct (name d); [reflexivity | discriminate | reflexivity].
Qed.

Lemma existsb_filter {A} (p q : A -> bool) (l : list A) :
  existsb p (List.filter q l) = existsb (fun x => q x && p x) l.
Proof.
  induction l as [|x l IH]; simpl; [reflexivity|].
  destruct (q x); simpl; rewrite IH; reflexivity.
Qed.

Lemma seen_earlier_keyBy (h : Heap) (allDefinitions : list (list ref)) (v : string) :
  truthy_at (keyBy (name_key h)
             (List.filter (fun r => match name_of h r with
                                    | Some w => negb (includes rootFields w)
                                    | None => false
                                    end)
                (flatten (removelast allDefinitions)))) v
  = seen_earlier h allDefinitions v || includes Object_prototype v.
Proof.
  rewrite truthy_at_keyBy, existsb_filter. f_equal. unfold seen_earlier.
  generalize (flatten (removelast allDefinitions)) as l.
  induction l as [|r l IH]; cbn [existsb].
  - rewrite andb_false_r. reflexivity.
  - rewrite IH. unfold has_name, name_of, name_key.
    destruct (h !! r) as [d|]; cbn [andb orb]; [|reflexivity].
    destruct (name d) as [| |w]; cbn [andb orb]; try reflexivity.
    destruct (String.eqb_spec w v) as [->|Hne].
    + destruct (negb (includes rootFields v)); reflexivity.
    + rewrite andb_false_r. reflexivity.
Qed.

Lemma wildcard_among_others (compareNodes : FieldNode -> FieldNode -> Z)
    (imports : list string) (typeDefinitions : list ref)
    (allDefinitions : list (list ref)) (sort : bool) (h : Heap) :
  includes imports "*" = true -> imports <> ["*"] ->
  filterImportedDefinitions compareNodes imports typeDefinitions allDefinitions sort h
  = Ok (typeDefinitions, h).
Proof.
  intros Hin Hne. unfold filterImportedDefinitions. rewrite Hin.
  destruct imports as [|i [|j rest]]; simpl; try reflexivity.
  destruct (String.eqb_spec i "*") as [->|_]; [congruence | reflexivity].
Qed.

(** C10.  A selector list that holds the wildcard and is not the list of the
    wildcard alone gives back the definitions of the document as they are,
    whatever the number of documents visited so far, and the nodes stay
    untouched. *)
Theorem mixed_wildcard_returns_all (compareNodes : FieldNode -> FieldNode -> Z)
    (imports : list string) (typeDefinitions : list ref)
    (allDefinitions : list (list ref)) (sort : bool) (h : Heap) :
  In "*" imports -> imports <> ["*"] ->
  filterImportedDefinitions compareNodes imports typeDefinitions allDefinitions sort h
  = Ok (typeDefinitions, h).
Proof.
  intros Hin Hne. apply wildcard_among_others; [|exact Hne].
  apply includes_In, Hin.
Qed.

Lemma mixed_wildcard_returns_all_witness :
  filterImportedDefinitions (fun _ _ => 0%Z) ["*"; "Foo"] [4; 7] [[1]; [4; 7]] true ∅
  = Ok ([4; 7], ∅).
Proof.
  apply mixed_wildcard_returns_all.
  - left. reflexivity.
  - discriminate.
Defined.

Lemma wildcard_alone_unfold (compareNodes : FieldNode -> FieldNode -> Z)
    (typeDefinitions : list ref) (allDefinitions : list (list ref))
    (sort : bool) (h : Heap) :
  filterImportedDefinitions compareNodes ["*"] typeDefinitions allDefinitions sort h
  = if Nat.ltb 1 (length allDefinitions) then
      let* previous :=
        filterM (fun r => let* d := deref h r in
                          named_and (fun v => negb (includes rootFields v)) d)
                (flatten (take (length allDefinitions - 1) allDefinitions)) in
      let* result :=
        filterM (fun r => let* typeDef := deref h r in
                          if String.eqb (kind typeDef) "ObjectTypeDefinition"
                          then let* v := name_value typeDef in
                               Ok (truthy_at (keyBy (name_key h) previous) v)
                          else Ok false)
                typeDefinitions in
      Ok (result, h)
    else Ok (typeDefinitions, h).
Proof. reflexivity. Qed.

Lemma wildcard_entry (compareNodes : FieldNode -> FieldNode -> Z)
    (typeDefinitions : list ref) (allDefinitions : list (list ref))
    (sort : bool) (h : Heap) :
  length allDefinitions <= 1 ->
  filterImportedDefinitions compareNodes ["*"] typeDefinitions allDefinitions sort h
  = Ok (typeDefinitions, h).
Proof.
  intros Hlen. rewrite wildcard_alone_unfold.
  destruct (Nat.ltb_spec 1 (length allDefinitions)); [lia | reflexivity].
Qed.

Lemma wildcard_later (compareNodes : FieldNode -> FieldNode -> Z)
    (typeDefinitions : list ref) (allDefinitions : list (list ref))
    (sort : bool) (h : Heap) :
  1 < length allDefinitions ->
  forallb (regular h) (flatten (removelast allDefinitions)) = true ->
  forallb (regular h) typeDefinitions = true ->
  filterImportedDefinitions compareNodes ["*"] typeDefinitions allDefinitions sort h
  = Ok (List.filter (wildcard_keeps h allDefinitions) typeDefinitions, h).
Proof.
  intros Hlen Hprev Hcur. rewrite wildcard_alone_unfold.
  destruct (Nat.ltb_spec 1 (length allDefinitions)); [|lia].
  rewrite take_removelast, (previous_pure h _ Hprev). cbn [bind].
  rewrite (filterM_pure _ (wildcard_keeps h allDefinitions)); [reflexivity|].
  intros r Hr. rewrite forallb_forall in Hcur.
  destruct (regular_lookup h r (Hcur r Hr)) as (d & Hd & Hn & _).
  unfold deref, wildcard_keeps, is_object, name_of, name_value. rewrite Hd. simpl.
  unfold well_named in Hn.
  destruct (String.eqb (kind d) "ObjectTypeDefinition"); [|reflexivity].
  destruct (name d) as [| |v]; try discriminate. simpl.
  rewrite seen_earlier_keyBy. reflexivity.
Qed.

(** The wildcard alone: on the first document the projector returns every
    definition; on a later document it returns the definitions that are
    object types and whose name a definition of an earlier document carries,
    the names Query, Mutation and Subscription not counting as carried, and
    with them the object types named as a property of [Object.prototype]. *)
Lemma wildcard_alone_projection (compareNodes : FieldNode -> FieldNode -> Z)
    (typeDefinitions : list ref) (allDefinitions : list (list ref))
    (sort : bool) (h : Heap) :
  (length allDefinitions <= 1 ->
   filterImportedDefinitions compareNodes ["*"] typeDefinitions allDefinitions sort h
   = Ok (typeDefinitions, h))
  /\
  (1 < length allDefinitions ->
   forallb (regular h) (flatten (removelast allDefinitions)) = true ->
   forallb (regular h) typeDefinitions = true ->
   filterImportedDefinitions compareNodes ["*"] typeDefinitions allDefinitions sort h
   = Ok (List.filter (wildcard_keeps h allDefinitions) typeDefinitions, h)).
Proof. split; [apply wildcard_entry | apply wildcard_later]. Qed.

(** Of the second document, whose Query, Foo and Bar are all object types,
    the wildcard keeps Foo, the one the entry document defines too. *)
Example wildcard_keeps_seen :
  filterImportedDefinitions compareNodes_by_name ["*"] [2; 3; 4] [[0; 1]; [2; 3; 4]]
    false two_documents
  = Ok ([3], two_documents).
Proof. reflexivity. Qed.

(** C2.  On a later document the wildcard alone keeps an object type that no
    earlier document defines, when its name is a property of
    [Object.prototype]: the entry document defines Query only, the second
    one defines constructor, and constructor is returned; under the name
    Unseen the same definition is dropped. *)
Example wildcard_keeps_inherited_name :
  filterImportedDefinitions compareNodes_by_name ["*"] [1] [[0]; [1]] false
    (inherited_name "constructor")
  = Ok ([1], inherited_name "constructor")
  /\ existsb (has_name (inherited_name "constructor") "constructor")
       (flatten (removelast [[0]; [1]])) = false
  /\ filterImportedDefinitions compareNodes_by_name ["*"] [1] [[0]; [1]] false
       (inherited_name "Unseen")
     = Ok ([], inherited_name "Unseen").
Proof. split; [|split]; reflexivity. Qed.

(** The same through a pass: the entry file imports everything from a
    library file; the type of the library is among the projected definitions
    when its name is constructor, and is not under another name. *)
Example pass_keeps_inherited_name :
  (exists evs st,
     run_pass compareNodes_by_name sample_resolveFrom (library_loader "constructor")
       cycle_options 9
       (processImportSyntax_start compareNodes_by_name cycle_options entry_file ∅ []
          (inherited_name "constructor"))
     = Some (evs, st)
     /\ typeDefinitions st = [[0]; [1]] /\ failure st = None)
  /\ (exists evs st,
        run_pass compareNodes_by_name sample_resolveFrom (library_loader "Unseen")
          cycle_options 9
          (processImportSyntax_start compareNodes_by_name cycle_options entry_file ∅ []
             (inherited_name "Unseen"))
        = Some (evs, st)
        /\ typeDefinitions st = [[0]; []] /\ failure st = None).
Proof.
  split; eexists _, _; (split; [vm_compute; reflexivity|]); split; reflexivity.
Qed.

(** ** The definition projector: named selectors *)


Lemma keys_group_insert (k x : string) (g : list (string * list string)) :
  List.map fst (group_insert k x g)
  = if includes (List.map fst g) k then List.map fst g else List.map fst g ++ [k].
Proof.
  induction g as [|[k0 xs] g IH]; simpl; [reflexivity|].
  unfold includes in *. simpl.
  destruct (String.eqb_spec k k0) as [->|Hne]; simpl; [reflexivity|].
  rewrite IH. destruct (existsb (String.eqb k) (List.map fst g)); reflexivity.
Qed.

Lemma group_insert_NoDup (k x : string) (g : list (string * list string)) :
  NoDup (List.map fst g) -> NoDup (List.map fst (group_insert k x g)).
Proof.
  intros H. rewrite keys_group_insert.
  destruct (includes (List.map fst g) k) eqn:E; [exact H|].
  apply NoDup_app; repeat split.
  - exact H.
  - intros y Hy Hy'. apply list_elem_of_In in Hy, Hy'.
    destruct Hy' as [<-|[]].
    apply includes_In in Hy. congruence.
  - apply NoDup_singleton.
Qed.

Lemma groupBy_NoDup (key : string -> string) (l : list string) :
  NoDup (List.map fst (groupBy key l)).
Proof.
  unfold groupBy.
  assert (forall g, NoDup (List.map fst g) ->
            NoDup (List.map fst (fold_left (fun groups x => group_insert (key x) x groups) l g)))
    as H.
  { induction l as [|x l IH]; intros g Hg; simpl; [exact Hg|].
    apply IH, group_insert_NoDup, Hg. }
  apply H. constructor.
Qed.



Lemma assoc_app_fresh (k : string) (xs : list string)
    (P R : list (string * list string)) :
  ~ In k (List.map fst P) ->
  forall k', assoc k' (P ++ (k, xs) :: R)
             = if String.eqb k' k then Some xs else assoc k' (P ++ R).
Proof.
  intros Hk k'. induction P as [|[k0 ys] P IH]; simpl.
  - reflexivity.
  - simpl in Hk.
    destruct (String.eqb_spec k' k0) as [->|Hne].
    + destruct (String.eqb_spec k0 k) as [->|_]; [tauto | reflexivity].
    + apply IH. tauto.
Qed.

Lemma assoc_not_key (k : string) (P : list (string * list string)) :
  ~ In k (List.map fst P) -> assoc k P = None.
Proof.
  induction P as [|[k0 ys] P IH]; simpl; intros H; [reflexivity|].
  destruct (String.eqb_spec k k0) as [->|_]; [tauto|]. apply IH. tauto.
Qed.

Lemma name_project_node cmp sort defs h groups r d :
  name (project_node cmp sort defs h groups r d) = name d.
Proof.
  unfold project_node. destruct (name d) eqn:E; try exact E.
  destruct (fields d); [|exact E].
  destruct (assoc value groups); [|exact E].
  destruct (_ && _); [simpl; exact E | exact E].
Qed.

Lemma filterM_fields (requested : list string) (fs : list FieldSlot) :
  includes requested "*" = false ->
  forallb (fun f => negb (is_hole f)) fs = true ->
  filterM (field_requested requested) fs
  = Ok (List.filter (keeps_field requested) fs).
Proof.
  intros Hstar Hfs. apply filterM_pure. intros f Hf.
  rewrite forallb_forall in Hfs. specialize (Hfs f Hf).
  destruct f as [n|]; [|discriminate]. simpl.
  rewrite Hstar, orb_false_r. reflexivity.
Qed.

Section NamedSelectors.
Variable compareNodes : FieldNode -> FieldNode -> Z.
Variable sort : bool.
Variable defs : list ref.
Variable h : Heap.
Hypothesis defs_regular : forallb (regular h) defs = true.

Local Abbreviation groups_done := (after_groups compareNodes sort defs h).

Lemma after_groups_find P hi T :
  groups_done P hi ->
  findM (fun r => let* d := deref hi r in
                  named_and (fun v => String.eqb v T) d) defs
  = Ok (first_named h defs T).
Proof.
  intros Hi. unfold first_named. apply findM_pure. intros r Hr.
  pose proof defs_regular as Hreg. rewrite forallb_forall in Hreg.
  destruct (regular_lookup h r (Hreg r Hr)) as (d & Hd & Hn & _).
  unfold deref, has_name, name_of, named_and.
  rewrite (Hi r), Hd. simpl. rewrite name_project_node.
  unfold well_named in Hn.
  destruct (name d); [reflexivity | discriminate | reflexivity].
Qed.

Lemma first_named_has_name T r :
  first_named h defs T = Some r ->
  exists d, h !! r = Some d /\ name d = Name T /\ no_holes d = true.
Proof.
  intros Hf. apply find_some in Hf as [Hin Hn].
  pose proof defs_regular as Hreg. rewrite forallb_forall in Hreg.
  destruct (regular_lookup h r (Hreg r Hin)) as (d & Hd & _ & Hh).
  exists d. split; [exact Hd|]. split; [|exact Hh].
  unfold has_name, name_of in Hn. rewrite Hd in Hn.
  destruct (name d) as [| |w]; try discriminate.
  apply String.eqb_eq in Hn. congruence.
Qed.

Lemma project_fields_round P T members R hi :
  NoDup (List.map fst (P ++ (T, members) :: R)) ->
  groups_done P hi ->
  exists hi', project_fields compareNodes sort defs hi (T, members) = Ok hi'
              /\ groups_done (P ++ [(T, members)]) hi'.
Proof.
  intros Hnd Hi.
  assert (~ In T (List.map fst P)) as Hfresh.
  { rewrite map_app in Hnd. simpl in Hnd.
    apply NoDup_app in Hnd as (_ & Hdisj & _).
    intros Hin. apply (Hdisj T); apply list_elem_of_In; [exact Hin | left; reflexivity]. }
  assert (forall k', assoc k' (P ++ [(T, members)])
                     = if String.eqb k' T then Some members else assoc k' P) as Hassoc.
  { intros k'. rewrite (assoc_app_fresh T members P [] Hfresh k'), app_nil_r. reflexivity. }
  unfold project_fields. cbn [fst snd].
  rewrite (after_groups_find P hi T Hi). cbn [bind].
  destruct (first_named h defs T) as [r0|] eqn:Hfirst.
  - destruct (first_named_has_name T r0 Hfirst) as (d0 & Hd0 & Hname & Hholes).
    assert (hi !! r0 = Some d0) as Hhi0.
    { rewrite (Hi r0), Hd0. simpl. f_equal. unfold project_node.
      rewrite Hname. destruct (fields d0); [|reflexivity].
      rewrite (assoc_not_key T P Hfresh). reflexivity. }
    unfold deref. rewrite Hhi0. cbn [bind].
    assert (forall r, r <> r0 ->
              project_node compareNodes sort defs h (P ++ [(T, members)]) r <$> h !! r
              = project_node compareNodes sort defs h P r <$> h !! r) as Hother.
    { intros r Hr. destruct (h !! r) as [d|]; [simpl; f_equal|reflexivity].
      unfold project_node. destruct (name d) as [| |T']; try reflexivity.
      destruct (fields d) as [fs|]; [|reflexivity].
      rewrite Hassoc. destruct (String.eqb_spec T' T) as [->|_]; [|reflexivity].
      rewrite (assoc_not_key T P Hfresh), Hfirst.
      rewrite bool_decide_eq_false_2 by congruence.
      rewrite andb_false_r. reflexivity. }
    destruct (fields d0) as [fs|] eqn:Hfs.
    + destruct (includes (List.map member members) "*") eqn:Hstar; cbn [negb].
      * exists hi. split; [reflexivity|]. intros r.
        destruct (decide (r = r0)) as [->|Hr].
        -- rewrite Hhi0, Hd0. simpl. f_equal. unfold project_node.
           rewrite Hname, Hfs, Hassoc, String.eqb_refl, Hstar. reflexivity.
        -- rewrite (Hother r Hr). apply Hi.
      * unfold no_holes in Hholes. rewrite Hfs in Hholes.
        rewrite (filterM_fields _ fs Hstar Hholes). cbn [bind].
        eexists. split; [reflexivity|]. intros r.
        destruct (decide (r = r0)) as [->|Hr].
        -- rewrite lookup_insert_eq, Hd0. simpl. f_equal. unfold project_node.
           rewrite Hname, Hfs, Hassoc, String.eqb_refl, Hstar, Hfirst.
           rewrite bool_decide_eq_true_2 by reflexivity. reflexivity.
        -- rewrite lookup_insert_ne by congruence.
           rewrite (Hother r Hr). apply Hi.
    + exists hi. split; [reflexivity|]. intros r.
      destruct (decide (r = r0)) as [->|Hr].
      * rewrite Hhi0, Hd0. simpl. f_equal. unfold project_node.
        rewrite Hname, Hfs. reflexivity.
      * rewrite (Hother r Hr). apply Hi.
  - exists hi. split; [reflexivity|]. intros r. rewrite (Hi r).
    destruct (h !! r) as [d|]; [simpl; f_equal|reflexivity].
    unfold project_node. destruct (name d) as [| |T']; try reflexivity.
    destruct (fields d) as [fs|]; [|reflexivity].
    rewrite Hassoc. destruct (String.eqb_spec T' T) as [->|_]; [|reflexivity].
    rewrite (assoc_not_key T P Hfresh), Hfirst.
    rewrite bool_decide_eq_false_2 by congruence.
    rewrite andb_false_r. reflexivity.
Qed.

Lemma project_fields_all R :
  forall P hi,
    NoDup (List.map fst (P ++ R)) ->
    groups_done P hi ->
    exists h', foldM (project_fields compareNodes sort defs) R hi = Ok h'
               /\ groups_done (P ++ R) h'.
Proof.
  induction R as [|[T members] R IH]; intros P hi Hnd Hi; simpl.
  - exists hi. rewrite app_nil_r. split; [reflexivity | exact Hi].
  - destruct (project_fields_round P T members R hi Hnd Hi) as (hi' & Hstep & Hi').
    rewrite Hstep. cbn [bind].
    destruct (IH (P ++ [(T, members)]) hi') as (h' & Hrest & Hfinal).
    + rewrite <- app_assoc. exact Hnd.
    + exact Hi'.
    + exists h'. split; [exact Hrest|].
      rewrite <- app_assoc in Hfinal. exact Hfinal.
Qed.
End NamedSelectors.


Lemma after_no_group (compareNodes : FieldNode -> FieldNode -> Z) (sort : bool)
    (defs : list ref) (h : Heap) :
  after_groups compareNodes sort defs h [] h.
Proof.
  intros r. destruct (h !! r) as [d|]; [simpl; f_equal|reflexivity].
  unfold project_node. destruct (name d); try reflexivity.
  destruct (fields d); reflexivity.
Qed.

(** Without the wildcard, on regular nodes, the projector is its loop over
    the groups of field selectors, and what it returns does not depend on
    the loop. *)
Lemma named_selectors_unfold (compareNodes : FieldNode -> FieldNode -> Z)
    (imports : list string) (typeDefinitions : list ref)
    (allDefinitions : list (list ref)) (sort : bool) (h : Heap) :
  includes imports "*" = false ->
  forallb (regular h) typeDefinitions = true ->
  filterImportedDefinitions compareNodes imports typeDefinitions allDefinitions sort h
  = let* h' := foldM (project_fields compareNodes sort typeDefinitions)
                     (groupBy owner (field_imports imports)) h in
    Ok (List.filter (selected h imports) typeDefinitions, h').
Proof.
  intros Hstar Hreg. unfold filterImportedDefinitions. rewrite Hstar.
  rewrite (filterM_pure _ (selected h imports)); [reflexivity|].
  intros r Hr. rewrite forallb_forall in Hreg.
  destruct (regular_lookup h r (Hreg r Hr)) as (d & Hd & Hn & _).
  unfold deref, selected, name_of, named_and. rewrite Hd. simpl.
  unfold well_named in Hn.
  destruct (name d); [reflexivity | discriminate | reflexivity].
Qed.

Lemma assoc_In (T : string) (groups : list (string * list string))
    (members : list string) :
  NoDup (List.map fst groups) ->
  assoc T groups = Some members <-> In (T, members) groups.
Proof.
  induction groups as [|[k xs] groups IH]; cbn [assoc List.map fst In]; intros Hnd.
  - split; [discriminate | intros []].
  - apply NoDup_cons in Hnd as [Hk Hnd]. rewrite list_elem_of_In in Hk.
    destruct (String.eqb_spec T k) as [->|Hne].
    + split.
      * intros [= ->]. left. reflexivity.
      * intros [[= ->]|Hin]; [reflexivity|].
        exfalso. apply Hk. apply (in_map fst) in Hin. exact Hin.
    + rewrite (IH Hnd). split; [tauto|].
      intros [[= -> _]|Hin]; [congruence | exact Hin].
Qed.

Lemma assoc_perm (T : string) (groups groups' : list (string * list string)) :
  NoDup (List.map fst groups) -> groups ≡ₚ groups' ->
  assoc T groups' = assoc T groups.
Proof.
  intros Hnd Hperm.
  assert (NoDup (List.map fst groups')) as Hnd'.
  { assert (List.map fst groups' ≡ₚ List.map fst groups) as ->
      by (symmetry; apply Permutation_map, Hperm).
    exact Hnd. }
  destruct (assoc T groups) as [members|] eqn:E.
  - apply (assoc_In T groups' members Hnd').
    apply (Permutation_in _ Hperm), (assoc_In T groups members Hnd), E.
  - destruct (assoc T groups') as [members|] eqn:E'; [|reflexivity].
    apply (assoc_In T groups' members Hnd') in E'.
    apply (Permutation_in _ (Permutation_sym Hperm)) in E'.
    apply (assoc_In T groups members Hnd) in E'. congruence.
Qed.

(** The loop [for (const rootType in groupedFieldImports)] visits the keys
    that are canonical array indices before the others.  The order does not
    matter: each round writes the first definition of its own type only, so
    the rounds taken in any order end with the same store. *)
Lemma project_fields_any_order (compareNodes : FieldNode -> FieldNode -> Z)
    (sort : bool) (defs : list ref) (h : Heap)
    (groups groups' : list (string * list string)) :
  forallb (regular h) defs = true ->
  NoDup (List.map fst groups) -> groups ≡ₚ groups' ->
  foldM (project_fields compareNodes sort defs) groups' h
  = foldM (project_fields compareNodes sort defs) groups h.
Proof.
  intros Hreg Hnd Hperm.
  assert (NoDup (List.map fst groups')) as Hnd'.
  { assert (List.map fst groups' ≡ₚ List.map fst groups) as ->
      by (symmetry; apply Permutation_map, Hperm).
    exact Hnd. }
  destruct (project_fields_all compareNodes sort defs h Hreg groups [] h Hnd
              (after_no_group compareNodes sort defs h)) as (h1 & Hrun1 & Hafter1).
  destruct (project_fields_all compareNodes sort defs h Hreg groups' [] h Hnd'
              (after_no_group compareNodes sort defs h)) as (h2 & Hrun2 & Hafter2).
  rewrite Hrun1, Hrun2. f_equal. apply map_eq. intros r.
  rewrite (Hafter1 r), (Hafter2 r). cbn [app].
  destruct (h !! r) as [d|]; [simpl; f_equal|reflexivity].
  unfold project_node. destruct (name d) as [| |T]; try reflexivity.
  destruct (fields d); [|reflexivity].
  rewrite (assoc_perm T groups groups' Hnd Hperm). reflexivity.
Qed.



(** Importing every field of Type leaves both fields, in the order of the
    document even when [sort] is set. *)
Example import_all_fields_of_type :
  exists h',
    filterImportedDefinitions compareNodes_by_name ["Type.*"] [0; 1] [[0; 1]]
      true type_document
    = Ok ([0], h')
    /\ h' !! 0 = Some (object_type "Type"
                         [sample_field "fieldB" "Int"; sample_field "fieldA" "Int"]).
Proof.
  exists type_document. split; reflexivity.
Qed.

(** ** The definition projector: exceptions *)

(** On regular nodes the projector returns, whatever the selectors. *)
Lemma projector_returns (compareNodes : FieldNode -> FieldNode -> Z)
    (imports : list string) (typeDefinitions : list ref)
    (allDefinitions : list (list ref)) (sort : bool) (h : Heap) :
  forallb (regular h) (flatten (removelast allDefinitions)) = true ->
  forallb (regular h) typeDefinitions = true ->
  exists result h',
    filterImportedDefinitions compareNodes imports typeDefinitions allDefinitions sort h
    = Ok (result, h').
Proof.
  intros Hprev Hcur.
  destruct (includes imports "*") eqn:Hstar.
  - destruct (decide (imports = ["*"])) as [->|Hne].
    + destruct (Nat.le_gt_cases (length allDefinitions) 1) as [Hlen|Hlen].
      * eexists _, _. apply wildcard_entry, Hlen.
      * eexists _, _. apply wildcard_later; assumption.
    + eexists _, _. apply wildcard_among_others; assumption.
  - rewrite (named_selectors_unfold compareNodes imports typeDefinitions allDefinitions
               sort h Hstar Hcur).
    destruct (project_fields_all compareNodes sort typeDefinitions h Hcur
                (groupBy owner (field_imports imports)) [] h) as (h' & Hfold & _).
    + apply groupBy_NoDup.
    + apply after_no_group.
    + rewrite Hfold. eexists _, _. reflexivity.
Qed.

(** C8.  The projector does raise: a definition whose key [name] holds
    [undefined], as the node of an anonymous operation does, makes it throw
    the TypeError of reading [value] of [undefined], be the definition in
    the document it projects for named selectors, or in an earlier document
    when the selector list is the wildcard alone. *)
Example projector_throws_on_undefined_name :
  filterImportedDefinitions compareNodes_by_name ["Foo"] [0] [[0]] false
    (<[0 := anonymous_operation]> ∅)
  = Throw (undefined_value "value")
  /\ filterImportedDefinitions compareNodes_by_name ["*"] [1] [[0]; [1]] false
       (<[0 := anonymous_operation]> (<[1 := object_type "Foo" []]> ∅))
     = Throw (undefined_value "value").
Proof. split; reflexivity. Qed.

(** The same through a pass: a query file with an anonymous operation
    imports a fragment file, and the projection of the fragment file, which
    looks at the definitions of the query file, rejects the pass. *)
Example pass_fails_on_anonymous_operation :
  exists evs st,
    run_pass compareNodes_by_name sample_resolveFrom fragment_loader cycle_options 9
      (processImportSyntax_start compareNodes_by_name cycle_options query_file ∅ []
         query_store)
    = Some (evs, st)
    /\ typeDefinitions st = [[0]]
    /\ failure st = Some (undefined_value "value").
Proof.
  eexists _, _. split; [vm_compute; reflexivity|]. split; reflexivity.
Qed.

(** ** [uniqBy] *)

Section UniqBy.
Context {A K : Type} (same : K -> K -> bool) (key : A -> K).
Hypothesis same_spec : forall a b, same a b = true <-> a = b.

Lemma existsb_same (k : K) (seen : list K) :
  existsb (same k) seen = true <-> In k seen.
Proof.
  rewrite existsb_exists. split.
  - intros (y & Hy & E). apply same_spec in E. subst. exact Hy.
  - intros H. exists k. split; [exact H | apply same_spec; reflexivity].
Qed.

Lemma existsb_same_ext (k : K) (seen seen' : list K) :
  (forall k', In k' seen <-> In k' seen') ->
  existsb (same k) seen = existsb (same k) seen'.
Proof.
  intros H. apply eq_true_iff_eq. rewrite !existsb_same. apply H.
Qed.

Lemma uniqBy_from_ext (l : list A) : forall seen seen',
  (forall k, In k seen <-> In k seen') ->
  uniqBy_from same key seen l = uniqBy_from same key seen' l.
Proof.
  induction l as [|x l IH]; intros seen seen' H; simpl; [reflexivity|].
  rewrite (existsb_same_ext (key x) seen seen' H).
  destruct (existsb (same (key x)) seen'); [apply IH, H|].
  f_equal. apply IH. intros k. simpl. rewrite H. reflexivity.
Qed.

Lemma uniqBy_from_app (l1 l2 : list A) : forall seen,
  uniqBy_from same key seen (l1 ++ l2)
  = uniqBy_from same key seen l1
    ++ uniqBy_from same key (List.map key l1 ++ seen) l2.
Proof.
  induction l1 as [|x l1 IH]; intros seen; simpl; [reflexivity|].
  destruct (existsb (same (key x)) seen) eqn:E.
  - rewrite IH. f_equal. apply uniqBy_from_ext. intros k.
    apply existsb_same in E. cbn [List.map app In].
    rewrite !in_app_iff. split; [tauto|].
    intros [<-|H]; tauto.
  - rewrite IH. cbn [app]. do 2 f_equal. apply uniqBy_from_ext. intros k.
    cbn [List.map app In]. rewrite !in_app_iff. cbn [In]. tauto.
Qed.

Lemma uniqBy_from_find (k : K) (l : list A) : forall seen,
  ~ In k seen ->
  List.find (fun x => same (key x) k) (uniqBy_from same key seen l)
  = List.find (fun x => same (key x) k) l.
Proof.
  induction l as [|x l IH]; intros seen Hk; simpl; [reflexivity|].
  destruct (existsb (same (key x)) seen) eqn:E.
  - apply existsb_same in E.
    destruct (same (key x) k) eqn:Ek.
    + apply same_spec in Ek. subst. contradiction.
    + apply IH, Hk.
  - simpl. destruct (same (key x) k) eqn:Ek; [reflexivity|].
    apply IH. simpl. intros [H|H]; [|contradiction].
    subst. rewrite (proj2 (same_spec (key x) (key x)) eq_refl) in Ek. discriminate.
Qed.

Lemma uniqBy_from_In (x : A) (l : list A) : forall seen,
  In x (uniqBy_from same key seen l) -> In x l /\ ~ In (key x) seen.
Proof.
  induction l as [|y l IH]; intros seen; simpl; [tauto|].
  destruct (existsb (same (key y)) seen) eqn:E.
  - intros H. destruct (IH _ H). tauto.
  - simpl. intros [->|H].
    + split; [tauto|]. intros Hin. apply existsb_same in Hin. congruence.
    + destruct (IH _ H) as [H1 H2]. simpl in H2. tauto.
Qed.

Lemma uniqBy_from_keys (k : K) (l : list A) : forall seen,
  In k (List.map key (uniqBy_from same key seen l))
  <-> In k (List.map key l) /\ ~ In k seen.
Proof.
  induction l as [|y l IH]; intros seen; simpl; [tauto|].
  destruct (existsb (same (key y)) seen) eqn:E.
  - rewrite IH. apply existsb_same in E. split; [tauto|].
    intros [[<-|H] Hn]; tauto.
  - simpl. rewrite IH. simpl.
    assert (~ In (key y) seen) as Hy.
    { intros Hin. apply existsb_same in Hin. congruence. }
    split.
    + intros [<-|[H1 H2]]; tauto.
    + intros [[<-|H] Hn]; [tauto|].
      destruct (same (key y) k) eqn:Ek.
      * apply same_spec in Ek. tauto.
      * right. split; [exact H|]. intros [E'|Hin]; [|tauto].
        rewrite E', (proj2 (same_spec k k) eq_refl) in Ek. discriminate.
Qed.

Lemma uniqBy_from_NoDup (l : list A) : forall seen,
  NoDup (List.map key (uniqBy_from same key seen l)).
Proof.
  induction l as [|y l IH]; intros seen; simpl; [constructor|].
  destruct (existsb (same (key y)) seen); [apply IH|].
  simpl. constructor; [|apply IH].
  rewrite list_elem_of_In, uniqBy_from_keys. simpl. tauto.
Qed.

Lemma uniqBy_from_seen (l : list A) (seen : list K) :
  (forall x, In x l -> In (key x) seen) ->
  uniqBy_from same key seen l = [].
Proof.
  induction l as [|y l IH]; intros H; simpl; [reflexivity|].
  rewrite (proj2 (existsb_same (key y) seen)) by (apply H; left; reflexivity).
  apply IH. intros x Hx. apply H. right. exact Hx.
Qed.


Lemma uniqBy_twice (l : list A) :
  uniqBy same key (l ++ l) = uniqBy same key l.
Proof.
  unfold uniqBy. rewrite uniqBy_from_app, app_nil_r.
  rewrite (uniqBy_from_seen l (List.map key l)); [apply app_nil_r|].
  intros x Hx. apply in_map, Hx.
Qed.

Lemma uniqBy_snoc (l : list A) (x : A) :
  uniqBy same key (l ++ [x])
  = uniqBy same key l
    ++ (if existsb (same (key x)) (List.map key l) then [] else [x]).
Proof.
  unfold uniqBy. rewrite uniqBy_from_app, app_nil_r. reflexivity.
Qed.
End UniqBy.

Lemma same_key_spec (a b : option string) : same_key a b = true <-> a = b.
Proof.
  destruct a as [x|], b as [y|]; simpl; try (split; congruence).
  rewrite String.eqb_eq. split; congruence.
Qed.

(** ** The merge loop *)

Lemma foldM_app {A S} (f : S -> A -> Result S) (l1 l2 : list A) (s : S) :
  foldM f (l1 ++ l2) s = let* s' := foldM f l1 s in foldM f l2 s'.
Proof.
  revert s. induction l1 as [|x l1 IH]; intros s; simpl; [reflexivity|].
  destruct (f s x) as [s'|e]; simpl; [apply IH | reflexivity].
Qed.

Lemma find_pointwise {A} (p q : A -> bool) (l : list A) :
  (forall x, p x = q x) -> List.find p l = List.find q l.
Proof.
  intros H. induction l as [|x l IH]; simpl; [reflexivity|].
  rewrite H, IH. reflexivity.
Qed.

Lemma has_name_same_key (h : Heap) (v : string) (r : ref) :
  has_name h v r = same_key (name_of h r) (Some v).
Proof. unfold has_name. destruct (name_of h r); reflexivity. Qed.

Lemma find_filter_named (h : Heap) (v : string) (l : list ref) :
  List.find (has_name h v) (List.filter (is_named h) l) = List.find (has_name h v) l.
Proof.
  induction l as [|r l IH]; simpl; [reflexivity|].
  unfold is_named, has_name at 2. destruct (name_of h r) as [w|] eqn:E; simpl.
  - unfold has_name at 1. rewrite E. destruct (String.eqb w v); [reflexivity | exact IH].
  - exact IH.
Qed.

Lemma find_canonicals (h : Heap) (v : string) (l : list ref) :
  List.find (has_name h v) (canonicals h l) = first_named h l v.
Proof.
  unfold canonicals, first_named, uniqBy.
  rewrite <- (find_filter_named h v l).
  rewrite (find_pointwise _ _ _ (has_name_same_key h v)).
  rewrite (find_pointwise _ _ (List.filter (is_named h) l) (has_name_same_key h v)).
  apply (uniqBy_from_find same_key (name_of h) same_key_spec). intros [].
Qed.

Lemma canonicals_named (h : Heap) (l : list ref) (r : ref) :
  In r (canonicals h l) -> In r l /\ is_named h r = true.
Proof.
  unfold canonicals, uniqBy. intros H.
  apply uniqBy_from_In in H as [H _]; [|exact same_key_spec].
  apply filter_In in H. exact H.
Qed.

Lemma canonicals_keys (h : Heap) (l : list ref) (v : string) :
  In (Some v) (List.map (name_of h) (canonicals h l))
  <-> exists r, In r l /\ name_of h r = Some v.
Proof.
  unfold canonicals, uniqBy.
  rewrite (uniqBy_from_keys same_key (name_of h) same_key_spec).
  rewrite in_map_iff. split.
  - intros [(r & E & Hr) _]. apply filter_In in Hr as [Hr _]. eauto.
  - intros (r & Hr & E). split; [|intros []]. exists r. split; [exact E|].
    apply filter_In. split; [exact Hr|]. unfold is_named. rewrite E. reflexivity.
Qed.

Lemma canonicals_snoc (h : Heap) (l : list ref) (t : ref) :
  canonicals h (l ++ [t])
  = match name_of h t with
    | Some v =>
        if existsb (same_key (Some v)) (List.map (name_of h) (List.filter (is_named h) l))
        then canonicals h l else canonicals h l ++ [t]
    | None => canonicals h l
    end.
Proof.
  unfold canonicals. rewrite List.filter_app. simpl. unfold is_named at 2.
  destruct (name_of h t) as [v|] eqn:E.
  - rewrite (uniqBy_snoc same_key (name_of h) same_key_spec), E.
    destruct (existsb _ _); [apply app_nil_r | reflexivity].
  - rewrite app_nil_r. reflexivity.
Qed.

Section MergeLoop.
Variable compareNodes : FieldNode -> FieldNode -> Z.
Variable sort : bool.
Variable h : Heap.

Lemma inv_name_of pre st r :
  merge_inv h pre st -> name_of (merge_heap st) r = name_of h r.
Proof.
  intros I. pose proof (inv_heap h pre st I r) as H. unfold name_of.
  destruct (merge_heap st !! r), (h !! r); simpl in H; try congruence.
  injection H as ->. reflexivity.
Qed.

Lemma inv_includes pre st v :
  merge_inv h pre st ->
  includes (processedTypeNames st) v = true
  <-> exists r, In r pre /\ name_of h r = Some v.
Proof.
  intros I. rewrite includes_In, <- canonicals_keys.
  rewrite <- (inv_merged h pre st I), <- (inv_names h pre st I).
  rewrite in_map_iff. split.
  - intros H. exists v. split; [reflexivity | exact H].
  - intros (w & E & H). congruence.
Qed.

Lemma inv_find pre st v :
  merge_inv h pre st ->
  findM (fun t => let* e := deref (merge_heap st) t in
                  let* n := name_value e in
                  Ok (String.eqb n v))
        (mergedFirstTypes st)
  = Ok (first_named h pre v).
Proof.
  intros I. rewrite <- find_canonicals, <- (inv_merged h pre st I).
  apply findM_pure. intros r Hr.
  rewrite (inv_merged h pre st I) in Hr. apply canonicals_named in Hr as [_ Hn].
  unfold is_named in Hn. rewrite <- (inv_name_of pre st r I) in Hn.
  unfold has_name. rewrite <- (inv_name_of pre st r I).
  unfold name_of in *. unfold deref.
  destruct (merge_heap st !! r) as [e|]; [|discriminate]. simpl.
  unfold name_value. destruct (name e); try discriminate. reflexivity.
Qed.

Lemma first_named_Some_iff pre v :
  (exists r, In r pre /\ name_of h r = Some v)
  <-> exists c, first_named h pre v = Some c.
Proof.
  unfold first_named. split.
  - intros (r & Hr & E).
    destruct (List.find (has_name h v) pre) as [c|] eqn:F; [eauto|].
    exfalso. pose proof (find_none _ _ F r Hr) as H.
    unfold has_name in H. rewrite E, String.eqb_refl in H. discriminate.
  - intros (c & F). apply find_some in F as [Hc Hn]. exists c. split; [exact Hc|].
    unfold has_name in Hn. destruct (name_of h c) as [w|]; [|discriminate].
    apply String.eqb_eq in Hn. congruence.
Qed.

(** What one round does on a candidate whose node carries the name [v]. *)
Lemma merge_step_named pre st t d v :
  merge_inv h pre st ->
  merge_heap st !! t = Some d -> name d = Name v ->
  match first_named h pre v with
  | None =>
      merge_step compareNodes sort st (Some t)
      = Ok {| processedTypeNames := processedTypeNames st ++ [v];
              mergedFirstTypes := mergedFirstTypes st ++ [t];
              merge_heap := merge_heap st |}
  | Some c =>
      exists e, merge_heap st !! c = Some e /\ name e = Name v /\
        match fields e with
        | None => merge_step compareNodes sort st (Some t) = Ok st
        | Some ef =>
            merge_step compareNodes sort st (Some t)
            = Ok {| processedTypeNames := processedTypeNames st;
                    mergedFirstTypes := mergedFirstTypes st;
                    merge_heap :=
                      <[c := with_fields e
                               (if sort
                                then array_sort compareNodes
                                       (uniqByName (concat_fields ef (fields d)))
                                else uniqByName (concat_fields ef (fields d)))]>
                        (merge_heap st) |}
        end
  end.
Proof.
  intros I Hd Hv.
  assert (deref (merge_heap st) t = Ok d) as Hderef
    by (unfold deref; rewrite Hd; reflexivity).
  unfold merge_step. rewrite Hderef. cbn [bind]. rewrite Hv.
  destruct (first_named h pre v) as [c|] eqn:F.
  - assert (includes (processedTypeNames st) v = true) as ->.
    { apply (inv_includes pre st v I), first_named_Some_iff. eauto. }
    cbn [negb]. rewrite (inv_find pre st v I), F. cbn [bind].
    apply find_some in F as [Hc Hn].
    rewrite has_name_same_key, <- (inv_name_of pre st c I) in Hn.
    unfold name_of in Hn. unfold deref.
    destruct (merge_heap st !! c) as [e|] eqn:He; [|discriminate].
    exists e. split; [reflexivity|]. cbn [bind].
    assert (name e = Name v) as Hne.
    { destruct (name e) as [| |w]; try discriminate.
      simpl in Hn. apply String.eqb_eq in Hn. congruence. }
    split; [exact Hne|].
    destruct (fields e); reflexivity.
  - assert (includes (processedTypeNames st) v = false) as ->.
    { apply not_true_is_false. intros H.
      apply (inv_includes pre st v I), first_named_Some_iff in H as [c H].
      congruence. }
    reflexivity.
Qed.

Lemma merge_step_inv pre st t :
  merge_inv h pre st -> defined_name h t = true ->
  exists st', merge_step compareNodes sort st (Some t) = Ok st'
              /\ merge_inv h (pre ++ [t]) st'.
Proof.
  intros I Ht. unfold defined_name in Ht.
  destruct (h !! t) as [d0|] eqn:Hd0; [|discriminate].
  pose proof (inv_heap h pre st I t) as Hname. rewrite Hd0 in Hname.
  destruct (merge_heap st !! t) as [d|] eqn:Hd; [|discriminate].
  simpl in Hname. injection Hname as Hname.
  assert (name_of h t = match name d with Name v => Some v | _ => None end) as Hnt.
  { unfold name_of. rewrite Hd0, Hname. reflexivity. }
  destruct (name d) as [| |v] eqn:Hv.
  - exists st. split.
    + unfold merge_step, deref. rewrite Hd. cbn [bind]. rewrite Hv. reflexivity.
    + destruct I as [I1 I2 I3]. split; [|exact I2|exact I3].
      rewrite canonicals_snoc, Hnt. exact I1.
  - rewrite <- Hname in Ht. discriminate.
  - pose proof (merge_step_named pre st t d v I Hd Hv) as Hstep.
    assert (existsb (same_key (Some v))
              (List.map (name_of h) (List.filter (is_named h) pre))
            = match first_named h pre v with Some _ => true | None => false end) as Hex.
    { apply eq_true_iff_eq.
      rewrite (existsb_same same_key same_key_spec), in_map_iff.
      split.
      - intros (r & E & Hr). apply filter_In in Hr as [Hr _].
        destruct (proj1 (first_named_Some_iff pre v)) as [c ->]; eauto.
      - destruct (first_named h pre v) as [c|] eqn:F; [|discriminate].
        intros _. destruct (proj2 (first_named_Some_iff pre v)) as (r & Hr & E); [eauto|].
        exists r. split; [exact E|]. apply filter_In. split; [exact Hr|].
        unfold is_named. rewrite E. reflexivity. }
    destruct (first_named h pre v) as [c|] eqn:F.
    + destruct Hstep as (e & He & Hne & Hstep).
      destruct (fields e) as [ef|].
      * eexists. split; [exact Hstep|].
        destruct I as [I1 I2 I3]. split; cbn.
        -- rewrite canonicals_snoc, Hnt, Hex. exact I1.
        -- exact I2.
        -- intros r. destruct (decide (r = c)) as [->|Hr].
           ++ rewrite lookup_insert_eq. rewrite <- I3, He. reflexivity.
           ++ rewrite lookup_insert_ne by congruence. apply I3.
      * exists st. split; [exact Hstep|].
        destruct I as [I1 I2 I3]. split; [|exact I2|exact I3].
        rewrite canonicals_snoc, Hnt, Hex. exact I1.
    + eexists. split; [exact Hstep|].
      destruct I as [I1 I2 I3]. split; cbn.
      * rewrite canonicals_snoc, Hnt, Hex, I1. reflexivity.
      * rewrite !map_app, I2. cbn. rewrite Hnt. reflexivity.
      * exact I3.
Qed.

Lemma merge_loop_inv (pre : list ref) :
  forallb (defined_name h) pre = true ->
  exists st, merge_loop compareNodes sort (List.map Some pre) h = Ok st
             /\ merge_inv h pre st.
Proof.
  induction pre as [|t pre IH] using rev_ind; intros Hpre.
  - eexists. split; [reflexivity|]. split; cbn; reflexivity.
  - rewrite forallb_app in Hpre. apply andb_true_iff in Hpre as [Hpre Ht].
    cbn in Ht. rewrite andb_true_r in Ht.
    destruct (IH Hpre) as (st & Hrun & I).
    destruct (merge_step_inv pre st t I Ht) as (st' & Hstep & I').
    exists st'. split; [|exact I'].
    unfold merge_loop in *. rewrite map_app, foldM_app, Hrun.
    cbn [bind List.map foldM]. rewrite Hstep. reflexivity.
Qed.
End MergeLoop.

(** ** Sorting *)

Section SortFacts.
Context {A : Type} (cmp : A -> A -> Z).

Lemma sort_insert_perm (x : A) (l : list A) :
  Permutation (sort_insert cmp x l) (x :: l).
Proof.
  induction l as [|y l IH]; simpl; [reflexivity|].
  destruct (cmp x y <=? 0)%Z; [reflexivity|].
  rewrite IH. apply perm_swap.
Qed.

Lemma stable_sort_perm (l : list A) : Permutation (stable_sort cmp l) l.
Proof.
  induction l as [|x l IH]; simpl; [reflexivity|].
  rewrite sort_insert_perm, IH. reflexivity.
Qed.

Lemma holes_apart (l : list (option A)) :
  Permutation (List.map Some (omap id l) ++ List.filter is_hole l) l.
Proof.
  induction l as [|[x|] l IH]; simpl; [reflexivity| |].
  - apply perm_skip, IH.
  - rewrite <- Permutation_middle. apply perm_skip, IH.
Qed.

Lemma array_sort_perm (l : list (option A)) :
  Permutation (array_sort cmp l) l.
Proof.
  unfold array_sort. rewrite <- (holes_apart l) at 3.
  apply Permutation_app_tail, Permutation_map, stable_sort_perm.
Qed.

(** With a comparator that orders any two elements one way or the other,
    the sorted part is in order. *)
Hypothesis cmp_total : forall a b, (cmp a b <= 0)%Z \/ (cmp b a <= 0)%Z.

Lemma sort_insert_sorted (x : A) (l : list A) :
  Sorted (fun a b => (cmp a b <= 0)%Z) l ->
  Sorted (fun a b => (cmp a b <= 0)%Z) (sort_insert cmp x l).
Proof.
  induction 1 as [|y l Hl IH Hhd]; simpl.
  - repeat constructor.
  - destruct (Z.leb_spec (cmp x y) 0) as [Hle|Hgt].
    + constructor; [constructor; assumption | constructor; exact Hle].
    + constructor; [exact IH|].
      destruct l as [|z l]; simpl.
      * constructor. destruct (cmp_total y x); [assumption | lia].
      * destruct (cmp x z <=? 0)%Z.
        -- constructor. destruct (cmp_total y x); [assumption | lia].
        -- inversion Hhd; subst. constructor. assumption.
Qed.

Lemma stable_sort_sorted (l : list A) :
  Sorted (fun a b => (cmp a b <= 0)%Z) (stable_sort cmp l).
Proof.
  induction l as [|x l IH]; simpl; [constructor|].
  apply sort_insert_sorted, IH.
Qed.
End SortFacts.

(** ** The cross-file merger *)


Lemma uniqByName_NoDup (l : list FieldSlot) :
  NoDup (List.map slot_name (uniqByName l)).
Proof. apply (uniqBy_from_NoDup same_key slot_name same_key_spec). Qed.

Lemma uniqByName_names (l : list FieldSlot) (k : option string) :
  In k (List.map slot_name (uniqByName l)) <-> In k (List.map slot_name l).
Proof.
  unfold uniqByName, uniqBy.
  rewrite (uniqBy_from_keys same_key slot_name same_key_spec). simpl. tauto.
Qed.

Lemma canonicals_twice (h : Heap) (l : list ref) :
  canonicals h (l ++ l) = canonicals h l.
Proof.
  unfold canonicals. rewrite List.filter_app.
  apply (uniqBy_twice same_key (name_of h) same_key_spec).
Qed.

Lemma firstSet_cons (secondFirstTypes : list ref) (others : list (list ref)) :
  firstSet (secondFirstTypes :: others)
  = List.map Some (flatten (secondFirstTypes :: others)
                   ++ secondFirstTypes ++ flatten others).
Proof. unfold firstSet. rewrite !map_app. reflexivity. Qed.



(** The entry document defines Foo with the field x, a second document
    defines it with y: the canonical Foo, the one of the entry document,
    ends with x and y, and the second Foo stays as it was. *)
Example merge_two_documents :
  exists st,
    mergeFirstTypes compareNodes_by_name true [[0; 1]; [3]] two_documents = Ok st
    /\ merge_heap st !! 1
       = Some (object_type "Foo" [sample_field "x" "Int"; sample_field "y" "Int"])
    /\ merge_heap st !! 3 = Some (object_type "Foo" [sample_field "y" "Int"]).
Proof. eexists. split; [reflexivity|]. split; reflexivity. Qed.

(** ** Two copies among other candidates *)


Section CopiesAmongOthers.
Variable compareNodes : FieldNode -> FieldNode -> Z.
Variable sort : bool.
Variable h : Heap.
Variable v : string.




End CopiesAmongOthers.



(** ** The directive extractor *)

Lemma replace_first_marker (l : string) :
  is_import_comment l = true -> replace_first "#" l = strip_marker l.
Proof.
  unfold is_import_comment, startsWith. intros H.
  destruct l as [|c l]; [reflexivity|]. simpl.
  destruct (Ascii.eqb_spec c "#") as [->|Hc]; [reflexivity|].
  exfalso. cbn [String.prefix] in H.
  destruct (ascii_dec "#" c) as [E|_]; [congruence | discriminate H].
Qed.

Lemma parseSDL_lines (lines : list string) :
  mapM parseImportLine
    (List.map (fun l => trim (replace_first "#" l))
       (List.filter is_import_comment (List.map trim lines)))
  = extract_directives lines.
Proof.
  induction lines as [|l lines IH]; [reflexivity|].
  cbn [List.map List.filter extract_directives].
  change (startsWith (trim l) "# import " || startsWith (trim l) "#import ")
    with (is_import_comment (trim l)).
  destruct (is_import_comment (trim l)) eqn:E; [|exact IH].
  cbn [List.map mapM]. rewrite (replace_first_marker _ E), IH. reflexivity.
Qed.




(** The records come in the order of the lines. *)
Example parseSDL_in_source_order :
  parseSDL ("# import A from 'x.graphql'" +:+ String newline
            "type Q { a: A }" +:+ String newline
            "   #import B.c, D from 'y.graphql';  ")
  = Ok [ {| imports := ["A"]; from := "x.graphql" |};
         {| imports := ["B.c"; "D"]; from := "y.graphql" |} ].
Proof. reflexivity. Qed.

(** ** The path resolver *)

(** C5.  With [fs] and [path] in the options, and a schema-file extension
    on both the resolved path of the importing file and the [from] string,
    the resolver gives the real path of the target in the directory of the
    importing file; when that target does not exist it gives what the module
    resolution gives, and on any other failure the [from] string.  Without
    one of the two extensions, or without [fs] or [path] in the options, it
    gives the [from] string unchanged. *)
Theorem path_resolver_policy (resolveFrom : string -> string -> Result string)
    (options : LoadTypedefsOptions) (filePath importFrom : string) :
  (forall store pm,
     fs options = Some store -> path options = Some pm ->
     let fullPath := path_resolve pm (cwd options) filePath in
     let dirName := path_dirname pm fullPath in
     let target := path_join pm dirName importFrom in
     (isGraphQLFile fullPath = true -> isGraphQLFile importFrom = true ->
      (forall data, fs_realpath store target = Ok data ->
         resolveModuleFilePath resolveFrom options filePath importFrom = Ok data)
      /\ (forall e, fs_realpath store target = Throw e ->
            error_code e = Some "ENOENT" ->
            resolveModuleFilePath resolveFrom options filePath importFrom
            = resolveFrom dirName importFrom)
      /\ (forall e, fs_realpath store target = Throw e ->
            error_code e <> Some "ENOENT" ->
            resolveModuleFilePath resolveFrom options filePath importFrom
            = Ok importFrom))
     /\ (isGraphQLFile fullPath && isGraphQLFile importFrom = false ->
         resolveModuleFilePath resolveFrom options filePath importFrom
         = Ok importFrom))
  /\ (fs options = None \/ path options = None ->
      resolveModuleFilePath resolveFrom options filePath importFrom = Ok importFrom).
Proof.
  unfold resolveModuleFilePath. split.
  - intros store pm Hfs Hpath. cbv zeta. rewrite Hfs, Hpath. split.
    + intros Hfull Hfrom. rewrite Hfull, Hfrom. cbn [andb]. split; [|split].
      * intros data Hreal. rewrite Hreal. reflexivity.
      * intros e Hreal He. rewrite Hreal, He. reflexivity.
      * intros e Hreal He. rewrite Hreal.
        destruct (error_code e) as [c|]; [|reflexivity]. cbn [strict_eq].
        destruct (String.eqb_spec c "ENOENT") as [->|_]; [congruence | reflexivity].
    + intros Hext. rewrite Hext. reflexivity.
  - intros [Hfs | Hpath]; [rewrite Hfs; reflexivity|].
    rewrite Hpath. destruct (fs options); reflexivity.
Qed.

Lemma path_resolver_policy_witness :
  let options := {| sort := false; cwd := "/proj";
                    fs := Some sample_store; path := Some sample_path |} in
  resolveModuleFilePath sample_resolveFrom options "schemas/a.graphql" "b.graphql"
  = Ok "/proj/schemas/b.graphql"
  /\ resolveModuleFilePath sample_resolveFrom options "schemas/a.graphql"
       "pkg/schema.graphql"
     = Ok "/proj/node_modules/pkg/schema.graphql"
  /\ resolveModuleFilePath sample_resolveFrom options "schemas/a.graphql" "some-module"
     = Ok "some-module".
Proof.
  intros options.
  destruct (path_resolver_policy sample_resolveFrom options "schemas/a.graphql"
              "b.graphql") as [H1 _].
  destruct (path_resolver_policy sample_resolveFrom options "schemas/a.graphql"
              "pkg/schema.graphql") as [H2 _].
  destruct (path_resolver_policy sample_resolveFrom options "schemas/a.graphql"
              "some-module") as [H3 _].
  specialize (H1 sample_store sample_path eq_refl eq_refl) as [H1 _].
  specialize (H2 sample_store sample_path eq_refl eq_refl) as [H2 _].
  specialize (H3 sample_store sample_path eq_refl eq_refl) as [_ H3].
  split; [|split].
  - apply (proj1 (H1 eq_refl eq_refl)). reflexivity.
  - refine (eq_trans (proj1 (proj2 (H2 eq_refl eq_refl)) (HostError "ENOENT") _ _) _);
      reflexivity.
  - apply H3. reflexivity.
Defined.

(** The rule as the spec words it, with the store and the path library of
    the host behind whatever the options carry: the resolver would return
    the relative resolution whenever both endpoints have the extension.
    Options without [fs] refute it: the target exists next to the importing
    file and the resolver still returns the [from] string. *)
Lemma resolver_without_fs :
  ~ (forall (resolveFrom : string -> string -> Result string)
            (store : FsModule) (pm : PathModule)
            (options : LoadTypedefsOptions) (filePath importFrom : string),
       (forall f, fs options = Some f -> f = store) ->
       (forall p, path options = Some p -> p = pm) ->
       isGraphQLFile filePath = true -> isGraphQLFile importFrom = true ->
       resolveModuleFilePath resolveFrom options filePath importFrom
       = resolve_relative resolveFrom store pm (cwd options) filePath importFrom).
Proof.
  intros H.
  specialize (H sample_resolveFrom sample_store sample_path
                {| sort := false; cwd := "/proj"; fs := None; path := Some sample_path |}
                "/proj/schemas/a.graphql" "b.graphql").
  cbn in H. discriminate H; try reflexivity.
  - intros f Hf. discriminate Hf.
  - intros p Hp. injection Hp as <-. reflexivity.
Qed.

(** ** Strings *)

Lemma append_nil_l (s : string) : "" +:+ s = s.
Proof. reflexivity. Qed.

Lemma append_cons (c : ascii) (a b : string) :
  String c a +:+ b = String c (a +:+ b).
Proof. reflexivity. Qed.

Ltac norm_append := rewrite ?append_cons, ?append_nil_l.

Lemma append_nil_r (s : string) : s +:+ "" = s.
Proof.
  induction s as [|c s IH]; norm_append; [reflexivity | rewrite IH; reflexivity].
Qed.

Lemma append_assoc (a b c : string) : (a +:+ b) +:+ c = a +:+ (b +:+ c).
Proof.
  induction a as [|x a IH]; norm_append; [reflexivity | rewrite IH; reflexivity].
Qed.

Lemma length_append (a b : string) :
  String.length (a +:+ b) = String.length a + String.length b.
Proof.
  induction a as [|x a IH]; norm_append; simpl; [reflexivity | rewrite IH; reflexivity].
Qed.



Lemma strip_prefix_Some (p s s' : string) :
  strip_prefix p s = Some s' -> s = p +:+ s'.
Proof.
  revert s. induction p as [|c p IH]; intros s H; norm_append; simpl in *.
  - destruct s; injection H as <-; reflexivity.
  - destruct s as [|d s]; [discriminate|].
    destruct (Ascii.eqb_spec c d) as [->|_]; [|discriminate].
    rewrite (IH s H). reflexivity.
Qed.

Lemma substring_prefix (a s : string) :
  String.substring 0 (String.length a) (a +:+ s) = a.
Proof.
  induction a as [|c a IH]; norm_append; simpl.
  - destruct s; reflexivity.
  - rewrite IH. reflexivity.
Qed.

Lemma consumed_append (a s : string) : consumed (a +:+ s) s = a.
Proof.
  unfold consumed. rewrite length_append.
  replace (String.length a + String.length s - String.length s)
    with (String.length a) by lia.
  apply substring_prefix.
Qed.

(** ** The matcher and the patterns *)

Lemma star_sound (p : ascii -> bool) (k : string -> option Captures) (s : string)
    (res : Captures) :
  star p s k = Some res ->
  exists a rest, s = a +:+ rest /\ all_chars p a = true /\ k rest = Some res.
Proof.
  induction s as [|c s IH]; simpl; intros H.
  - exists "", "". auto.
  - destruct (p c) eqn:Hc.
    + destruct (star p s k) as [res'|] eqn:Hs.
      * injection H as <-. destruct (IH eq_refl) as (a & rest & -> & Ha & Hk).
        exists (String c a), rest. simpl. rewrite Hc, Ha. auto.
      * exists "", (String c s). auto.
    + exists "", (String c s). auto.
Qed.


Lemma run_sound (r : regex) : forall s caps k res,
  run r s caps k = Some res ->
  exists a rest caps',
    s = a +:+ rest /\ Match r a rest caps caps' /\ k rest caps' = Some res.
Proof.
  induction r as [lit|p|p|p|r1 IH1 r2 IH2|r1 IH1 r2 IH2|r1 IH1|i r1 IH1|];
    intros s caps k res H; cbn [run] in H.
  - destruct (strip_prefix lit s) as [s'|] eqn:E; [|discriminate].
    apply strip_prefix_Some in E. exists lit, s', caps.
    split; [exact E|]. split; [constructor | exact H].
  - destruct s as [|c s]; [discriminate|].
    destruct (p c) eqn:Hc; [|discriminate].
    exists (String c ""), s, caps. split; [reflexivity|].
    split; [constructor; exact Hc | exact H].
  - apply star_sound in H as (a & rest & -> & Ha & Hk).
    exists a, rest, caps. split; [reflexivity|].
    split; [constructor; exact Ha | exact Hk].
  - destruct s as [|c s]; [discriminate|].
    destruct (p c) eqn:Hc; [|discriminate].
    apply star_sound in H as (a & rest & -> & Ha & Hk).
    exists (String c a), rest, caps. split; [reflexivity|].
    split; [constructor; assumption | exact Hk].
  - apply IH1 in H as (a1 & rest1 & caps1 & -> & M1 & H).
    apply IH2 in H as (a2 & rest & caps2 & -> & M2 & H).
    exists (a1 +:+ a2), rest, caps2. split; [symmetry; apply append_assoc|].
    split; [econstructor; eassumption | exact H].
  - destruct (run r1 s caps k) as [res1|] eqn:E1.
    + injection H as <-. apply IH1 in E1 as (a & rest & caps' & -> & M & Hk).
      exists a, rest, caps'. split; [reflexivity|].
      split; [apply Match_Alt_left; exact M | exact Hk].
    + apply IH2 in H as (a & rest & caps' & -> & M & Hk).
      exists a, rest, caps'. split; [reflexivity|].
      split; [apply Match_Alt_right; exact M | exact Hk].
  - destruct (run r1 s caps k) as [res1|] eqn:E1.
    + injection H as <-. apply IH1 in E1 as (a & rest & caps' & -> & M & Hk).
      exists a, rest, caps'. split; [reflexivity|].
      split; [apply Match_Opt_some; exact M | exact Hk].
    + exists "", s, caps. split; [reflexivity|].
      split; [apply Match_Opt_none | exact H].
  - apply IH1 in H as (a & rest & caps' & -> & M & Hk).
    rewrite consumed_append in Hk.
    exists a, rest, (<[i := Some a]> caps'). split; [reflexivity|].
    split; [constructor; exact M | exact Hk].
  - destruct s; [|discriminate].
    exists "", "", caps. split; [reflexivity|]. split; [constructor | exact H].
Qed.


Lemma exec_sound (n : nat) (r : regex) (s : string) (matches : Captures) :
  exec n r s = Some matches ->
  exists a rest caps',
    s = a +:+ rest /\ Match r a rest (replicate (S n) None) caps'
    /\ matches = <[0 := Some a]> caps'.
Proof.
  unfold exec. intros H.
  apply run_sound in H as (a & rest & caps' & -> & M & Hk).
  rewrite consumed_append in Hk. injection Hk as <-.
  exists a, rest, caps'. auto.
Qed.


(** ** Splitting and trimming *)


Lemma split_not_nil (sep : ascii) (s : string) : split sep s <> [].
Proof.
  destruct s as [|c s]; simpl; [discriminate|].
  destruct (Ascii.eqb c sep); [discriminate|].
  destruct (split sep s); discriminate.
Qed.

Lemma split_prepend (sep : ascii) (a x : string) :
  all_chars (fun c => negb (Ascii.eqb c sep)) a = true ->
  split sep (a +:+ x) = on_first (fun p => a +:+ p) (split sep x).
Proof.
  induction a as [|c a IH]; norm_append; intros Ha.
  - destruct (split sep x); reflexivity.
  - simpl in Ha. apply andb_true_iff in Ha as [Hc Ha]. simpl.
    apply negb_true_iff in Hc. rewrite Hc, (IH Ha).
    pose proof (split_not_nil sep x) as Hx.
    destruct (split sep x); [contradiction | reflexivity].
Qed.












(** ** Cutting a line at a character *)







(** ** The import patterns *)

Ltac invert_match :=
  repeat match goal with
         | H : Match (Seq _ _) _ _ _ _ |- _ => inversion H; subst; clear H
         | H : Match (Chars _) _ _ _ _ |- _ => inversion H; subst; clear H
         | H : Match (Class _) _ _ _ _ |- _ => inversion H; subst; clear H
         | H : Match (Star _) _ _ _ _ |- _ => inversion H; subst; clear H
         | H : Match (Plus _) _ _ _ _ |- _ => inversion H; subst; clear H
         | H : Match (Alt _ _) _ _ _ _ |- _ => inversion H; subst; clear H
         | H : Match (Opt _) _ _ _ _ |- _ => inversion H; subst; clear H
         | H : Match (Group _ _) _ _ _ _ |- _ => inversion H; subst; clear H
         | H : Match Eol _ _ _ _ |- _ => inversion H; subst; clear H
         end.

Lemma blank_cons (c : ascii) (s : string) :
  is_whitespace c = true -> all_chars is_whitespace s = true -> blank (String c s).
Proof.
  intros Hc Hs. split; [discriminate|]. simpl. rewrite Hc, Hs. reflexivity.
Qed.

Lemma from_regex_sound (line : string) (matches : Captures) :
  exec 5 IMPORT_FROM_REGEX line = Some matches ->
  exists ws1 g1 g2 ws2 ws3 q1 g4 q2 semi,
    line = "import" +:+ ws1 +:+ g1 +:+ ws2 +:+ "from" +:+ ws3
           +:+ String q1 "" +:+ g4 +:+ String q2 "" +:+ semi
    /\ blank ws1 /\ blank ws2 /\ blank ws3
    /\ is_quote q1 = true /\ is_quote q2 = true
    /\ all_chars dot g4 = true
    /\ semicolon_or_nothing semi
    /\ ((g1 = "*" /\ g2 = None) \/ g2 = Some g1)
    /\ matches = [Some line; Some g1; g2; Some (String q1 ""); Some g4;
                  Some (String q2 "")].
Proof.
  intros H. apply exec_sound in H as (a & rest & caps' & -> & M & ->).
  unfold IMPORT_FROM_REGEX, quote in M. cbn [seq_of] in M.
  invert_match.
  all: cbn [replicate]; rewrite ?append_nil_r.
  all: do 9 eexists; split; [reflexivity|].
  all: repeat match goal with
              | |- _ /\ _ => split
              | |- blank (String _ _) => apply blank_cons; assumption
              end; try assumption; try reflexivity.
  all: try (left; reflexivity); try (right; reflexivity).
  all: try (left; split; reflexivity).
Qed.

Lemma default_regex_sound (line : string) (matches : Captures) :
  exec 3 IMPORT_DEFAULT_REGEX line = Some matches ->
  exists ws1 q1 g2 q2 semi,
    line = "import" +:+ ws1 +:+ String q1 "" +:+ g2 +:+ String q2 "" +:+ semi
    /\ blank ws1
    /\ is_quote q1 = true /\ is_quote q2 = true
    /\ all_chars dot g2 = true
    /\ semicolon_or_nothing semi
    /\ matches = [Some line; Some (String q1 ""); Some g2; Some (String q2 "")].
Proof.
  intros H. apply exec_sound in H as (a & rest & caps' & -> & M & ->).
  unfold IMPORT_DEFAULT_REGEX, quote in M. cbn [seq_of] in M.
  invert_match.
  all: cbn [replicate]; rewrite ?append_nil_r.
  all: do 5 eexists; split; [reflexivity|].
  all: repeat match goal with
              | |- _ /\ _ => split
              | |- blank (String _ _) => apply blank_cons; assumption
              end; try assumption; try reflexivity.
  all: try (left; reflexivity); try (right; reflexivity).
Qed.

























(** ** Lines outside the grammar of the spec *)




(** ** The traversal *)

Lemma isEqual_eq (a b : RawModule) : isEqual a b = true <-> a = b.
Proof. unfold isEqual. apply bool_decide_eq_true. Qed.

Lemma already_processed_app (l : list RawModule) (m m' : RawModule) :
  already_processed (Some (l ++ [m])) m'
  = already_processed (Some l) m' || isEqual m m'.
Proof. simpl. rewrite existsb_app. simpl. rewrite orb_false_r. reflexivity. Qed.

Lemma processed_in_mark (processed : gmap string (list RawModule))
    (p : string) (m : RawModule) (pm : string * RawModule) :
  processed_in
    (<[p := match processed !! p with
            | Some l => l ++ [m]
            | None => [m]
            end]> processed) pm
  = processed_in processed pm || (String.eqb p (fst pm) && isEqual m (snd pm)).
Proof.
  destruct pm as [p' m']. unfold processed_in. cbn [fst snd].
  destruct (String.eqb_spec p p') as [<-|Hne].
  - rewrite lookup_insert_eq. destruct (processed !! p) as [l|].
    + apply already_processed_app.
    + simpl. rewrite orb_false_r. reflexivity.
  - rewrite lookup_insert_ne by exact Hne. rewrite andb_false_l, orb_false_r.
    reflexivity.
Qed.

Lemma filter_length_le {A} (f g : A -> bool) (l : list A) :
  (forall x, g x = true -> f x = true) ->
  length (List.filter g l) <= length (List.filter f l).
Proof.
  intros Hgf. induction l as [|x l IH]; simpl; [lia|].
  destruct (g x) eqn:Hg.
  - rewrite (Hgf x Hg). simpl. lia.
  - destruct (f x); simpl; lia.
Qed.

Lemma filter_length_lt {A} (f g : A -> bool) (l : list A) (x : A) :
  (forall y, g y = true -> f y = true) ->
  In x l -> f x = true -> g x = false ->
  length (List.filter g l) < length (List.filter f l).
Proof.
  intros Hgf. induction l as [|y l IH]; simpl; [tauto|].
  intros [->|Hin] Hf Hg.
  - rewrite Hf, Hg. simpl. pose proof (filter_length_le f g l Hgf). lia.
  - specialize (IH Hin Hf Hg). destruct (g y) eqn:Hgy.
    + rewrite (Hgf y Hgy). simpl. lia.
    + destruct (f y); simpl; lia.
Qed.

Lemma loadings_app (a b : list Task) : loadings (a ++ b) = loadings a ++ loadings b.
Proof. apply omap_app. Qed.

Lemma resolvings_app (a b : list Task) :
  resolvings (a ++ b) = resolvings a ++ resolvings b.
Proof. apply omap_app. Qed.

Lemma loadings_resolving (importer : string) (ms : list RawModule) :
  loadings (List.map (Resolving importer) ms) = [].
Proof. induction ms as [|m ms IH]; [reflexivity | exact IH]. Qed.

Lemma resolvings_resolving (importer : string) (ms : list RawModule) :
  resolvings (List.map (Resolving importer) ms) = List.map (pair importer) ms.
Proof.
  induction ms as [|m ms IH]; [reflexivity|].
  cbn. unfold resolvings in IH. rewrite IH. reflexivity.
Qed.


Section TraversalFacts.
Variable compareNodes : FieldNode -> FieldNode -> Z.
Variable resolveFrom : string -> string -> Result string.
Variable loadSingleFile : string -> Heap -> Result (Source * Heap).
Variable options : LoadTypedefsOptions.

Local Abbreviation pass_step := (step compareNodes resolveFrom loadSingleFile options).
Local Abbreviation pass_steps := (steps compareNodes resolveFrom loadSingleFile options).
Local Abbreviation pass_resume := (resume compareNodes resolveFrom loadSingleFile options).
Local Abbreviation enter := (collectDefinitions compareNodes options).

(** Entering a document adds callbacks that wait for a path, one for each
    import of its text, and one document to [allDefinitions]. *)
Lemma collectDefinitions_shape (selectors : list string) (src : Source) (st : Pass) :
  exists new,
    pending (enter selectors src st)
    = pending st ++ List.map (Resolving (location src)) new
    /\ (new = [] \/ parseSDL (rawSDL src) = Ok new)
    /\ processedFiles (enter selectors src st) = processedFiles st
    /\ allDefinitions (enter selectors src st) = allDefinitions st ++ [document src].
Proof.
  unfold collectDefinitions.
  destruct (filterImportedDefinitions _ _ _ _ _ _) as [[current h']|e].
  - destruct (parseSDL (rawSDL src)) as [rawModules|e] eqn:Hparse.
    + exists rawModules. cbn. auto.
    + exists []. cbn. rewrite app_nil_r. auto.
  - exists []. cbn. rewrite app_nil_r. auto.
Qed.

Lemma resume_resolving (importer : string) (m : RawModule) (st : Pass) :
  (exists e,
     resolveModuleFilePath resolveFrom options importer (from m) = Throw e
     /\ pass_resume (Resolving importer m) st
        = (Failed (Resolving importer m) e, reject e st))
  \/ (exists p,
        resolveModuleFilePath resolveFrom options importer (from m) = Ok p
        /\ processed_in (processedFiles st) (p, m) = true
        /\ pass_resume (Resolving importer m) st = (Skipped p m, st))
  \/ (exists p,
        resolveModuleFilePath resolveFrom options importer (from m) = Ok p
        /\ processed_in (processedFiles st) (p, m) = false
        /\ pass_resume (Resolving importer m) st
           = (Marked p m,
              {| pending := pending st ++ [Loading p m];
                 processedFiles :=
                   <[p := match processedFiles st !! p with
                          | Some l => l ++ [m]
                          | None => [m]
                          end]> (processedFiles st);
                 typeDefinitions := typeDefinitions st;
                 allDefinitions := allDefinitions st;
                 heap := heap st;
                 failure := failure st |})).
Proof.
  unfold resume, processed_in. cbn [fst snd].
  destruct (resolveModuleFilePath _ _ _ _) as [p|e].
  - destruct (already_processed _ m) eqn:E.
    + right. left. exists p. auto.
    + right. right. exists p. auto.
  - left. exists e. auto.
Qed.

Lemma resume_loading (p : string) (m : RawModule) (st : Pass) :
  (exists e,
     loadSingleFile p (heap st) = Throw e
     /\ pass_resume (Loading p m) st = (Failed (Loading p m) e, reject e st))
  \/ (exists src h',
        loadSingleFile p (heap st) = Ok (src, h')
        /\ pass_resume (Loading p m) st
           = (Visited p m,
              enter (imports m) src
                {| pending := pending st;
                   processedFiles := processedFiles st;
                   typeDefinitions := typeDefinitions st;
                   allDefinitions := allDefinitions st;
                   heap := h';
                   failure := failure st |})).
Proof.
  unfold resume.
  destruct (loadSingleFile p (heap st)) as [[src h']|e].
  - right. exists src, h'. auto.
  - left. exists e. auto.
Qed.

(** The rule of the skip: an import whose resolved path has an equal record
    in [processedFiles] leaves the pass as it is. *)
Lemma step_skips (st : Pass) (before after : list Task) (importer p : string)
    (m : RawModule) :
  pending st = before ++ Resolving importer m :: after ->
  resolveModuleFilePath resolveFrom options importer (from m) = Ok p ->
  processed_in (processedFiles st) (p, m) = true ->
  pass_step st (Skipped p m) (with_pending st (before ++ after)).
Proof.
  intros Hpending Hresolve Hdone.
  pose proof (step_resume compareNodes resolveFrom loadSingleFile options
                st before (Resolving importer m) after Hpending) as H.
  destruct (resume_resolving importer m (with_pending st (before ++ after)))
    as [(e & He & _) | [(p' & Hp' & _ & Hr) | (p' & Hp' & Hnot & _)]].
  - congruence.
  - rewrite Hr in H. cbn [fst snd] in H.
    assert (p' = p) as -> by congruence. exact H.
  - assert (p' = p) as -> by congruence. cbn in Hnot. congruence.
Qed.

(** A step never takes a record out of [processedFiles]; a step that marks
    a pair finds it not processed and leaves it processed. *)
Lemma step_processed (st st' : Pass) (ev : Event) :
  pass_step st ev st' ->
  (forall pm, processed_in (processedFiles st) pm = true ->
              processed_in (processedFiles st') pm = true)
  /\ (forall p m, ev = Marked p m ->
                  processed_in (processedFiles st) (p, m) = false
                  /\ processed_in (processedFiles st') (p, m) = true).
Proof.
  intros H. inversion H as [st0 before t after Hpending Hev Hst']; subst st0.
  set (others := with_pending st (before ++ after)) in *.
  assert (processedFiles others = processedFiles st) as Hsame by reflexivity.
  destruct t as [importer m | p m].
  - destruct (resume_resolving importer m others)
      as [(e & _ & Hr) | [(p & _ & _ & Hr) | (p & _ & Hnot & Hr)]];
      rewrite Hr; cbn [fst snd].
    + split; [auto | discriminate].
    + split; [auto | discriminate].
    + split.
      * intros pm Hpm. cbn [processedFiles]. rewrite Hsame.
        rewrite processed_in_mark, Hpm. reflexivity.
      * intros p' m' E. injection E as <- <-. rewrite Hsame in Hnot.
        split; [exact Hnot|]. cbn [processedFiles]. rewrite Hsame.
        rewrite processed_in_mark. cbn [fst snd].
        rewrite String.eqb_refl, (proj2 (isEqual_eq m m) eq_refl).
        apply orb_true_r.
  - destruct (resume_loading p m others) as [(e & _ & Hr) | (src & h' & _ & Hr)];
      rewrite Hr; cbn [fst snd].
    + split; [auto | discriminate].
    + destruct (collectDefinitions_shape (imports m) src
                  {| pending := pending others;
                     processedFiles := processedFiles others;
                     typeDefinitions := typeDefinitions others;
                     allDefinitions := allDefinitions others;
                     heap := h';
                     failure := failure others |}) as (new & _ & _ & Hp & _).
      rewrite Hp. split; [auto | discriminate].
Qed.

Lemma loadings_cons_resolving (importer : string) (m : RawModule) (ts : list Task) :
  loadings (Resolving importer m :: ts) = loadings ts.
Proof. reflexivity. Qed.

Lemma loadings_cons_loading (p : string) (m : RawModule) (ts : list Task) :
  loadings (Loading p m :: ts) = (p, m) :: loadings ts.
Proof. reflexivity. Qed.

(** The callbacks that wait for a file, with the files loaded so far, are
    the pairs marked so far. *)
Lemma step_loadings (st st' : Pass) (ev : Event) :
  pass_step st ev st' ->
  loadings (pending st') ++ loads [ev] ≡ₚ loadings (pending st) ++ marks [ev].
Proof.
  intros H. inversion H as [st0 before t after Hpending Hev Hst']; subst st0.
  set (others := with_pending st (before ++ after)) in *.
  assert (pending others = before ++ after) as Hothers by reflexivity.
  rewrite Hpending, !loadings_app.
  destruct t as [importer m | p m].
  - rewrite loadings_cons_resolving.
    destruct (resume_resolving importer m others)
      as [(e & _ & Hr) | [(p & _ & _ & Hr) | (p & _ & _ & Hr)]];
      rewrite Hr; cbn [fst snd pending reject].
    + rewrite Hothers, loadings_app. cbn [loads marks omap]. rewrite !app_nil_r.
      reflexivity.
    + rewrite Hothers, loadings_app. cbn [loads marks omap]. rewrite !app_nil_r.
      reflexivity.
    + rewrite Hothers, !loadings_app, loadings_cons_loading.
      change (loadings []) with (@nil (string * RawModule)).
      change (loads [Marked p m]) with (@nil (string * RawModule)).
      change (marks [Marked p m]) with [(p, m)].
      rewrite !app_nil_r, <- app_assoc. reflexivity.
  - rewrite loadings_cons_loading.
    assert (loadings before ++ loadings after ++ [(p, m)]
            ≡ₚ (loadings before ++ (p, m) :: loadings after) ++ []) as Hperm.
    { rewrite app_nil_r. solve_Permutation. }
    destruct (resume_loading p m others) as [(e & _ & Hr) | (src & h' & _ & Hr)];
      rewrite Hr; cbn [fst snd pending reject].
    + rewrite Hothers, loadings_app.
      change (loads [Failed (Loading p m) e]) with [(p, m)].
      change (marks [Failed (Loading p m) e]) with (@nil (string * RawModule)).
      rewrite <- app_assoc. exact Hperm.
    + destruct (collectDefinitions_shape (imports m) src
                  {| pending := pending others;
                     processedFiles := processedFiles others;
                     typeDefinitions := typeDefinitions others;
                     allDefinitions := allDefinitions others;
                     heap := h';
                     failure := failure others |}) as (new & Hp & _).
      rewrite Hp. cbn [pending]. rewrite Hothers, !loadings_app, loadings_resolving.
      change (loads [Visited p m]) with [(p, m)].
      change (marks [Visited p m]) with (@nil (string * RawModule)).
      rewrite app_nil_r, <- app_assoc. exact Hperm.
Qed.

Lemma step_allDefinitions (st st' : Pass) (ev : Event) :
  pass_step st ev st' ->
  length (allDefinitions st') = length (allDefinitions st) + length (visits [ev]).
Proof.
  intros H. inversion H as [st0 before t after Hpending Hev Hst']; subst st0.
  set (others := with_pending st (before ++ after)) in *.
  destruct t as [importer m | p m].
  - destruct (resume_resolving importer m others)
      as [(e & _ & Hr) | [(p & _ & _ & Hr) | (p & _ & _ & Hr)]];
      rewrite Hr; cbn; lia.
  - destruct (resume_loading p m others) as [(e & _ & Hr) | (src & h' & _ & Hr)];
      rewrite Hr; cbn [fst snd].
    + cbn. lia.
    + destruct (collectDefinitions_shape (imports m) src
                  {| pending := pending others;
                     processedFiles := processedFiles others;
                     typeDefinitions := typeDefinitions others;
                     allDefinitions := allDefinitions others;
                     heap := h';
                     failure := failure others |}) as (new & _ & _ & _ & Ha).
      rewrite Ha, length_app. cbn. lia.
Qed.

Lemma marks_cons (ev : Event) (evs : list Event) :
  marks (ev :: evs) = marks [ev] ++ marks evs.
Proof. destruct ev; reflexivity. Qed.

Lemma loads_cons (ev : Event) (evs : list Event) :
  loads (ev :: evs) = loads [ev] ++ loads evs.
Proof. destruct ev as [| | |[] ?]; reflexivity. Qed.

Lemma visits_cons (ev : Event) (evs : list Event) :
  visits (ev :: evs) = visits [ev] ++ visits evs.
Proof. destruct ev; reflexivity. Qed.

Lemma visits_sublist_loads (evs : list Event) : visits evs `sublist_of` loads evs.
Proof.
  induction evs as [|ev evs IH]; [constructor|].
  rewrite visits_cons, loads_cons.
  destruct ev as [| | |[] ?]; cbn; try exact IH; constructor; exact IH.
Qed.

Lemma steps_processed (st st' : Pass) (evs : list Event) :
  pass_steps st evs st' ->
  forall pm, processed_in (processedFiles st) pm = true ->
             processed_in (processedFiles st') pm = true.
Proof.
  induction 1 as [st|st ev st1 evs st2 Hstep _ IH]; [auto|].
  intros pm Hpm. apply IH, (proj1 (step_processed _ _ _ Hstep)), Hpm.
Qed.

(** No pair is marked twice, and a marked pair was not processed before. *)
Lemma steps_marks (st st' : Pass) (evs : list Event) :
  pass_steps st evs st' ->
  NoDup (marks evs)
  /\ forall pm, In pm (marks evs) ->
                processed_in (processedFiles st) pm = false
                /\ processed_in (processedFiles st') pm = true.
Proof.
  induction 1 as [st|st ev st1 evs st2 Hstep Hsteps [IHnd IHin]].
  - split; [constructor | intros pm []].
  - destruct (step_processed _ _ _ Hstep) as [Hmono Hmark].
    assert (forall pm, In pm (marks evs) ->
              processed_in (processedFiles st) pm = false) as Hbefore.
    { intros pm Hpm. destruct (IHin pm Hpm) as [Hnot _].
      destruct (processed_in (processedFiles st) pm) eqn:E; [|reflexivity].
      rewrite (Hmono pm E) in Hnot. discriminate. }
    rewrite marks_cons.
    destruct ev as [p m|p m|p m|t e]; cbn [marks omap app];
      try (split; [exact IHnd|];
           intros pm Hpm; split; [apply Hbefore, Hpm | apply (IHin pm Hpm)]).
    destruct (Hmark p m eq_refl) as [Hnot Hdone]. split.
    + constructor; [|exact IHnd]. rewrite list_elem_of_In. intros Hin.
      destruct (IHin _ Hin) as [Hnot1 _]. congruence.
    + intros pm [<-|Hpm].
      * split; [exact Hnot|]. apply (steps_processed _ _ _ Hsteps), Hdone.
      * split; [apply Hbefore, Hpm | apply (IHin pm Hpm)].
Qed.

Lemma steps_loadings (st st' : Pass) (evs : list Event) :
  pass_steps st evs st' ->
  loadings (pending st') ++ loads evs ≡ₚ loadings (pending st) ++ marks evs.
Proof.
  induction 1 as [st|st ev st1 evs st2 Hstep _ IH].
  - reflexivity.
  - rewrite loads_cons, marks_cons.
    transitivity (loads [ev] ++ (loadings (pending st2) ++ loads evs));
      [solve_Permutation|].
    rewrite IH.
    transitivity ((loadings (pending st1) ++ loads [ev]) ++ marks evs);
      [solve_Permutation|].
    rewrite (step_loadings _ _ _ Hstep), <- app_assoc. reflexivity.
Qed.

(** A file is visited for a pair that was marked, and once for it. *)
Lemma steps_visits (st st' : Pass) (evs : list Event) :
  loadings (pending st) = [] ->
  pass_steps st evs st' ->
  NoDup (visits evs) /\ forall pm, In pm (visits evs) -> In pm (marks evs).
Proof.
  intros Hnone Hsteps.
  pose proof (steps_loadings _ _ _ Hsteps) as Hperm.
  rewrite Hnone in Hperm. cbn [app] in Hperm.
  destruct (steps_marks _ _ _ Hsteps) as [Hnd _].
  rewrite <- Hperm in Hnd. apply NoDup_app in Hnd as (_ & _ & Hloads).
  split.
  - apply (sublist_NoDup _ _ Hloads), visits_sublist_loads.
  - intros pm Hpm. apply list_elem_of_In. rewrite <- Hperm.
    apply elem_of_app. right.
    apply (elem_of_sublist _ _ _ (proj2 (list_elem_of_In _ _) Hpm)),
      visits_sublist_loads.
Qed.

Lemma steps_allDefinitions (st st' : Pass) (evs : list Event) :
  pass_steps st evs st' ->
  length (allDefinitions st') = length (allDefinitions st) + length (visits evs).
Proof.
  induction 1 as [st|st ev st1 evs st2 Hstep _ IH]; [cbn; lia|].
  rewrite IH, (step_allDefinitions _ _ _ Hstep), (visits_cons ev evs), length_app.
  lia.
Qed.
End TraversalFacts.

(** ** Termination of the traversal *)

Section Termination.
Variable compareNodes : FieldNode -> FieldNode -> Z.
Variable resolveFrom : string -> string -> Result string.
Variable loadSingleFile : string -> Heap -> Result (Source * Heap).
Variable options : LoadTypedefsOptions.
Variable texts : list (string * string).
Hypothesis loader_texts :
  forall p h src h',
    loadSingleFile p h = Ok (src, h') -> In (location src, rawSDL src) texts.

Local Abbreviation pass_step := (step compareNodes resolveFrom loadSingleFile options).
Local Abbreviation pass_steps := (steps compareNodes resolveFrom loadSingleFile options).
Local Abbreviation pass_resume := (resume compareNodes resolveFrom loadSingleFile options).
Local Abbreviation enter := (collectDefinitions compareNodes options).
Local Abbreviation pass_measure := (measure resolveFrom options texts).
Local Abbreviation bound_to_files := (from_files texts).

Lemma edges_of_text (text : string * string) (rawModules : list RawModule) :
  In text texts -> parseSDL (snd text) = Ok rawModules ->
  length rawModules <= length (all_edges texts)
  /\ forall m, In m rawModules -> In (fst text, m) (all_edges texts).
Proof.
  intros Hin Hparse. unfold all_edges.
  assert (edges_of text = List.map (pair (fst text)) rawModules) as Hedges
    by (unfold edges_of; rewrite Hparse; reflexivity).
  split.
  - clear loader_texts. induction texts as [|t ts IH]; [destruct Hin|].
    cbn [flat_map]. rewrite length_app. destruct Hin as [->|Hin].
    + rewrite Hedges, length_map. lia.
    + specialize (IH Hin). lia.
  - intros m Hm. apply in_flat_map. exists text. split; [exact Hin|].
    rewrite Hedges. apply in_map, Hm.
Qed.

Lemma target_of_edge (importer p : string) (m : RawModule) :
  In (importer, m) (all_edges texts) ->
  resolveModuleFilePath resolveFrom options importer (from m) = Ok p ->
  In (p, m) (targets resolveFrom options texts).
Proof.
  intros Hin Hresolve. unfold targets. apply list_elem_of_In, list_elem_of_omap.
  exists (importer, m). split; [apply list_elem_of_In, Hin|].
  cbn [fst snd]. rewrite Hresolve. reflexivity.
Qed.

Lemma resolvings_cons_resolving (importer : string) (m : RawModule) (ts : list Task) :
  resolvings (Resolving importer m :: ts) = (importer, m) :: resolvings ts.
Proof. reflexivity. Qed.

Lemma resolvings_cons_loading (p : string) (m : RawModule) (ts : list Task) :
  resolvings (Loading p m :: ts) = resolvings ts.
Proof. reflexivity. Qed.

Lemma resolvings_middle (before after : list Task) (t : Task) :
  length (resolvings (before ++ t :: after))
  = length (resolvings (before ++ after))
    + match t with Resolving _ _ => 1 | Loading _ _ => 0 end.
Proof.
  rewrite !resolvings_app, !length_app.
  destruct t; [rewrite resolvings_cons_resolving | rewrite resolvings_cons_loading];
    cbn [length]; lia.
Qed.

Lemma loadings_middle (before after : list Task) (t : Task) :
  length (loadings (before ++ t :: after))
  = length (loadings (before ++ after))
    + match t with Resolving _ _ => 0 | Loading _ _ => 1 end.
Proof.
  rewrite !loadings_app, !length_app.
  destruct t; [rewrite loadings_cons_resolving | rewrite loadings_cons_loading];
    cbn [length]; lia.
Qed.

(** Every step lowers the measure, and keeps the callbacks bound to the
    files. *)
Lemma step_measure (st st' : Pass) (ev : Event) :
  bound_to_files st -> pass_step st ev st' ->
  bound_to_files st' /\ pass_measure st' < pass_measure st.
Proof.
  intros Hfiles H.
  inversion H as [st0 before t after Hpending Hev Hst']; subst st0.
  set (others := with_pending st (before ++ after)) in *.
  assert (pending others = before ++ after) as Hothers by reflexivity.
  assert (forall importer m, In (Resolving importer m) (before ++ after) ->
            In (importer, m) (all_edges texts)) as Hkeep.
  { intros importer m Hin. apply Hfiles. rewrite Hpending.
    apply in_app_iff in Hin as [Hin|Hin]; apply in_app_iff; [left|right; right];
      exact Hin. }
  unfold measure, unprocessed.
  rewrite Hpending, resolvings_middle, loadings_middle.
  set (K := length (all_edges texts)).
  destruct t as [importer m | p m].
  - destruct (resume_resolving compareNodes resolveFrom loadSingleFile options
                importer m others)
      as [(e & _ & Hr) | [(p & _ & _ & Hr) | (p & Hresolve & Hnot & Hr)]];
      rewrite Hr; cbn [fst snd pending processedFiles reject].
    + rewrite Hothers. split; [exact Hkeep|].
      change (processedFiles others) with (processedFiles st). nia.
    + rewrite Hothers. split; [exact Hkeep|].
      change (processedFiles others) with (processedFiles st). nia.
    + rewrite Hothers. split.
      * intros importer' m' Hin. cbn [pending] in Hin.
        apply in_app_iff in Hin as [Hin|[Hin|[]]]; [|discriminate].
        apply Hkeep, Hin.
      * assert (In (p, m) (targets resolveFrom options texts)) as Htarget.
        { apply (target_of_edge importer); [|exact Hresolve].
          apply Hfiles. rewrite Hpending. apply in_app_iff. right. left. reflexivity. }
        pose proof (filter_length_lt
                      (fun pm => negb (processed_in (processedFiles st) pm))
                      (fun pm => negb (processed_in
                         (<[p := match processedFiles others !! p with
                                 | Some l => l ++ [m]
                                 | None => [m]
                                 end]> (processedFiles others)) pm))
                      (targets resolveFrom options texts) (p, m)) as Hlt.
        cbv beta in Hlt.
        assert (length
                  (List.filter
                     (fun pm => negb (processed_in
                        (<[p := match processedFiles others !! p with
                                | Some l => l ++ [m]
                                | None => [m]
                                end]> (processedFiles others)) pm))
                     (targets resolveFrom options texts))
                < length
                    (List.filter
                       (fun pm => negb (processed_in (processedFiles st) pm))
                       (targets resolveFrom options texts))) as Hless.
        { apply Hlt.
          - intros pm. rewrite processed_in_mark.
            change (processedFiles others) with (processedFiles st).
            destruct (processed_in (processedFiles st) pm); [discriminate | reflexivity].
          - exact Htarget.
          - change (processedFiles others) with (processedFiles st) in Hnot.
            rewrite Hnot. reflexivity.
          - rewrite processed_in_mark. cbn [fst snd].
            rewrite String.eqb_refl, (proj2 (isEqual_eq m m) eq_refl), orb_true_r.
            reflexivity. }
        clear Hlt.
        rewrite resolvings_app, loadings_app, !length_app.
        rewrite resolvings_cons_loading, loadings_cons_loading.
        change (length (resolvings [])) with 0.
        change (length ((p, m) :: loadings [])) with 1.
        change (processedFiles others) with (processedFiles st) in *.
        revert Hless.
        generalize (length (List.filter
                      (fun pm => negb (processed_in
                         (<[p := match processedFiles st !! p with
                                 | Some l => l ++ [m]
                                 | None => [m]
                                 end]> (processedFiles st)) pm))
                      (targets resolveFrom options texts))).
        generalize (length (List.filter
                      (fun pm => negb (processed_in (processedFiles st) pm))
                      (targets resolveFrom options texts))).
        intros U U' Hless. nia.
  - destruct (resume_loading compareNodes resolveFrom loadSingleFile options
                p m others) as [(e & _ & Hr) | (src & h' & Hload & Hr)];
      rewrite Hr; cbn [fst snd pending processedFiles reject].
    + rewrite Hothers. split; [exact Hkeep|].
      change (processedFiles others) with (processedFiles st). nia.
    + destruct (collectDefinitions_shape compareNodes options (imports m) src
                  {| pending := pending others;
                     processedFiles := processedFiles others;
                     typeDefinitions := typeDefinitions others;
                     allDefinitions := allDefinitions others;
                     heap := h';
                     failure := failure others |})
        as (new & Hp & Hnew & Hsame & _).
      pose proof (loader_texts _ _ _ _ Hload) as Htext.
      assert (length new <= K
              /\ forall m', In m' new -> In (location src, m') (all_edges texts))
        as [Hlen Hnewedges].
      { destruct Hnew as [-> | Hparse].
        - split; [cbn; lia | intros m' []].
        - apply (edges_of_text (location src, rawSDL src) new Htext Hparse). }
      split.
      * intros importer' m' Hin. unfold from_files in Hin.
        rewrite Hp in Hin. cbn [pending] in Hin. rewrite Hothers in Hin.
        apply in_app_iff in Hin as [Hin|Hin]; [apply Hkeep, Hin|].
        apply in_map_iff in Hin as (m0 & E & Hm0). injection E as <- <-.
        apply Hnewedges, Hm0.
      * rewrite Hp, Hsame. cbn [pending processedFiles]. rewrite Hothers.
        rewrite resolvings_app, loadings_app, !length_app.
        rewrite loadings_resolving, resolvings_resolving, length_map.
        change (processedFiles others) with (processedFiles st).
        cbn [length].
        generalize (length (List.filter
                      (fun pm => negb (processed_in (processedFiles st) pm))
                      (targets resolveFrom options texts))).
        intros U. nia.
Qed.

(** A run is never longer than the measure of the state it starts from. *)
Lemma steps_bounded (st st' : Pass) (evs : list Event) :
  bound_to_files st -> pass_steps st evs st' ->
  bound_to_files st' /\ length evs + pass_measure st' <= pass_measure st.
Proof.
  intros Hfiles Hsteps. induction Hsteps as [st|st ev st1 evs st2 Hstep _ IH].
  - split; [exact Hfiles | cbn; lia].
  - destruct (step_measure _ _ _ Hfiles Hstep) as [Hfiles1 Hlt].
    destruct (IH Hfiles1) as [Hfiles2 Hle]. split; [exact Hfiles2 | cbn; lia].
Qed.

(** And a run reaches the state where no callback is left. *)
Lemma run_pass_finishes (fuel : nat) : forall st,
  bound_to_files st -> pass_measure st <= fuel ->
  exists evs st',
    run_pass compareNodes resolveFrom loadSingleFile options fuel st = Some (evs, st')
    /\ pass_steps st evs st' /\ pending st' = [].
Proof.
  induction fuel as [|fuel IH]; intros st Hfiles Hfuel.
  - destruct (pending st) as [|t rest] eqn:Hpending.
    + exists [], st.
      split; [cbn [run_pass]; rewrite Hpending; reflexivity|].
      split; [apply steps_nil | exact Hpending].
    + exfalso. unfold measure in Hfuel. rewrite Hpending in Hfuel.
      destruct t;
        [rewrite resolvings_cons_resolving in Hfuel
        |rewrite loadings_cons_loading in Hfuel]; cbn [length] in Hfuel; lia.
  - destruct (pending st) as [|t rest] eqn:Hpending.
    + exists [], st.
      split; [cbn [run_pass]; rewrite Hpending; reflexivity|].
      split; [apply steps_nil | exact Hpending].
    + pose proof (step_resume compareNodes resolveFrom loadSingleFile options
                    st [] t rest Hpending) as Hstep.
      cbn [app] in Hstep.
      cbn [run_pass]. rewrite Hpending.
      destruct (pass_resume t (with_pending st rest)) as [ev st1] eqn:Hresume.
      cbn [fst snd] in Hstep.
      destruct (step_measure _ _ _ Hfiles Hstep) as [Hfiles1 Hlt].
      destruct (IH st1 Hfiles1) as (evs & st' & Hrun & Hsteps & Hdone); [lia|].
      rewrite Hrun. exists (ev :: evs), st'. split; [reflexivity|].
      split; [eapply steps_cons; eassumption | exact Hdone].
Qed.
End Termination.

(** ** Following the imports *)

Lemma steps_app (compareNodes : FieldNode -> FieldNode -> Z)
    (resolveFrom : string -> string -> Result string)
    (loadSingleFile : string -> Heap -> Result (Source * Heap))
    (options : LoadTypedefsOptions) (st st1 st2 : Pass) (evs1 evs2 : list Event) :
  steps compareNodes resolveFrom loadSingleFile options st evs1 st1 ->
  steps compareNodes resolveFrom loadSingleFile options st1 evs2 st2 ->
  steps compareNodes resolveFrom loadSingleFile options st (evs1 ++ evs2) st2.
Proof.
  induction 1 as [st|st ev st0 evs st1 Hstep _ IH]; intros H2; [exact H2|].
  cbn [app]. eapply steps_cons; [exact Hstep | apply IH, H2].
Qed.

Lemma loads_In (evs : list Event) (p : string) (m : RawModule) :
  In (p, m) (loads evs) ->
  In (p, m) (visits evs) \/ exists e, In (Failed (Loading p m) e) evs.
Proof.
  induction evs as [|ev evs IH]; [intros []|].
  rewrite loads_cons, visits_cons, in_app_iff, in_app_iff. intros [H|H].
  - destruct ev as [p' m'|p' m'|p' m'|[i' m'|p' m'] e]; cbn in H;
      try (destruct H; fail).
    + destruct H as [H|[]]. left. left. cbn. left. exact H.
    + destruct H as [H|[]]. right. exists e. left.
      injection H as -> ->. reflexivity.
  - destruct (IH H) as [Hv|(e & He)]; [left; right; exact Hv|].
    right. exists e. right. exact He.
Qed.

Section Following.
Variable compareNodes : FieldNode -> FieldNode -> Z.
Variable resolveFrom : string -> string -> Result string.
Variable loadSingleFile : string -> Heap -> Result (Source * Heap).
Variable options : LoadTypedefsOptions.

(** The rule of the mark: an import whose resolved path has no equal
    record in [processedFiles] is recorded, and a callback is left that
    waits for the file. *)
Lemma step_marks (st : Pass) (before after : list Task) (importer p : string)
    (m : RawModule) :
  pending st = before ++ Resolving importer m :: after ->
  resolveModuleFilePath resolveFrom options importer (from m) = Ok p ->
  processed_in (processedFiles st) (p, m) = false ->
  step compareNodes resolveFrom loadSingleFile options st (Marked p m)
    {| pending := (before ++ after) ++ [Loading p m];
       processedFiles :=
         <[p := match processedFiles st !! p with
                | Some l => l ++ [m]
                | None => [m]
                end]> (processedFiles st);
       typeDefinitions := typeDefinitions st;
       allDefinitions := allDefinitions st;
       heap := heap st;
       failure := failure st |}.
Proof.
  intros Hpending Hp Hnew.
  pose proof (step_resume compareNodes resolveFrom loadSingleFile options
                st before (Resolving importer m) after Hpending) as Hstep.
  destruct (resume_resolving compareNodes resolveFrom loadSingleFile options
              importer m (with_pending st (before ++ after)))
    as [(e & He & _) | [(p' & Hp' & Hin & _) | (p' & Hp' & _ & E)]].
  - rewrite Hp in He. discriminate.
  - rewrite Hp in Hp'. injection Hp' as <-. cbn [processedFiles with_pending] in Hin.
    rewrite Hnew in Hin. discriminate.
  - rewrite Hp in Hp'. injection Hp' as <-. rewrite E in Hstep. exact Hstep.
Qed.

(** The visit: once the file is loaded, its document is added, projected
    for the selectors of the import, and every import of its text is left
    as a callback that waits for its path. *)
Lemma step_visits (st : Pass) (before after : list Task) (p : string) (m : RawModule)
    (src : Source) (h' h'' : Heap) (current : list ref) (rawModules : list RawModule) :
  pending st = before ++ Loading p m :: after ->
  loadSingleFile p (heap st) = Ok (src, h') ->
  filterImportedDefinitions compareNodes (imports m) (document src)
    (allDefinitions st ++ [document src]) (sort options) h' = Ok (current, h'') ->
  parseSDL (rawSDL src) = Ok rawModules ->
  step compareNodes resolveFrom loadSingleFile options st (Visited p m)
    {| pending := (before ++ after) ++ List.map (Resolving (location src)) rawModules;
       processedFiles := processedFiles st;
       typeDefinitions := typeDefinitions st ++ [current];
       allDefinitions := allDefinitions st ++ [document src];
       heap := h'';
       failure := failure st |}.
Proof.
  intros Hpending Hload Hproj Hparse.
  pose proof (step_resume compareNodes resolveFrom loadSingleFile options
                st before (Loading p m) after Hpending) as Hstep.
  assert (resume compareNodes resolveFrom loadSingleFile options (Loading p m)
            (with_pending st (before ++ after))
          = (Visited p m,
             {| pending := (before ++ after)
                           ++ List.map (Resolving (location src)) rawModules;
                processedFiles := processedFiles st;
                typeDefinitions := typeDefinitions st ++ [current];
                allDefinitions := allDefinitions st ++ [document src];
                heap := h'';
                failure := failure st |})) as E.
  { unfold resume. cbn [heap with_pending]. rewrite Hload.
    unfold collectDefinitions.
    cbn [allDefinitions heap pending processedFiles typeDefinitions failure
         with_pending].
    rewrite Hproj, Hparse. reflexivity. }
  rewrite E in Hstep. exact Hstep.
Qed.

Lemma resume_keeps_pending (t : Task) (st : Pass) :
  exists more,
    pending (snd (resume compareNodes resolveFrom loadSingleFile options t st))
    = pending st ++ more.
Proof.
  destruct t as [importer m | p m].
  - destruct (resume_resolving compareNodes resolveFrom loadSingleFile options
                importer m st)
      as [(e & _ & ->) | [(p & _ & _ & ->) | (p & _ & _ & ->)]]; cbn [fst snd].
    + exists []. rewrite app_nil_r. reflexivity.
    + exists []. rewrite app_nil_r. reflexivity.
    + eexists. reflexivity.
  - destruct (resume_loading compareNodes resolveFrom loadSingleFile options p m st)
      as [(e & _ & ->) | (src & h' & _ & ->)]; cbn [fst snd].
    + exists []. rewrite app_nil_r. reflexivity.
    + destruct (collectDefinitions_shape compareNodes options (imports m) src
                  {| pending := pending st;
                     processedFiles := processedFiles st;
                     typeDefinitions := typeDefinitions st;
                     allDefinitions := allDefinitions st;
                     heap := h';
                     failure := failure st |}) as (new & Hp & _).
      eexists. exact Hp.
Qed.

(** No import is left behind: once no callback is left, an import that was
    waiting for its path, and whose path resolves, is recorded. *)
Lemma steps_follow (st st' : Pass) (evs : list Event)
    (importer p : string) (m : RawModule) :
  steps compareNodes resolveFrom loadSingleFile options st evs st' ->
  pending st' = [] ->
  In (Resolving importer m) (pending st) ->
  resolveModuleFilePath resolveFrom options importer (from m) = Ok p ->
  processed_in (processedFiles st') (p, m) = true.
Proof.
  intros Hsteps Hdone Hin Hp. revert Hin.
  induction Hsteps as [st|st ev st1 evs st2 Hstep Hrest IH]; intros Hin.
  - rewrite Hdone in Hin. destruct Hin.
  - specialize (IH Hdone).
    inversion Hstep as [st0 before t after Hpending E1 E2 E3]. subst st0.
    rewrite Hpending in Hin. apply in_app_iff in Hin.
    assert (In (Resolving importer m) (before ++ after)
            \/ t = Resolving importer m) as [Hother | ->].
    { destruct Hin as [Hin | [<- | Hin]];
        [left; apply in_app_iff; left; exact Hin
        | right; reflexivity
        | left; apply in_app_iff; right; exact Hin]. }
    + apply IH. rewrite <- E3.
      destruct (resume_keeps_pending t (with_pending st (before ++ after)))
        as (more & ->).
      apply in_app_iff. left. exact Hother.
    + apply (steps_processed _ _ _ _ _ _ _ Hrest). rewrite <- E3.
      destruct (resume_resolving compareNodes resolveFrom loadSingleFile options
                  importer m (with_pending st (before ++ after)))
        as [(e & He & _) | [(p' & Hp' & Hin' & ->) | (p' & Hp' & _ & ->)]];
        cbn [fst snd].
      * rewrite Hp in He. discriminate.
      * rewrite Hp in Hp'. injection Hp' as <-. exact Hin'.
      * rewrite Hp in Hp'. injection Hp' as <-. cbn [processedFiles].
        rewrite processed_in_mark. cbn [fst snd].
        rewrite String.eqb_refl. unfold isEqual.
        rewrite bool_decide_eq_true_2 by reflexivity. apply orb_true_r.
Qed.

(** What is recorded was recorded before or has been marked. *)
Lemma steps_recorded (st st' : Pass) (evs : list Event) (pm : string * RawModule) :
  steps compareNodes resolveFrom loadSingleFile options st evs st' ->
  processed_in (processedFiles st') pm = true ->
  processed_in (processedFiles st) pm = true \/ In pm (marks evs).
Proof.
  induction 1 as [st|st ev st1 evs st2 Hstep _ IH]; intros Hpm; [left; exact Hpm|].
  rewrite marks_cons, in_app_iff.
  destruct (IH Hpm) as [H1|H1]; [|right; right; exact H1].
  inversion Hstep as [st0 before t after Hpending E1 E2 E3]. subst st0.
  rewrite <- E3 in H1.
  destruct t as [importer m | p m].
  - destruct (resume_resolving compareNodes resolveFrom loadSingleFile options
                importer m (with_pending st (before ++ after)))
      as [(e & _ & E) | [(p & _ & _ & E) | (p & _ & _ & E)]];
      rewrite E in H1 |- *; cbn [fst snd] in H1 |- *.
    + left. exact H1.
    + left. exact H1.
    + cbn [processedFiles] in H1. rewrite processed_in_mark in H1.
      apply orb_true_iff in H1 as [H1|H1]; [left; exact H1|].
      right. left. cbn. left.
      apply andb_true_iff in H1 as [Hp Hm].
      apply String.eqb_eq in Hp. apply isEqual_eq in Hm.
      destruct pm as [p' m']. cbn [fst snd] in Hp, Hm. subst. reflexivity.
  - destruct (resume_loading compareNodes resolveFrom loadSingleFile options p m
                (with_pending st (before ++ after)))
      as [(e & _ & E) | (src & h' & _ & E)]; rewrite E in H1 |- *;
      cbn [fst snd] in H1 |- *.
    + left. exact H1.
    + destruct (collectDefinitions_shape compareNodes options (imports m) src
                  {| pending := pending (with_pending st (before ++ after));
                     processedFiles := processedFiles (with_pending st (before ++ after));
                     typeDefinitions := typeDefinitions (with_pending st (before ++ after));
                     allDefinitions := allDefinitions (with_pending st (before ++ after));
                     heap := h';
                     failure := failure (with_pending st (before ++ after)) |})
        as (new & _ & _ & Hp & _).
      rewrite Hp in H1. left. exact H1.
Qed.
End Following.

(** C3.  Over a finite set of files, cyclic or not: an import whose resolved
    path already has an equal record in [processedFiles] is skipped; in
    every run of the pass, whatever the order in which the callbacks resume,
    no pair of a resolved path and a record is marked twice, a file is
    visited once for each marked pair and for no other, and every visit adds
    one document; once no callback is left every marked pair has been
    loaded, its file visited unless the loader failed; no run is longer than
    the measure of the start, and the pass reaches the state where no
    callback is left.  And the files are produced: the imports of the entry
    document wait for their paths at the start; an import whose resolved
    path has no equal record is marked and its file awaited; a file that is
    loaded has its document added and projected and its own imports left
    waiting; and once no callback is left, every import that was waiting at
    some point of the run and whose path resolves is recorded, and unless it
    was recorded before the pass it has been marked in the run, and its file
    visited unless the loader failed. *)
Theorem traversal_terminates (compareNodes : FieldNode -> FieldNode -> Z)
    (resolveFrom : string -> string -> Result string)
    (loadSingleFile : string -> Heap -> Result (Source * Heap))
    (options : LoadTypedefsOptions) (texts : list (string * string))
    (documentSource : Source) (processed : gmap string (list RawModule))
    (allDefinitions0 : list (list ref)) (h : Heap) :
  (forall p h0 src h',
     loadSingleFile p h0 = Ok (src, h') -> In (location src, rawSDL src) texts) ->
  In (location documentSource, rawSDL documentSource) texts ->
  let start := processImportSyntax_start compareNodes options documentSource
                 processed allDefinitions0 h in
  (forall st before after importer p m,
     pending st = before ++ Resolving importer m :: after ->
     resolveModuleFilePath resolveFrom options importer (from m) = Ok p ->
     processed_in (processedFiles st) (p, m) = true ->
     step compareNodes resolveFrom loadSingleFile options st (Skipped p m)
       (with_pending st (before ++ after)))
  /\ (forall evs st',
        steps compareNodes resolveFrom loadSingleFile options start evs st' ->
        NoDup (marks evs)
        /\ NoDup (visits evs)
        /\ (forall pm, In pm (visits evs) -> In pm (marks evs))
        /\ (forall pm, In pm (marks evs) -> processed_in processed pm = false)
        /\ length (allDefinitions st')
           = length allDefinitions0 + 1 + length (visits evs)
        /\ (pending st' = [] -> loads evs ≡ₚ marks evs)
        /\ length evs <= measure resolveFrom options texts start)
  /\ (exists evs st',
        steps compareNodes resolveFrom loadSingleFile options start evs st'
        /\ pending st' = [])
  /\ (forall rawModules,
        parseSDL (rawSDL documentSource) = Ok rawModules ->
        failure start = None ->
        pending start = List.map (Resolving (location documentSource)) rawModules)
  /\ (forall st before after importer p m,
        pending st = before ++ Resolving importer m :: after ->
        resolveModuleFilePath resolveFrom options importer (from m) = Ok p ->
        processed_in (processedFiles st) (p, m) = false ->
        step compareNodes resolveFrom loadSingleFile options st (Marked p m)
          {| pending := (before ++ after) ++ [Loading p m];
             processedFiles :=
               <[p := match processedFiles st !! p with
                      | Some l => l ++ [m]
                      | None => [m]
                      end]> (processedFiles st);
             typeDefinitions := typeDefinitions st;
             allDefinitions := allDefinitions st;
             heap := heap st;
             failure := failure st |})
  /\ (forall st before after p m src h' h'' current rawModules,
        pending st = before ++ Loading p m :: after ->
        loadSingleFile p (heap st) = Ok (src, h') ->
        filterImportedDefinitions compareNodes (imports m) (document src)
          (allDefinitions st ++ [document src]) (sort options) h'
        = Ok (current, h'') ->
        parseSDL (rawSDL src) = Ok rawModules ->
        step compareNodes resolveFrom loadSingleFile options st (Visited p m)
          {| pending := (before ++ after)
                        ++ List.map (Resolving (location src)) rawModules;
             processedFiles := processedFiles st;
             typeDefinitions := typeDefinitions st ++ [current];
             allDefinitions := allDefinitions st ++ [document src];
             heap := h'';
             failure := failure st |})
  /\ (forall evs1 st1 evs2 st' importer m p,
        steps compareNodes resolveFrom loadSingleFile options start evs1 st1 ->
        steps compareNodes resolveFrom loadSingleFile options st1 evs2 st' ->
        pending st' = [] ->
        In (Resolving importer m) (pending st1) ->
        resolveModuleFilePath resolveFrom options importer (from m) = Ok p ->
        processed_in (processedFiles st') (p, m) = true
        /\ (processed_in processed (p, m) = false ->
            In (p, m) (marks (evs1 ++ evs2))
            /\ (In (p, m) (visits (evs1 ++ evs2))
                \/ exists e, In (Failed (Loading p m) e) (evs1 ++ evs2)))).
Proof.
  intros Hloader Hentry start. subst start. unfold processImportSyntax_start.
  destruct (collectDefinitions_shape compareNodes options ["*"] documentSource
              {| pending := [];
                 processedFiles := processed;
                 typeDefinitions := [];
                 allDefinitions := allDefinitions0;
                 heap := h;
                 failure := None |}) as (new & Hpending & Hnew & Hprocessed & Hall).
  assert (forall rawModules,
            parseSDL (rawSDL documentSource) = Ok rawModules ->
            failure (collectDefinitions compareNodes options ["*"] documentSource
                       {| pending := [];
                          processedFiles := processed;
                          typeDefinitions := [];
                          allDefinitions := allDefinitions0;
                          heap := h;
                          failure := None |}) = None ->
            pending (collectDefinitions compareNodes options ["*"] documentSource
                       {| pending := [];
                          processedFiles := processed;
                          typeDefinitions := [];
                          allDefinitions := allDefinitions0;
                          heap := h;
                          failure := None |})
            = List.map (Resolving (location documentSource)) rawModules) as Hqueue.
  { intros rawModules Hparse. unfold collectDefinitions.
    destruct (filterImportedDefinitions _ _ _ _ _ _) as [[current h1]|e];
      [|discriminate].
    rewrite Hparse. reflexivity. }
  set (start := collectDefinitions compareNodes options ["*"] documentSource _) in *.
  cbn [pending processedFiles allDefinitions app] in Hpending, Hprocessed, Hall.
  assert (loadings (pending start) = []) as Hnone
    by (rewrite Hpending; apply loadings_resolving).
  assert (from_files texts start) as Hfiles.
  { intros importer m Hin. rewrite Hpending in Hin.
    apply in_map_iff in Hin as (m0 & E & Hm0). injection E as <- <-.
    destruct Hnew as [-> | Hparse]; [destruct Hm0|].
    apply (edges_of_text texts (location documentSource, rawSDL documentSource)
             new Hentry Hparse), Hm0. }
  split; [|split; [|split; [|split; [|split; [|split]]]]].
  - intros st before after importer p m. apply step_skips.
  - intros evs st' Hsteps.
    destruct (steps_marks _ _ _ _ _ _ _ Hsteps) as [Hnd Hmarked].
    destruct (steps_visits _ _ _ _ _ _ _ Hnone Hsteps) as [Hvisits Hin].
    split; [exact Hnd|]. split; [exact Hvisits|]. split; [exact Hin|].
    split; [|split; [|split]].
    + intros pm Hpm. rewrite <- Hprocessed. apply (Hmarked pm Hpm).
    + rewrite (steps_allDefinitions _ _ _ _ _ _ _ Hsteps), Hall, length_app.
      cbn. lia.
    + intros Hdone.
      pose proof (steps_loadings _ _ _ _ _ _ _ Hsteps) as Hperm.
      rewrite Hnone, Hdone in Hperm. exact Hperm.
    + destruct (steps_bounded compareNodes resolveFrom loadSingleFile options texts
                  Hloader _ _ _ Hfiles Hsteps) as [_ Hle]. lia.
  - destruct (run_pass_finishes compareNodes resolveFrom loadSingleFile options texts
                Hloader _ start Hfiles (Nat.le_refl _))
      as (evs & st' & _ & Hsteps & Hdone).
    exists evs, st'. auto.
  - exact Hqueue.
  - intros st before after importer p m. apply step_marks.
  - intros st before after p m src h' h'' current rawModules. apply step_visits.
  - intros evs1 st1 evs2 st' importer m p Hsteps1 Hsteps2 Hdone Hin Hp.
    pose proof (steps_follow compareNodes resolveFrom loadSingleFile options
                  st1 st' evs2 importer p m Hsteps2 Hdone Hin Hp) as Hrecorded.
    split; [exact Hrecorded|]. intros Hfresh.
    pose proof (steps_app _ _ _ _ _ _ _ _ _ Hsteps1 Hsteps2) as Hsteps.
    assert (In (p, m) (marks (evs1 ++ evs2))) as Hmarked.
    { destruct (steps_recorded compareNodes resolveFrom loadSingleFile options
                  _ _ _ (p, m) Hsteps Hrecorded) as [Hold|Hmarked]; [|exact Hmarked].
      rewrite Hprocessed, Hfresh in Hold. discriminate. }
    split; [exact Hmarked|].
    apply loads_In. apply list_elem_of_In.
    pose proof (steps_loadings _ _ _ _ _ _ _ Hsteps) as Hperm.
    rewrite Hnone, Hdone in Hperm. cbn [app] in Hperm.
    rewrite Hperm. apply list_elem_of_In, Hmarked.
Qed.

Lemma traversal_terminates_witness :
  exists evs st',
    steps compareNodes_by_name sample_resolveFrom cycle_loader cycle_options
      cycle_start evs st'
    /\ pending st' = []
    /\ In ("b.graphql", {| imports := ["*"]; from := "b.graphql" |}) (marks evs)
    /\ (In ("b.graphql", {| imports := ["*"]; from := "b.graphql" |}) (visits evs)
        \/ exists e,
             In (Failed (Loading "b.graphql"
                           {| imports := ["*"]; from := "b.graphql" |}) e) evs).
Proof.
  assert (forall p h0 src h',
            cycle_loader p h0 = Ok (src, h') ->
            In (location src, rawSDL src) cycle_texts) as Hloader.
  { intros p h0 src h'. unfold cycle_loader.
    destruct (String.eqb p "a.graphql");
      [|destruct (String.eqb p "b.graphql")]; intros E; try discriminate E;
      injection E as <- _; [left | right; left]; reflexivity. }
  assert (In (location source_a, rawSDL source_a) cycle_texts) as Hentry
    by (left; reflexivity).
  destruct (traversal_terminates compareNodes_by_name sample_resolveFrom
              cycle_loader cycle_options cycle_texts source_a ∅ []
              cycle_store Hloader Hentry)
    as (_ & _ & (evs & st' & Hsteps & Hdone) & Hqueue & _ & _ & Hfollow).
  exists evs, st'. split; [exact Hsteps|]. split; [exact Hdone|].
  refine (proj2 (Hfollow [] _ evs st' "a.graphql"
                   {| imports := ["*"]; from := "b.graphql" |} "b.graphql"
                   (steps_nil _ _ _ _ _) Hsteps Hdone _ _) _).
  - rewrite (Hqueue [ {| imports := ["*"]; from := "b.graphql" |} ]);
      [left; reflexivity | vm_compute; reflexivity | vm_compute; reflexivity].
  - vm_compute. reflexivity.
  - reflexivity.
Defined.

(** The two files that import each other: the second import of b.graphql
    is skipped, the pass ends after three documents, the entry document
    among them twice, and the merge that follows keeps the Query of the
    entry document. *)
Example cycle_run :
  exists st,
    run_pass compareNodes_by_name sample_resolveFrom cycle_loader cycle_options 9
      cycle_start
    = Some ([ Marked "b.graphql" {| imports := ["*"]; from := "b.graphql" |};
              Visited "b.graphql" {| imports := ["*"]; from := "b.graphql" |};
              Marked "a.graphql" {| imports := ["*"]; from := "a.graphql" |};
              Visited "a.graphql" {| imports := ["*"]; from := "a.graphql" |};
              Skipped "b.graphql" {| imports := ["*"]; from := "b.graphql" |} ], st)
    /\ allDefinitions st = [[0]; [1]; [0]]
    /\ typeDefinitions st = [[0]; []; []]
    /\ failure st = None
    /\ exists merged,
         processImportSyntax_finish compareNodes_by_name cycle_options st = Ok merged
         /\ mergedFirstTypes merged = [0].
Proof.
  eexists. split; [vm_compute; reflexivity|].
  split; [reflexivity|]. split; [reflexivity|]. split; [reflexivity|].
  eexists. split; reflexivity.
Qed.

(** ** Schema-file extensions *)

Lemma search_sound (n : nat) (r : regex) (s : string) :
  search n r s = true -> exists a b, s = a +:+ b /\ test n r b = true.
Proof.
  induction s as [|c s IH]; cbn [search]; intros H.
  - rewrite orb_false_r in H. exists "", "". auto.
  - apply orb_true_iff in H as [H|H].
    + exists "", (String c s). auto.
    + destruct (IH H) as (a & b & -> & Hb). exists (String c a), b. auto.
Qed.

Lemma search_complete (n : nat) (r : regex) (a b : string) :
  test n r b = true -> search n r (a +:+ b) = true.
Proof.
  intros Hb. induction a as [|c a IH].
  - rewrite append_nil_l. destruct b; cbn [search]; rewrite Hb; reflexivity.
  - rewrite append_cons. cbn [search]. rewrite IH. apply orb_true_r.
Qed.

(** X1.  A file is a schema file when its name ends with one of the four
    extensions. *)
Lemma isGraphQLFile_extensions (f : string) :
  isGraphQLFile f = true
  <-> exists stem ext,
        f = stem +:+ ext /\ In ext [".graphql"; ".graphqls"; ".gql"; ".gqls"].
Proof.
  unfold isGraphQLFile. split.
  - intros H. apply search_sound in H as (stem & ext & -> & Hext).
    exists stem, ext. split; [reflexivity|].
    unfold test in Hext. destruct (exec 2 gqlExt ext) as [matches|] eqn:E;
      [|discriminate].
    apply exec_sound in E as (a & rest & caps' & -> & M & _).
    unfold gqlExt in M. cbn [seq_of] in M. invert_match; cbn; auto.
  - intros (stem & ext & -> & Hext). apply search_complete.
    cbn in Hext. destruct Hext as [<-|[<-|[<-|[<-|[]]]]]; reflexivity.
Qed.

(** * Further properties *)

(** ** Lists *)

Lemma filter_again {A} (p : A -> bool) (l : list A) :
  List.filter p (List.filter p l) = List.filter p l.
Proof.
  induction l as [|x l IH]; [reflexivity|]. cbn [List.filter].
  destruct (p x) eqn:E; [|exact IH]. cbn [List.filter]. rewrite E, IH. reflexivity.
Qed.

(** ** Texts of several lines *)

Lemma split_lines (sep : ascii) (a b : string) :
  split sep (a +:+ String sep b) = split sep a ++ split sep b.
Proof.
  induction a as [|c a IH]; norm_append.
  - cbn [split]. rewrite Ascii.eqb_refl. reflexivity.
  - cbn [split]. rewrite IH. destruct (Ascii.eqb c sep); [reflexivity|].
    pose proof (split_not_nil sep a) as Ha.
    destruct (split sep a) as [|p rest]; [contradiction | reflexivity].
Qed.

Lemma extract_directives_app (l1 l2 : list string) :
  extract_directives (l1 ++ l2)
  = let* x := extract_directives l1 in
    let* y := extract_directives l2 in
    Ok (x ++ y).
Proof.
  induction l1 as [|l l1 IH]; cbn [app extract_directives].
  - cbn [bind]. destruct (extract_directives l2); reflexivity.
  - destruct (startsWith (trim l) "# import " || startsWith (trim l) "#import ");
      [|exact IH].
    destruct (parseImportLine _) as [m|e]; cbn [bind]; [|reflexivity].
    rewrite IH. destruct (extract_directives l1) as [x|e]; cbn [bind]; [|reflexivity].
    destruct (extract_directives l2) as [y|e]; reflexivity.
Qed.

(** X2.  The imports of two texts joined by a line break are the imports of the
    first followed by those of the second; the first import line that does
    not parse, in the order of the text, decides the error. *)
Theorem parseSDL_joined (a b : string) :
  parseSDL (a +:+ String newline b)
  = let* x := parseSDL a in
    let* y := parseSDL b in
    Ok (x ++ y).
Proof.
  unfold parseSDL. rewrite !parseSDL_lines, split_lines.
  apply extract_directives_app.
Qed.

(** ** Empty texts *)

Lemma isEmptySDL_lines (sdl : string) :
  isEmptySDL sdl = forallb blank_or_comment (split newline sdl).
Proof.
  unfold isEmptySDL. generalize (split newline sdl) as lines.
  induction lines as [|l lines IH]; [reflexivity|].
  cbn [List.map List.filter forallb]. unfold blank_or_comment at 1.
  destruct (Nat.eqb (String.length (trim l)) 0 || startsWith (trim l) "#");
    cbn [negb andb]; [exact IH | reflexivity].
Qed.

(** X3.  Two texts joined by a line break are empty when both are. *)
Theorem isEmptySDL_joined (a b : string) :
  isEmptySDL (a +:+ String newline b) = isEmptySDL a && isEmptySDL b.
Proof. rewrite !isEmptySDL_lines, split_lines. apply forallb_app. Qed.

Lemma split_whole (sep : ascii) (l : string) :
  all_chars (fun c => negb (Ascii.eqb c sep)) l = true -> split sep l = [l].
Proof.
  intros Hl. pose proof (split_prepend sep l "" Hl) as H.
  rewrite append_nil_r in H. rewrite H. cbn. rewrite append_nil_r. reflexivity.
Qed.

Lemma split_joined_lines (lines : list string) :
  lines <> [] -> forallb no_newline lines = true ->
  split newline (String.concat (String newline "") lines) = lines.
Proof.
  induction lines as [|l [|l' rest] IH]; intros Hne Hall; [contradiction| |].
  - cbn in Hall. rewrite andb_true_r in Hall. cbn [String.concat].
    apply split_whole, Hall.
  - cbn [forallb] in Hall. apply andb_true_iff in Hall as [Hl Hrest].
    change (String.concat (String newline "") (l :: l' :: rest))
      with (l +:+ String newline (String.concat (String newline "") (l' :: rest))).
    rewrite split_lines, (split_whole newline l Hl), IH;
      [reflexivity | discriminate | exact Hrest].
Qed.

(** X4.  A text whose lines are all blank or comments, import comments among
    them, gives the empty document, and the parser is not asked: whatever it
    would answer, an error too, does not show.  Such a text can still carry
    imports, which [parseSDL] reads. *)
Theorem getDocumentFromSDL_comments (parse : string -> Result DocumentNode)
    (lines : list string) :
  lines <> [] -> forallb no_newline lines = true ->
  forallb blank_or_comment lines = true ->
  getDocumentFromSDL parse (String.concat (String newline "") lines)
  = Ok empty_document
  /\ parseSDL (String.concat (String newline "") lines) = extract_directives lines.
Proof.
  intros Hne Hlines Hall. split.
  - unfold getDocumentFromSDL.
    rewrite isEmptySDL_lines, (split_joined_lines lines Hne Hlines), Hall. reflexivity.
  - unfold parseSDL. rewrite parseSDL_lines, (split_joined_lines lines Hne Hlines).
    reflexivity.
Qed.

Lemma getDocumentFromSDL_comments_witness :
  getDocumentFromSDL (fun _ => Throw (Error "Syntax Error: Unexpected <EOF>"))
    ("# import A from 'a.graphql'" +:+ String newline "  " +:+ String newline "# note")
  = Ok empty_document
  /\ parseSDL ("# import A from 'a.graphql'" +:+ String newline "  "
               +:+ String newline "# note")
     = Ok [ {| imports := ["A"]; from := "a.graphql" |} ].
Proof.
  destruct (getDocumentFromSDL_comments
              (fun _ => Throw (Error "Syntax Error: Unexpected <EOF>"))
              ["# import A from 'a.graphql'"; "  "; "# note"]) as [H1 H2];
    [discriminate | reflexivity | reflexivity |].
  split; [exact H1 | exact H2].
Defined.

(** ** Lines the grammar accepts *)

Lemma rtrim_again (s : string) : rtrim (rtrim s) = rtrim s.
Proof.
  induction s as [|c s IH]; [reflexivity|]. cbn [rtrim].
  destruct (rtrim s) as [|d r] eqn:E.
  - destruct (is_whitespace c) eqn:Hc; [reflexivity|]. cbn [rtrim]. rewrite Hc.
    reflexivity.
  - cbn [rtrim]. cbn [rtrim] in IH. rewrite IH. reflexivity.
Qed.

Lemma ltrim_start (s : string) :
  ltrim s = "" \/ exists c r, ltrim s = String c r /\ is_whitespace c = false.
Proof.
  induction s as [|c s IH]; [left; reflexivity|]. cbn [ltrim].
  destruct (is_whitespace c) eqn:Hc; [exact IH|]. right. exists c, s. auto.
Qed.

Lemma trim_again (s : string) : trim (trim s) = trim s.
Proof.
  unfold trim. destruct (ltrim_start s) as [-> | (c & r & -> & Hc)]; [reflexivity|].
  assert (exists r', rtrim (String c r) = String c r') as (r' & E).
  { cbn [rtrim]. destruct (rtrim r); [rewrite Hc|]; eexists; reflexivity. }
  rewrite <- (rtrim_again (String c r)) at 2. rewrite E at 1.
  cbn [ltrim]. rewrite Hc, <- E. reflexivity.
Qed.

Lemma all_chars_ltrim (p : ascii -> bool) (s : string) :
  all_chars p s = true -> all_chars p (ltrim s) = true.
Proof.
  induction s as [|c s IH]; [reflexivity|]. cbn [ltrim all_chars]. intros H.
  apply andb_true_iff in H as [Hc Hs].
  destruct (is_whitespace c); [apply IH, Hs|]. cbn [all_chars]. rewrite Hc, Hs.
  reflexivity.
Qed.

Lemma all_chars_rtrim (p : ascii -> bool) (s : string) :
  all_chars p s = true -> all_chars p (rtrim s) = true.
Proof.
  induction s as [|c s IH]; [reflexivity|]. cbn [rtrim all_chars]. intros H.
  apply andb_true_iff in H as [Hc Hs]. specialize (IH Hs).
  destruct (rtrim s) as [|d r].
  - destruct (is_whitespace c); [reflexivity|]. cbn [all_chars]. rewrite Hc. reflexivity.
  - cbn [all_chars] in *. rewrite Hc, IH. reflexivity.
Qed.

Lemma split_pieces (sep : ascii) (s : string) :
  Forall (fun piece => all_chars (fun c => negb (Ascii.eqb c sep)) piece = true)
    (split sep s).
Proof.
  induction s as [|c s IH]; cbn [split]; [repeat constructor|].
  destruct (Ascii.eqb c sep) eqn:Hc; [constructor; [reflexivity | exact IH]|].
  destruct (split sep s) as [|piece rest]; [repeat constructor; cbn; rewrite Hc; reflexivity|].
  inversion IH as [|? ? Hpiece Hrest]; subst. constructor; [|exact Hrest].
  cbn [all_chars]. rewrite Hc, Hpiece. reflexivity.
Qed.

Lemma selectors_trimmed (sels : string) :
  Forall (fun i => trim i = i
                   /\ all_chars (fun c => negb (Ascii.eqb c ",")) i = true)
    (List.map trim (split "," sels)).
Proof.
  pose proof (split_pieces "," sels) as H.
  induction H as [|piece rest Hpiece _ IH]; cbn [List.map]; constructor; [|exact IH].
  split; [apply trim_again|].
  apply all_chars_rtrim, all_chars_ltrim, Hpiece.
Qed.

(** X5.  Whatever line [parseImportLine] accepts begins with [import] and white
    space and ends with the path between two quote characters and a
    semicolon or nothing; the path has no line break in it; there is at
    least one selector, and no selector has white space around it or a comma
    in it.  Before the path is nothing, and the selectors are
    the wildcard, or the selector text, white space, [from] and white space,
    and then the path is not empty and the selectors are the pieces of the
    text between commas, trimmed. *)
Theorem parseImportLine_accepted (line : string) (m : RawModule) :
  parseImportLine line = Ok m ->
  all_chars dot (from m) = true
  /\ imports m <> []
  /\ Forall (fun i => trim i = i
                      /\ all_chars (fun c => negb (Ascii.eqb c ",")) i = true)
       (imports m)
  /\ exists ws1 middle q1 q2 semi,
       line = "import" +:+ ws1 +:+ middle +:+ String q1 (from m) +:+ String q2 semi
       /\ blank ws1 /\ is_quote q1 = true /\ is_quote q2 = true
       /\ semicolon_or_nothing semi
       /\ ((middle = "" /\ imports m = ["*"])
           \/ exists sels ws2 ws3,
                middle = sels +:+ ws2 +:+ "from" +:+ ws3
                /\ blank ws2 /\ blank ws3 /\ from m <> ""
                /\ imports m = List.map trim (split "," sels)).
Proof.
  unfold parseImportLine, test.
  destruct (exec 5 IMPORT_FROM_REGEX line) as [matches|] eqn:Hfrom.
  - destruct (from_regex_sound _ matches Hfrom)
      as (ws1 & g1 & g2 & ws2 & ws3 & q1 & g4 & q2 & semi & Hline & H1 & H2 & H3
          & Hq1 & Hq2 & Hdot & Hsemi & Hg & ->).
    cbn [length Nat.eqb group lookup list_lookup strict_eq].
    destruct g4 as [|c f]; [discriminate|].
    assert (forall sel,
              sel = List.map trim (split "," g1) ->
              Ok {| imports := sel; from := String c f |} = Ok m ->
              all_chars dot (from m) = true
              /\ imports m <> []
              /\ Forall (fun i => trim i = i
                                  /\ all_chars (fun c => negb (Ascii.eqb c ",")) i = true)
                   (imports m)
              /\ exists ws1 middle q1 q2 semi,
                   line = "import" +:+ ws1 +:+ middle +:+ String q1 (from m)
                          +:+ String q2 semi
                   /\ blank ws1 /\ is_quote q1 = true /\ is_quote q2 = true
                   /\ semicolon_or_nothing semi
                   /\ ((middle = "" /\ imports m = ["*"])
                       \/ exists sels ws2 ws3,
                            middle = sels +:+ ws2 +:+ "from" +:+ ws3
                            /\ blank ws2 /\ blank ws3 /\ from m <> ""
                            /\ imports m = List.map trim (split "," sels))) as Hshape.
    { intros sel Hsel E. injection E as <-. cbn [from imports].
      split; [exact Hdot|]. split; [|split].
      - rewrite Hsel. pose proof (split_not_nil "," g1) as Hne.
        destruct (split "," g1); [contradiction | discriminate].
      - rewrite Hsel. apply selectors_trimmed.
      - exists ws1, (g1 +:+ ws2 +:+ "from" +:+ ws3), q1, q2, semi.
        split; [rewrite !append_assoc; exact Hline|].
        split; [exact H1|]. split; [exact Hq1|]. split; [exact Hq2|].
        split; [exact Hsemi|]. right. exists g1, ws2, ws3.
        split; [reflexivity|]. split; [exact H2|]. split; [exact H3|].
        split; [discriminate | exact Hsel]. }
    destruct (String.eqb_spec g1 "*") as [->|Hstar].
    + apply Hshape. reflexivity.
    + destruct Hg as [[-> _] | ->]; [contradiction|]. apply Hshape. reflexivity.
  - destruct (exec 3 IMPORT_DEFAULT_REGEX line) as [matches|] eqn:Hdefault;
      [|discriminate].
    destruct (default_regex_sound _ matches Hdefault)
      as (ws1 & q1 & g2 & q2 & semi & Hline & H1 & Hq1 & Hq2 & Hdot & Hsemi & ->).
    cbn [group lookup list_lookup]. intros E. injection E as <-. cbn [from imports].
    split; [exact Hdot|]. split; [discriminate|].
    split; [repeat constructor|].
    exists ws1, "", q1, q2, semi.
    split; [exact Hline|].
    split; [exact H1|]. split; [exact Hq1|]. split; [exact Hq2|].
    split; [exact Hsemi|]. left. split; reflexivity.
Qed.

Lemma parseImportLine_accepted_witness :
  all_chars dot "x.graphql" = true /\ ["A"; "B.c"] <> [].
Proof.
  destruct (parseImportLine_accepted "import A, B.c from 'x.graphql';"
              {| imports := ["A"; "B.c"]; from := "x.graphql" |} eq_refl)
    as (Hdot & Hne & _).
  split; [exact Hdot | exact Hne].
Defined.

(** ** What the projector leaves alone *)

Lemma filterM_sublist {A} (p : A -> Result bool) (l l' : list A) :
  filterM p l = Ok l' -> sublist l' l.
Proof.
  revert l'. induction l as [|x l IH]; cbn [filterM]; intros l' H.
  - injection H as <-. constructor.
  - destruct (p x) as [b|e]; [|discriminate]. cbn [bind] in H.
    destruct (filterM p l) as [rest|e]; [|discriminate]. cbn [bind] in H.
    injection H as <-. destruct b; [apply sublist_skip | apply sublist_cons]; apply IH;
      reflexivity.
Qed.

Lemma findM_In {A} (p : A -> Result bool) (l : list A) (x : A) :
  findM p l = Ok (Some x) -> In x l.
Proof.
  induction l as [|y l IH]; cbn [findM]; intros H; [discriminate|].
  destruct (p y) as [b|e]; [|discriminate]. cbn [bind] in H.
  destruct b; [injection H as <-; left; reflexivity | right; apply IH, H].
Qed.

Lemma node_shrinks_refl (d : DefinitionNode) : node_shrinks d d.
Proof.
  split; [reflexivity|]. split; [reflexivity|].
  destruct (fields d); [reflexivity | exact I].
Qed.

Lemma node_shrinks_trans (d1 d2 d3 : DefinitionNode) :
  node_shrinks d1 d2 -> node_shrinks d2 d3 -> node_shrinks d1 d3.
Proof.
  intros (K1 & N1 & F1) (K2 & N2 & F2).
  split; [congruence|]. split; [congruence|].
  destruct (fields d1), (fields d2), (fields d3); try contradiction; [|exact I].
  etransitivity; eassumption.
Qed.

Lemma store_shrinks_refl (defs : list ref) (h : Heap) : store_shrinks defs h h.
Proof.
  split; [|reflexivity]. intros r.
  destruct (h !! r); constructor. apply node_shrinks_refl.
Qed.

Lemma store_shrinks_trans (defs : list ref) (h1 h2 h3 : Heap) :
  store_shrinks defs h1 h2 -> store_shrinks defs h2 h3 -> store_shrinks defs h1 h3.
Proof.
  intros [A1 B1] [A2 B2]. split.
  - intros r. specialize (A1 r). specialize (A2 r).
    destruct A1 as [d1 d2 S1|]; inversion A2 as [d2' d3 S2|]; subst; constructor.
    eapply node_shrinks_trans; eassumption.
  - intros r Hr. rewrite (B2 r Hr). apply B1, Hr.
Qed.

Lemma project_fields_shrinks (compareNodes : FieldNode -> FieldNode -> Z)
    (sort : bool) (defs : list ref) (h h' : Heap) (entry : string * list string) :
  project_fields compareNodes sort defs h entry = Ok h' ->
  store_shrinks defs h h'.
Proof.
  unfold project_fields. intros H.
  destruct (findM _ defs) as [[r0|]|e] eqn:Hfind; cbn [bind] in H;
    [| injection H as <-; apply store_shrinks_refl | discriminate].
  apply findM_In in Hfind.
  unfold deref in H. destruct (h !! r0) as [d|] eqn:Hd; [|discriminate].
  cbn [bind] in H.
  destruct (fields d) as [fs|] eqn:Hfs; [|injection H as <-; apply store_shrinks_refl].
  destruct (negb (includes (List.map member (snd entry)) "*"));
    [|injection H as <-; apply store_shrinks_refl].
  destruct (filterM _ fs) as [kept|e] eqn:Hkept; [|discriminate]. cbn [bind] in H.
  injection H as <-. apply filterM_sublist in Hkept. split.
  - intros r. destruct (decide (r = r0)) as [->|Hne].
    + rewrite lookup_insert_eq, Hd. constructor.
      split; [reflexivity|]. split; [reflexivity|]. cbn [fields with_fields].
      rewrite Hfs. destruct sort.
      * rewrite (array_sort_perm compareNodes kept). apply sublist_submseteq, Hkept.
      * apply sublist_submseteq, Hkept.
    + rewrite lookup_insert_ne by congruence.
      destruct (h !! r); constructor. apply node_shrinks_refl.
  - intros r Hr. apply lookup_insert_ne. intros <-. contradiction.
Qed.

Lemma project_groups_shrink (compareNodes : FieldNode -> FieldNode -> Z)
    (sort : bool) (defs : list ref) (groups : list (string * list string)) :
  forall h h',
    foldM (project_fields compareNodes sort defs) groups h = Ok h' ->
    store_shrinks defs h h'.
Proof.
  induction groups as [|g groups IH]; cbn [foldM]; intros h h' H.
  - injection H as <-. apply store_shrinks_refl.
  - destruct (project_fields compareNodes sort defs h g) as [h1|e] eqn:Hstep;
      [|discriminate].
    cbn [bind] in H.
    eapply store_shrinks_trans;
      [apply (project_fields_shrinks _ _ _ _ _ _ Hstep) | apply IH, H].
Qed.

(** X6.  Whatever the selectors, when the projector returns: the definitions it
    returns are definitions of the document, in the order of the document;
    no node appears or disappears, changes its kind or its name, or gains a
    field; the nodes of other documents are untouched; and every node is
    untouched when the wildcard is among the selectors. *)
Theorem projector_only_removes (compareNodes : FieldNode -> FieldNode -> Z)
    (imports : list string) (typeDefinitions : list ref)
    (allDefinitions : list (list ref)) (sort : bool) (h h' : Heap)
    (result : list ref) :
  filterImportedDefinitions compareNodes imports typeDefinitions allDefinitions sort h
  = Ok (result, h') ->
  sublist result typeDefinitions
  /\ (forall r, option_Forall2 node_shrinks (h !! r) (h' !! r))
  /\ (forall r, ~ In r typeDefinitions -> h' !! r = h !! r)
  /\ (includes imports "*" = true -> h' = h).
Proof.
  unfold filterImportedDefinitions.
  destruct (includes imports "*") eqn:Hstar.
  - destruct (_ && _ && _).
    + destruct (filterM _ (flatten _)) as [previous|e]; [|discriminate].
      cbn [bind].
      destruct (filterM _ typeDefinitions) as [kept|e] eqn:Hkept; [|discriminate].
      cbn [bind]. intros H. injection H as <- <-.
      split; [apply (filterM_sublist _ _ _ Hkept)|].
      destruct (store_shrinks_refl typeDefinitions h) as [A B]. auto.
    + intros H. injection H as <- <-. split; [reflexivity|].
      destruct (store_shrinks_refl typeDefinitions h) as [A B]. auto.
  - destruct (filterM _ typeDefinitions) as [kept|e] eqn:Hkept; [|discriminate].
    cbn [bind].
    destruct (foldM _ _ h) as [h1|e] eqn:Hfold; [|discriminate]. cbn [bind].
    intros H. injection H as <- <-.
    split; [apply (filterM_sublist _ _ _ Hkept)|].
    destruct (project_groups_shrink _ _ _ _ _ _ Hfold) as [A B].
    split; [exact A|]. split; [exact B | discriminate].
Qed.

Lemma projector_only_removes_witness :
  sublist [0] [0; 1]
  /\ option_Forall2 node_shrinks (type_document !! 0)
       (Some (object_type "Type" [sample_field "fieldA" "Int"])).
Proof.
  assert (filterImportedDefinitions compareNodes_by_name ["Type.fieldA"] [0; 1]
            [[0; 1]] false type_document
          = Ok ([0], <[0 := object_type "Type" [sample_field "fieldA" "Int"]]>
                       type_document)) as Hrun by reflexivity.
  destruct (projector_only_removes _ _ _ _ _ _ _ _ Hrun) as (Hsub & Hnodes & _).
  split; [exact Hsub | exact (Hnodes 0)].
Defined.

(** ** Root types and the wildcard *)

Lemma filterM_In {A} (p : A -> Result bool) (l l' : list A) (x : A) :
  filterM p l = Ok l' -> In x l' -> In x l /\ p x = Ok true.
Proof.
  revert l'. induction l as [|y l IH]; cbn [filterM]; intros l' H Hx.
  - injection H as <-. destruct Hx.
  - destruct (p y) as [b|e] eqn:Hy; [|discriminate]. cbn [bind] in H.
    destruct (filterM p l) as [rest|e]; [|discriminate]. cbn [bind] in H.
    injection H as <-.
    destruct b; [destruct Hx as [<-|Hx]; [split; [left; reflexivity | exact Hy]|]|];
      destruct (IH rest eq_refl Hx) as [Hin Hp]; (split; [right; exact Hin | exact Hp]).
Qed.

Lemma inherited_not_root (v : string) :
  includes Object_prototype v = true -> includes rootFields v = false.
Proof.
  intros Hv. destruct (includes rootFields v) eqn:Hroot; [|reflexivity].
  apply includes_In in Hroot. cbn in Hroot.
  destruct Hroot as [<-|[<-|[<-|[]]]]; discriminate Hv.
Qed.

(** X7.  A wildcard import never brings in a root type of the imported file:
    on a document that is not the first, whatever the projector returns for
    the wildcard alone is an object type that has a name, and the name is
    not Query, Mutation or Subscription, the entry document defining them or
    not. *)
Theorem wildcard_leaves_root_types (compareNodes : FieldNode -> FieldNode -> Z)
    (typeDefinitions : list ref) (allDefinitions : list (list ref))
    (sort : bool) (h h' : Heap) (result : list ref) :
  1 < length allDefinitions ->
  filterImportedDefinitions compareNodes ["*"] typeDefinitions allDefinitions sort h
  = Ok (result, h') ->
  forall r, In r result ->
    exists d v, h !! r = Some d /\ kind d = "ObjectTypeDefinition"
                /\ name d = Name v /\ includes rootFields v = false.
Proof.
  intros Hlen. rewrite wildcard_alone_unfold.
  destruct (Nat.ltb_spec 1 (length allDefinitions)); [|lia].
  destruct (filterM _ (flatten _)) as [previous|e] eqn:Hprevious; [|discriminate].
  cbn [bind].
  destruct (filterM _ typeDefinitions) as [kept|e] eqn:Hkept; [|discriminate].
  cbn [bind]. intros [= <- <-] r Hr.
  destruct (filterM_In _ _ _ r Hkept Hr) as [_ Hp]. clear Hkept.
  unfold deref in Hp. destruct (h !! r) as [d|]; [|discriminate]. cbn [bind] in Hp.
  destruct (String.eqb_spec (kind d) "ObjectTypeDefinition") as [Hkind|_];
    [|discriminate].
  unfold name_value in Hp. destruct (name d) as [| |v] eqn:Hv; try discriminate.
  cbn [bind] in Hp. injection Hp as Hp.
  exists d, v. split; [reflexivity|]. split; [exact Hkind|]. split; [exact Hv|].
  rewrite truthy_at_keyBy in Hp. apply orb_true_iff in Hp as [Hp|Hp];
    [|apply inherited_not_root, Hp].
  apply existsb_exists in Hp as (x & Hx & Hname).
  destruct (filterM_In _ _ _ x Hprevious Hx) as [_ Hq].
  unfold deref in Hq. unfold name_key in Hname.
  destruct (h !! x) as [dx|]; [|discriminate]. cbn [bind] in Hq.
  unfold named_and in Hq. destruct (name dx) as [| |w]; try discriminate.
  injection Hq as Hq. apply String.eqb_eq in Hname. subst w.
  apply negb_true_iff, Hq.
Qed.

Lemma wildcard_leaves_root_types_witness :
  exists d v, two_documents !! 3 = Some d /\ kind d = "ObjectTypeDefinition"
              /\ name d = Name v /\ includes rootFields v = false.
Proof.
  assert (filterImportedDefinitions compareNodes_by_name ["*"] [2; 3; 4]
            [[0; 1]; [2; 3; 4]] false two_documents
          = Ok ([3], two_documents)) as Hrun by reflexivity.
  apply (wildcard_leaves_root_types compareNodes_by_name [2; 3; 4] [[0; 1]; [2; 3; 4]]
           false two_documents two_documents [3]);
    [cbn; lia | exact Hrun | left; reflexivity].
Defined.

(** ** What the merge leaves behind *)

Lemma node_merged_refl (d : DefinitionNode) : node_merged d d.
Proof.
  split; [reflexivity|]. split; [reflexivity|].
  destruct (fields d); [tauto | exact I].
Qed.

Lemma node_merged_trans (d1 d2 d3 : DefinitionNode) :
  node_merged d1 d2 -> node_merged d2 d3 -> node_merged d1 d3.
Proof.
  intros (K1 & N1 & F1) (K2 & N2 & F2).
  split; [congruence|]. split; [congruence|].
  destruct (fields d1), (fields d2), (fields d3); try contradiction; [|exact I].
  intros k Hk. apply F2, F1, Hk.
Qed.

Section MergeSteps.
Variable compareNodes : FieldNode -> FieldNode -> Z.
Variable sort : bool.

(** The three things a round of the loop can do. *)
Lemma merge_step_cases (st st' : MergeState) (t : ref) :
  merge_step compareNodes sort st (Some t) = Ok st' ->
  st' = st
  \/ (exists v, st' = {| processedTypeNames := processedTypeNames st ++ [v];
                         mergedFirstTypes := mergedFirstTypes st ++ [t];
                         merge_heap := merge_heap st |})
  \/ (exists c e ef d,
        merge_heap st !! c = Some e /\ merge_heap st !! t = Some d
        /\ fields e = Some ef
        /\ st' = {| processedTypeNames := processedTypeNames st;
                    mergedFirstTypes := mergedFirstTypes st;
                    merge_heap :=
                      <[c := with_fields e
                               (if sort
                                then array_sort compareNodes
                                       (uniqByName (concat_fields ef (fields d)))
                                else uniqByName (concat_fields ef (fields d)))]>
                        (merge_heap st) |}).
Proof.
  unfold merge_step, deref. cbv zeta.
  destruct (merge_heap st !! t) as [d|] eqn:Hd; [|discriminate]. cbn [bind].
  destruct (name d) as [| |v]; [intros [= <-]; left; reflexivity | discriminate |].
  destruct (negb (includes (processedTypeNames st) v)).
  - intros [= <-]. right. left. exists v. reflexivity.
  - destruct (findM _ (mergedFirstTypes st)) as [[c|]|err]; cbn [bind];
      [|discriminate|discriminate].
    destruct (merge_heap st !! c) as [e|] eqn:He; [|discriminate]. cbn [bind].
    destruct (fields e) as [ef|] eqn:Hef; [|intros [= <-]; left; reflexivity].
    intros [= <-]. right. right. exists c, e, ef, d. auto.
Qed.

Lemma settled_written (ef : list FieldSlot) (tf : option (list FieldSlot)) :
  settled compareNodes sort
    (if sort then array_sort compareNodes (uniqByName (concat_fields ef tf))
     else uniqByName (concat_fields ef tf)).
Proof. exists (concat_fields ef tf). reflexivity. Qed.

Lemma merge_step_settled (st st' : MergeState) (t c : ref) :
  merge_step compareNodes sort st (Some t) = Ok st' ->
  settled_at compareNodes sort (merge_heap st) c ->
  settled_at compareNodes sort (merge_heap st') c.
Proof.
  intros Hstep Hc.
  destruct (merge_step_cases _ _ _ Hstep)
    as [-> | [(v & ->) | (c0 & e & ef & d & He & Hd & Hef & ->)]];
    [exact Hc | exact Hc |].
  cbn [merge_heap]. intros d' fs Hd' Hfs.
  destruct (decide (c = c0)) as [->|Hne].
  - rewrite lookup_insert_eq in Hd'. injection Hd' as <-.
    cbn [fields with_fields] in Hfs. injection Hfs as <-. apply settled_written.
  - rewrite lookup_insert_ne in Hd' by congruence. exact (Hc d' fs Hd' Hfs).
Qed.

Lemma concat_fields_names (ef : list FieldSlot) (tf : option (list FieldSlot))
    (k : option string) :
  In k (List.map slot_name ef) -> In k (List.map slot_name (concat_fields ef tf)).
Proof.
  intros Hk. unfold concat_fields.
  destruct tf; rewrite map_app, in_app_iff; left; exact Hk.
Qed.

Lemma merge_step_merged (st st' : MergeState) (t : ref) :
  merge_step compareNodes sort st (Some t) = Ok st' ->
  forall r, option_Forall2 node_merged (merge_heap st !! r) (merge_heap st' !! r).
Proof.
  intros Hstep r.
  assert (option_Forall2 node_merged (merge_heap st !! r) (merge_heap st !! r)) as Hrefl
    by (destruct (merge_heap st !! r); constructor; apply node_merged_refl).
  destruct (merge_step_cases _ _ _ Hstep)
    as [-> | [(v & ->) | (c0 & e & ef & d & He & Hd & Hef & ->)]];
    [exact Hrefl | exact Hrefl |].
  cbn [merge_heap]. destruct (decide (r = c0)) as [->|Hne].
  - rewrite lookup_insert_eq, He. constructor.
    split; [reflexivity|]. split; [reflexivity|]. cbn [fields with_fields].
    rewrite Hef. intros k Hk.
    apply (concat_fields_names ef (fields d)) in Hk.
    apply uniqByName_names in Hk.
    destruct sort; [|exact Hk].
    eapply Permutation_in; [|exact Hk].
    apply Permutation_map, Permutation_sym, array_sort_perm.
  - rewrite lookup_insert_ne by congruence. exact Hrefl.
Qed.

Lemma merge_loop_merged (l : list ref) : forall st st',
  foldM (merge_step compareNodes sort) (List.map Some l) st = Ok st' ->
  forall r, option_Forall2 node_merged (merge_heap st !! r) (merge_heap st' !! r).
Proof.
  induction l as [|t l IH]; cbn [List.map foldM]; intros st st' H r.
  - injection H as <-.
    destruct (merge_heap st !! r); constructor; apply node_merged_refl.
  - destruct (merge_step compareNodes sort st (Some t)) as [st1|e] eqn:Hstep;
      [|discriminate].
    cbn [bind] in H.
    pose proof (merge_step_merged _ _ _ Hstep r) as A1.
    pose proof (IH _ _ H r) as A2.
    destruct A1 as [d1 d2 S1|]; inversion A2 as [d2' d3 S2|]; subst; constructor.
    eapply node_merged_trans; eassumption.
Qed.
End MergeSteps.

Lemma find_unique {A K} (same : K -> K -> bool) (key : A -> K)
    (same_spec : forall a b, same a b = true <-> a = b)
    (l : list A) (x : A) :
  NoDup (List.map key l) -> In x l ->
  List.find (fun y => same (key y) (key x)) l = Some x.
Proof.
  induction l as [|y l IH]; cbn [List.map List.find]; intros Hnd Hin; [destruct Hin|].
  apply NoDup_cons in Hnd as [Hy Hnd]. rewrite list_elem_of_In in Hy.
  destruct Hin as [->|Hin].
  - rewrite (proj2 (same_spec (key x) (key x)) eq_refl). reflexivity.
  - destruct (same (key y) (key x)) eqn:E.
    + exfalso. apply Hy. apply same_spec in E. rewrite E. apply in_map, Hin.
    + apply IH; assumption.
Qed.

Lemma canonical_first (h : Heap) (l : list ref) (c : ref) (v : string) :
  In c (canonicals h l) -> name_of h c = Some v -> first_named h l v = Some c.
Proof.
  intros Hc Hv. rewrite <- find_canonicals.
  rewrite (find_pointwise _ _ _ (has_name_same_key h v)), <- Hv.
  apply (find_unique same_key (name_of h) same_key_spec); [|exact Hc].
  apply (uniqBy_from_NoDup same_key (name_of h) same_key_spec).
Qed.

Lemma first_named_app_found (h : Heap) (l1 l2 : list ref) (v : string) (c : ref) :
  first_named h l1 v = Some c -> first_named h (l1 ++ l2) v = Some c.
Proof.
  unfold first_named. induction l1 as [|t l1 IH]; cbn [app List.find]; [discriminate|].
  destruct (has_name h v t); [auto | exact IH].
Qed.

Section SecondPass.
Variable compareNodes : FieldNode -> FieldNode -> Z.
Variable sort : bool.
Variable h : Heap.
Variable F : list ref.

(** The candidates come twice.  In the second pass every canonical
    definition meets itself, and its fields are written then. *)
Lemma second_pass (post : list ref) : forall done st,
  merge_inv h (F ++ done) st ->
  (forall c, In c (canonicals h F) -> In c done ->
             settled_at compareNodes sort (merge_heap st) c) ->
  forallb (defined_name h) post = true ->
  exists st',
    foldM (merge_step compareNodes sort) (List.map Some post) st = Ok st'
    /\ merge_inv h (F ++ done ++ post) st'
    /\ forall c, In c (canonicals h F) -> In c (done ++ post) ->
                 settled_at compareNodes sort (merge_heap st') c.
Proof.
  induction post as [|t post IH]; intros done st I Hdone Hdef.
  - exists st. rewrite !app_nil_r. auto.
  - cbn [forallb] in Hdef. apply andb_true_iff in Hdef as [Ht Hdef].
    destruct (merge_step_inv compareNodes sort h (F ++ done) st t I Ht)
      as (st1 & Hstep & I1).
    destruct (IH (done ++ [t]) st1) as (st' & Hrun & I' & Hgood).
    + rewrite app_assoc. exact I1.
    + intros c Hc Hin. apply in_app_iff in Hin as [Hin|[<-|[]]].
      * apply (merge_step_settled _ _ _ _ _ _ Hstep), Hdone; assumption.
      * (* the canonical definition meets itself *)
        destruct (canonicals_named h F t Hc) as [_ Hnamed].
        unfold is_named in Hnamed.
        destruct (name_of h t) as [v|] eqn:Hv; [|discriminate].
        pose proof (inv_name_of h _ _ t I) as Hnt. rewrite Hv in Hnt.
        unfold name_of in Hnt.
        destruct (merge_heap st !! t) as [d|] eqn:Hd; [|discriminate].
        destruct (name d) as [| |w] eqn:Hw; try discriminate.
        injection Hnt as ->.
        pose proof (merge_step_named compareNodes sort h _ st t d v I Hd Hw) as Hnamed'.
        rewrite (first_named_app_found h F done v t (canonical_first h F t v Hc Hv))
          in Hnamed'.
        destruct Hnamed' as (e & He & _ & Hwrite).
        rewrite Hd in He. injection He as <-.
        destruct (fields d) as [ef|] eqn:Hef.
        -- rewrite Hwrite in Hstep. injection Hstep as <-. cbn [merge_heap].
           intros d' fs Hd'. rewrite lookup_insert_eq in Hd'. injection Hd' as <-.
           cbn [fields with_fields]. intros [= <-].
           apply (settled_written compareNodes sort ef (Some ef)).
        -- rewrite Hwrite in Hstep. injection Hstep as <-.
           intros d' fs Hd'. rewrite Hd in Hd'. injection Hd' as <-.
           rewrite Hef. discriminate.
    + exact Hdef.
    + exists st'. cbn [List.map foldM]. rewrite Hstep. cbn [bind].
      split; [exact Hrun|]. rewrite <- app_assoc in I', Hgood. cbn [app] in I', Hgood.
      split; [exact I' | exact Hgood].
Qed.
End SecondPass.

Lemma omap_id_Some {A} (l : list A) : omap id (List.map Some l) = l.
Proof. induction l as [|x l IH]; [reflexivity|]. cbn. rewrite IH. reflexivity. Qed.

Lemma omap_id_holes {A} (l : list (option A)) : omap id (List.filter is_hole l) = [].
Proof.
  induction l as [|[x|] l IH]; [reflexivity | exact IH | exact IH].
Qed.

Lemma omap_array_sort {A} (cmp : A -> A -> Z) (l : list (option A)) :
  omap id (array_sort cmp l) = stable_sort cmp (omap id l).
Proof.
  unfold array_sort. rewrite omap_app, omap_id_Some, omap_id_holes.
  apply app_nil_r.
Qed.

Lemma settled_NoDup (compareNodes : FieldNode -> FieldNode -> Z) (sort : bool)
    (fs : list FieldSlot) :
  settled compareNodes sort fs -> NoDup (List.map slot_name fs).
Proof.
  intros (l & ->). destruct sort; [|apply uniqByName_NoDup].
  assert (List.map slot_name (array_sort compareNodes (uniqByName l))
          ≡ₚ List.map slot_name (uniqByName l)) as ->
    by apply Permutation_map, array_sort_perm.
  apply uniqByName_NoDup.
Qed.

Lemma settled_sorted (compareNodes : FieldNode -> FieldNode -> Z)
    (fs : list FieldSlot) :
  (forall a b, (compareNodes a b <= 0)%Z \/ (compareNodes b a <= 0)%Z) ->
  settled compareNodes true fs ->
  Sorted (fun a b => (compareNodes a b <= 0)%Z) (omap id fs).
Proof.
  intros Htotal (l & ->). rewrite omap_array_sort.
  apply stable_sort_sorted, Htotal.
Qed.

(** X8.  The merge of [processImportSyntax], on definitions whose names are
    defined: it returns; the merged definitions carry pairwise different
    names; no node appears or disappears, changes its kind or its name, or
    loses a field name; and since every candidate comes twice, every merged
    definition that has fields ends with one field for each field name, a
    definition no other document repeats too, and with its fields in the
    order of the comparison rule when [sort] is set and the rule orders any
    two fields one way or the other. *)
Theorem merge_settles_fields (compareNodes : FieldNode -> FieldNode -> Z)
    (sort : bool) (entry : list ref) (others : list (list ref)) (h : Heap) :
  forallb (defined_name h) (flatten (entry :: others)) = true ->
  exists st,
    mergeFirstTypes compareNodes sort (entry :: others) h = Ok st
    /\ NoDup (List.map (name_of h) (mergedFirstTypes st))
    /\ (forall r, option_Forall2 node_merged (h !! r) (merge_heap st !! r))
    /\ (forall c d fs,
          In c (mergedFirstTypes st) ->
          merge_heap st !! c = Some d -> fields d = Some fs ->
          NoDup (List.map slot_name fs)
          /\ (sort = true ->
              (forall a b, (compareNodes a b <= 0)%Z \/ (compareNodes b a <= 0)%Z) ->
              Sorted (fun a b => (compareNodes a b <= 0)%Z) (omap id fs))).
Proof.
  intros Hdef. set (F := flatten (entry :: others)) in *.
  destruct (merge_loop_inv compareNodes sort h F Hdef) as (st1 & Hrun1 & I1).
  destruct (second_pass compareNodes sort h F F [] st1) as (st & Hrun & I & Hgood).
  { rewrite app_nil_r. exact I1. }
  { intros c _ []. }
  { exact Hdef. }
  cbn [app] in I, Hgood.
  assert (mergeFirstTypes compareNodes sort (entry :: others) h = Ok st) as Hmerge.
  { unfold mergeFirstTypes. rewrite firstSet_cons.
    change (flatten (entry :: others) ++ entry ++ flatten others) with (F ++ F).
    unfold merge_loop in *. rewrite map_app, foldM_app, Hrun1. exact Hrun. }
  exists st. split; [exact Hmerge|]. split; [|split].
  - rewrite (inv_merged h _ _ I).
    apply (uniqBy_from_NoDup same_key (name_of h) same_key_spec).
  - unfold mergeFirstTypes, merge_loop in Hmerge. rewrite firstSet_cons in Hmerge.
    apply (merge_loop_merged compareNodes sort _ _ _ Hmerge).
  - intros c d fs Hc Hd Hfs.
    rewrite (inv_merged h _ _ I), canonicals_twice in Hc.
    assert (settled compareNodes sort fs) as Hs.
    { apply (Hgood c Hc (proj1 (canonicals_named h F c Hc)) d fs Hd Hfs). }
    split; [apply (settled_NoDup _ _ _ Hs)|].
    intros -> Htotal. apply (settled_sorted _ _ Htotal Hs).
Qed.

Lemma merge_settles_fields_witness :
  exists st,
    mergeFirstTypes compareNodes_by_name true [[0; 1]; [3]] two_documents = Ok st
    /\ NoDup (List.map (name_of two_documents) (mergedFirstTypes st)).
Proof.
  destruct (merge_settles_fields compareNodes_by_name true [0; 1] [[3]] two_documents
              eq_refl) as (st & Hrun & Hnames & _).
  exists st. split; [exact Hrun | exact Hnames].
Defined.

(** A single document whose only type repeats a field name: the merge
    leaves one field of that name. *)
Example merge_dedups_single_document :
  exists st,
    mergeFirstTypes compareNodes_by_name false [[0]]
      (<[0 := object_type "T" [sample_field "a" "Int"; sample_field "a" "String"]]> ∅)
    = Ok st
    /\ merge_heap st !! 0 = Some (object_type "T" [sample_field "a" "Int"]).
Proof. eexists. split; reflexivity. Qed.

(** ** Projecting twice *)







Section ProjectedTwice.
Variable compareNodes : FieldNode -> FieldNode -> Z.
Variable imports : list string.
Variable sort : bool.
Variable defs : list ref.
Hypothesis ordered :
  sort = true ->
  forall a b, (compareNodes a b <= 0)%Z \/ (compareNodes b a <= 0)%Z.



End ProjectedTwice.




(** ** The documents of a pass *)

Lemma projector_sublist (compareNodes : FieldNode -> FieldNode -> Z)
    (imports : list string) (typeDefinitions : list ref)
    (allDefinitions : list (list ref)) (sort : bool) (h h' : Heap)
    (result : list ref) :
  filterImportedDefinitions compareNodes imports typeDefinitions allDefinitions sort h
  = Ok (result, h') ->
  sublist result typeDefinitions.
Proof.
  unfold filterImportedDefinitions.
  destruct (includes imports "*").
  - destruct (_ && _ && _); [|intros [= <- _]; reflexivity].
    destruct (filterM _ (flatten _)) as [previous|e]; [|discriminate]. cbn [bind].
    destruct (filterM _ typeDefinitions) as [kept|e] eqn:Hkept; [|discriminate].
    cbn [bind]. intros [= <- _]. apply (filterM_sublist _ _ _ Hkept).
  - destruct (filterM _ typeDefinitions) as [kept|e] eqn:Hkept; [|discriminate].
    cbn [bind]. destruct (foldM _ _ h) as [h1|e]; [|discriminate]. cbn [bind].
    intros [= <- _]. apply (filterM_sublist _ _ _ Hkept).
Qed.

Lemma failure_reject (e : JsError) (st : Pass) : failure (reject e st) <> None.
Proof. cbn. destruct (failure st); discriminate. Qed.

Lemma aligned_reject (n : nat) (e : JsError) (st : Pass) :
  n <= length (allDefinitions st) -> aligned n (reject e st).
Proof.
  intros Hn. split; [exact Hn|]. intros H. destruct (failure_reject e st H).
Qed.

Section Alignment.
Variable compareNodes : FieldNode -> FieldNode -> Z.
Variable resolveFrom : string -> string -> Result string.
Variable loadSingleFile : string -> Heap -> Result (Source * Heap).
Variable options : LoadTypedefsOptions.

Lemma collectDefinitions_aligned (n : nat) (selectors : list string)
    (src : Source) (st : Pass) :
  aligned n st -> aligned n (collectDefinitions compareNodes options selectors src st).
Proof.
  intros [Hn Hal]. unfold collectDefinitions.
  destruct (filterImportedDefinitions _ _ _ _ _ _) as [[current h']|e] eqn:Hproj.
  - apply projector_sublist in Hproj.
    assert (Forall2 sublist (typeDefinitions st) (drop n (allDefinitions st)) ->
            Forall2 sublist (typeDefinitions st ++ [current])
              (drop n (allDefinitions st ++ [document src]))) as Hnext.
    { intros H. rewrite drop_app_le by exact Hn.
      apply Forall2_app; [exact H|]. constructor; [exact Hproj | constructor]. }
    destruct (parseSDL (rawSDL src)) as [rawModules|e].
    + split; cbn [allDefinitions typeDefinitions failure].
      * rewrite length_app. lia.
      * intros H. apply Hnext, Hal, H.
    + apply aligned_reject. cbn [allDefinitions]. rewrite length_app. lia.
  - apply aligned_reject. cbn [allDefinitions]. rewrite length_app. lia.
Qed.

Lemma collectDefinitions_grows (selectors : list string) (src : Source) (st : Pass) :
  exists more,
    typeDefinitions (collectDefinitions compareNodes options selectors src st)
    = typeDefinitions st ++ more.
Proof.
  unfold collectDefinitions.
  destruct (filterImportedDefinitions _ _ _ _ _ _) as [[current h']|e].
  - destruct (parseSDL (rawSDL src)); exists [current]; reflexivity.
  - exists []. cbn. rewrite app_nil_r. reflexivity.
Qed.

Lemma step_aligned (n : nat) (st st' : Pass) (ev : Event) :
  step compareNodes resolveFrom loadSingleFile options st ev st' ->
  aligned n st ->
  aligned n st'
  /\ exists more, typeDefinitions st' = typeDefinitions st ++ more.
Proof.
  intros Hstep Hal. destruct Hstep as [st before t after Hpending].
  set (others := with_pending st (before ++ after)).
  assert (aligned n others) as Ho by exact Hal.
  assert (typeDefinitions others = typeDefinitions st) as Ht by reflexivity.
  clearbody others. rewrite <- Ht. clear Ht Hal Hpending.
  destruct t as [importer m | p m].
  - destruct (resume_resolving compareNodes resolveFrom loadSingleFile options
                importer m others)
      as [(e & _ & ->) | [(p & _ & _ & ->) | (p & _ & _ & ->)]]; cbn [fst snd].
    + split; [apply aligned_reject, Ho|]. exists []. cbn. rewrite app_nil_r. reflexivity.
    + split; [exact Ho|]. exists []. rewrite app_nil_r. reflexivity.
    + split; [exact Ho|]. exists []. cbn. rewrite app_nil_r. reflexivity.
  - destruct (resume_loading compareNodes resolveFrom loadSingleFile options p m others)
      as [(e & _ & ->) | (src & h' & _ & ->)]; cbn [fst snd].
    + split; [apply aligned_reject, Ho|]. exists []. cbn. rewrite app_nil_r. reflexivity.
    + split.
      * apply collectDefinitions_aligned. destruct Ho as [A B].
        split; [exact A | exact B].
      * apply (collectDefinitions_grows (imports m) src
                 {| pending := pending others;
                    processedFiles := processedFiles others;
                    typeDefinitions := typeDefinitions others;
                    allDefinitions := allDefinitions others;
                    heap := h';
                    failure := failure others |}).
Qed.

Lemma steps_aligned (n : nat) (st st' : Pass) (evs : list Event) :
  steps compareNodes resolveFrom loadSingleFile options st evs st' ->
  aligned n st ->
  aligned n st'
  /\ exists more, typeDefinitions st' = typeDefinitions st ++ more.
Proof.
  induction 1 as [st|st ev st1 evs st2 Hstep _ IH]; intros Hal.
  - split; [exact Hal|]. exists []. rewrite app_nil_r. reflexivity.
  - destruct (step_aligned n _ _ _ Hstep Hal) as [Hal1 (more1 & E1)].
    destruct (IH Hal1) as [Hal2 (more2 & E2)].
    split; [exact Hal2|]. exists (more1 ++ more2). rewrite E2, E1, app_assoc.
    reflexivity.
Qed.

(** What the deterministic schedule returns is a run of the pass. *)
Lemma run_pass_sound (fuel : nat) : forall st evs st',
  run_pass compareNodes resolveFrom loadSingleFile options fuel st = Some (evs, st') ->
  steps compareNodes resolveFrom loadSingleFile options st evs st'
  /\ pending st' = [].
Proof.
  induction fuel as [|fuel IH]; intros st evs st'; cbn [run_pass];
    destruct (pending st) as [|t rest] eqn:Hpending.
  - intros [= <- <-]. split; [apply steps_nil | exact Hpending].
  - discriminate.
  - intros [= <- <-]. split; [apply steps_nil | exact Hpending].
  - destruct (resume compareNodes resolveFrom loadSingleFile options t
                (with_pending st rest)) as [ev st1] eqn:Hresume.
    destruct (run_pass compareNodes resolveFrom loadSingleFile options fuel st1)
      as [[evs1 st2]|] eqn:Hrun; [|discriminate].
    intros [= <- <-]. destruct (IH _ _ _ Hrun) as [Hsteps Hdone].
    split; [|exact Hdone]. eapply steps_cons; [|exact Hsteps].
    pose proof (step_resume compareNodes resolveFrom loadSingleFile options
                  st [] t rest Hpending) as Hstep.
    cbn [app] in Hstep. rewrite Hresume in Hstep. exact Hstep.
Qed.

(** X10.  Through a pass, as long as no callback has failed, the projected
    definitions and the documents stay in step: apart from the documents the
    caller handed in, [typeDefinitions] has one entry for each document of
    [allDefinitions], in the same order, and the entry holds definitions of
    that document only, in its order. *)
Theorem pass_keeps_documents_aligned
    (documentSource : Source) (processed : gmap string (list RawModule))
    (allDefinitions0 : list (list ref)) (h : Heap)
    (evs : list Event) (st' : Pass) :
  steps compareNodes resolveFrom loadSingleFile options
    (processImportSyntax_start compareNodes options documentSource processed
       allDefinitions0 h) evs st' ->
  failure st' = None ->
  Forall2 sublist (typeDefinitions st')
    (drop (length allDefinitions0) (allDefinitions st'))
  /\ length (typeDefinitions st') = 1 + length (visits evs).
Proof.
  intros Hsteps Hok.
  assert (aligned (length allDefinitions0)
            (processImportSyntax_start compareNodes options documentSource processed
               allDefinitions0 h)) as Hstart.
  { apply collectDefinitions_aligned. split; cbn; [lia|].
    intros _. rewrite drop_all. constructor. }
  destruct (steps_aligned _ _ _ _ Hsteps Hstart) as [[Hn Hal] _].
  specialize (Hal Hok). split; [exact Hal|].
  rewrite (Forall2_length _ _ _ Hal), length_drop.
  rewrite (steps_allDefinitions _ _ _ _ _ _ _ Hsteps).
  destruct (collectDefinitions_shape compareNodes options ["*"] documentSource
              {| pending := []; processedFiles := processed; typeDefinitions := [];
                 allDefinitions := allDefinitions0; heap := h; failure := None |})
    as (new & _ & _ & _ & Hall).
  unfold processImportSyntax_start. rewrite Hall. cbn [allDefinitions].
  rewrite length_app. cbn. lia.
Qed.

(** X11.  When the caller hands in no document, the entry document is projected
    first and whole, and stays the first entry of [typeDefinitions] for the
    rest of the pass, a failed callback or not. *)
Theorem entry_document_first
    (documentSource : Source) (processed : gmap string (list RawModule)) (h : Heap)
    (evs : list Event) (st' : Pass) :
  steps compareNodes resolveFrom loadSingleFile options
    (processImportSyntax_start compareNodes options documentSource processed [] h)
    evs st' ->
  exists more, typeDefinitions st' = document documentSource :: more.
Proof.
  intros Hsteps.
  assert (aligned 0 (processImportSyntax_start compareNodes options documentSource
                       processed [] h)) as Hstart.
  { apply collectDefinitions_aligned. split; cbn; [lia|].
    intros _. constructor. }
  destruct (steps_aligned _ _ _ _ Hsteps Hstart) as [_ (more & E)].
  exists more. rewrite E. unfold processImportSyntax_start, collectDefinitions.
  cbn [allDefinitions app heap typeDefinitions].
  rewrite (wildcard_entry compareNodes (document documentSource)
             [document documentSource] (sort options) h) by (cbn; lia).
  destruct (parseSDL (rawSDL documentSource)); reflexivity.
Qed.
End Alignment.

Lemma pass_keeps_documents_aligned_witness :
  exists st,
    Forall2 sublist (typeDefinitions st) (drop 0 (allDefinitions st))
    /\ length (typeDefinitions st) = 3.
Proof.
  destruct (run_pass compareNodes_by_name sample_resolveFrom cycle_loader cycle_options 9
              cycle_start) as [[evs st]|] eqn:Hrun; [|vm_compute in Hrun; discriminate].
  destruct (run_pass_sound _ _ _ _ _ _ _ _ Hrun) as [Hsteps _].
  assert (failure st = None /\ length (visits evs) = 2) as [Hok Hv].
  { vm_compute in Hrun. injection Hrun as <- <-. split; reflexivity. }
  exists st.
  destruct (pass_keeps_documents_aligned compareNodes_by_name sample_resolveFrom
              cycle_loader cycle_options source_a ∅ [] cycle_store evs st Hsteps Hok)
    as [Hal Hlen].
  split; [exact Hal|]. rewrite Hlen, Hv. reflexivity.
Defined.

Lemma entry_document_first_witness :
  exists st more, typeDefinitions st = [0] :: more.
Proof.
  destruct (run_pass compareNodes_by_name sample_resolveFrom cycle_loader cycle_options 9
              cycle_start) as [[evs st]|] eqn:Hrun; [|vm_compute in Hrun; discriminate].
  destruct (run_pass_sound _ _ _ _ _ _ _ _ Hrun) as [Hsteps _].
  exists st.
  apply (entry_document_first compareNodes_by_name sample_resolveFrom cycle_loader
           cycle_options source_a ∅ cycle_store evs st Hsteps).
Defined.

(** ** What a pass records *)

Section Records.
Variable compareNodes : FieldNode -> FieldNode -> Z.
Variable resolveFrom : string -> string -> Result string.
Variable loadSingleFile : string -> Heap -> Result (Source * Heap).
Variable options : LoadTypedefsOptions.

Lemma reject_pending (e : JsError) (st : Pass) : pending (reject e st) = pending st.
Proof. reflexivity. Qed.

Lemma resume_pending (t : Task) (st : Pass) :
  exists more,
    pending (snd (resume compareNodes resolveFrom loadSingleFile options t st))
    = pending st ++ more.
Proof.
  destruct t as [importer m | p m].
  - destruct (resume_resolving compareNodes resolveFrom loadSingleFile options
                importer m st)
      as [(e & _ & ->) | [(p & _ & _ & ->) | (p & _ & _ & ->)]]; cbn [fst snd].
    + exists []. rewrite app_nil_r. reflexivity.
    + exists []. rewrite app_nil_r. reflexivity.
    + eexists. reflexivity.
  - destruct (resume_loading compareNodes resolveFrom loadSingleFile options p m st)
      as [(e & _ & ->) | (src & h' & _ & ->)]; cbn [fst snd].
    + exists []. rewrite app_nil_r. reflexivity.
    + destruct (collectDefinitions_shape compareNodes options (imports m) src
                  {| pending := pending st;
                     processedFiles := processedFiles st;
                     typeDefinitions := typeDefinitions st;
                     allDefinitions := allDefinitions st;
                     heap := h';
                     failure := failure st |}) as (new & Hp & _).
      eexists. exact Hp.
Qed.

Lemma step_records (st st' : Pass) (ev : Event) (pm : string * RawModule) :
  step compareNodes resolveFrom loadSingleFile options st ev st' ->
  processed_in (processedFiles st') pm
  = processed_in (processedFiles st) pm || bool_decide (pm ∈ marks [ev]).
Proof.
  intros Hstep. destruct Hstep as [st before t after Hpending].
  set (others := with_pending st (before ++ after)).
  change (processedFiles st) with (processedFiles others). clearbody others.
  destruct t as [importer m | p m].
  - destruct (resume_resolving compareNodes resolveFrom loadSingleFile options
                importer m others)
      as [(e & _ & ->) | [(p & _ & _ & ->) | (p & _ & _ & ->)]]; cbn [fst snd].
    + cbn. rewrite orb_false_r. reflexivity.
    + cbn. rewrite orb_false_r. reflexivity.
    + cbn [processedFiles]. rewrite processed_in_mark. f_equal.
      destruct pm as [p' m']. cbn [fst snd].
      change (marks [Marked p m]) with [(p, m)].
      destruct (String.eqb_spec p p') as [<-|Hne]; cbn [andb].
      * unfold isEqual.
        destruct (decide (m = m')) as [<-|Hm].
        -- rewrite !bool_decide_eq_true_2;
             [reflexivity | apply list_elem_of_In; left; reflexivity | reflexivity].
        -- rewrite !bool_decide_eq_false_2; [reflexivity | | exact Hm].
           rewrite list_elem_of_In. intros [[= E]|[]]. contradiction.
      * rewrite bool_decide_eq_false_2; [reflexivity|].
        rewrite list_elem_of_In. intros [[= E _]|[]]. contradiction.
  - destruct (resume_loading compareNodes resolveFrom loadSingleFile options p m others)
      as [(e & _ & ->) | (src & h' & _ & ->)]; cbn [fst snd].
    + cbn. rewrite orb_false_r. reflexivity.
    + destruct (collectDefinitions_shape compareNodes options (imports m) src
                  {| pending := pending others;
                     processedFiles := processedFiles others;
                     typeDefinitions := typeDefinitions others;
                     allDefinitions := allDefinitions others;
                     heap := h';
                     failure := failure others |}) as (new & _ & _ & Hp & _).
      rewrite Hp. cbn. rewrite orb_false_r. reflexivity.
Qed.

(** X12.  [processedFiles] after a run holds what it held before and the pairs the
    run marked, and nothing else: no record is ever taken out, and none is
    put in without its file being loaded next. *)
Theorem pass_records_marks (st st' : Pass) (evs : list Event)
    (pm : string * RawModule) :
  steps compareNodes resolveFrom loadSingleFile options st evs st' ->
  processed_in (processedFiles st') pm = true
  <-> processed_in (processedFiles st) pm = true \/ In pm (marks evs).
Proof.
  induction 1 as [st|st ev st1 evs st2 Hstep _ IH].
  - cbn. tauto.
  - rewrite IH, (step_records _ _ _ pm Hstep), orb_true_iff, bool_decide_eq_true,
      list_elem_of_In.
    rewrite (marks_cons ev evs), in_app_iff. tauto.
Qed.

(** X13.  Once no callback is left, every import that was waiting for its path
    at some point of the pass, and whose path resolves, is recorded in
    [processedFiles] under that path: no import is left unfollowed. *)
Theorem pass_follows_every_import (st st' : Pass) (evs : list Event)
    (importer p : string) (m : RawModule) :
  steps compareNodes resolveFrom loadSingleFile options st evs st' ->
  pending st' = [] ->
  In (Resolving importer m) (pending st) ->
  resolveModuleFilePath resolveFrom options importer (from m) = Ok p ->
  processed_in (processedFiles st') (p, m) = true.
Proof.
  intros Hsteps Hdone Hin Hp. revert Hin.
  induction Hsteps as [st|st ev st1 evs st2 Hstep Hrest IH]; intros Hin.
  - rewrite Hdone in Hin. destruct Hin.
  - specialize (IH Hdone).
    inversion Hstep as [st0 before t after Hpending E1 E2 E3]. subst st0.
    rewrite Hpending in Hin. apply in_app_iff in Hin.
    assert (In (Resolving importer m) (before ++ after)
            \/ t = Resolving importer m) as [Hother | ->].
    { destruct Hin as [Hin | [<- | Hin]];
        [left; apply in_app_iff; left; exact Hin
        | right; reflexivity
        | left; apply in_app_iff; right; exact Hin]. }
    + apply IH. rewrite <- E3.
      destruct (resume_pending t (with_pending st (before ++ after))) as (more & ->).
      apply in_app_iff. left. exact Hother.
    + apply (steps_processed _ _ _ _ _ _ _ Hrest). rewrite <- E3.
      destruct (resume_resolving compareNodes resolveFrom loadSingleFile options
                  importer m (with_pending st (before ++ after)))
        as [(e & He & _) | [(p' & Hp' & Hin' & ->) | (p' & Hp' & _ & ->)]];
        cbn [fst snd].
      * rewrite Hp in He. discriminate.
      * rewrite Hp in Hp'. injection Hp' as <-. exact Hin'.
      * rewrite Hp in Hp'. injection Hp' as <-. cbn [processedFiles].
        rewrite processed_in_mark. cbn [fst snd].
        rewrite String.eqb_refl. unfold isEqual.
        rewrite bool_decide_eq_true_2 by reflexivity. apply orb_true_r.
Qed.
End Records.

Lemma pass_records_marks_witness :
  exists st,
    processed_in (processedFiles st)
      ("b.graphql", {| imports := ["*"]; from := "b.graphql" |}) = true.
Proof.
  destruct (run_pass compareNodes_by_name sample_resolveFrom cycle_loader cycle_options 9
              cycle_start) as [[evs st]|] eqn:Hrun; [|vm_compute in Hrun; discriminate].
  destruct (run_pass_sound _ _ _ _ _ _ _ _ Hrun) as [Hsteps _].
  exists st.
  apply (pass_records_marks compareNodes_by_name sample_resolveFrom cycle_loader
           cycle_options cycle_start st evs _ Hsteps).
  right. vm_compute in Hrun. injection Hrun as <- _. left. reflexivity.
Defined.

Lemma pass_follows_every_import_witness :
  exists st,
    processed_in (processedFiles st)
      ("b.graphql", {| imports := ["*"]; from := "b.graphql" |}) = true.
Proof.
  destruct (run_pass compareNodes_by_name sample_resolveFrom cycle_loader cycle_options 9
              cycle_start) as [[evs st]|] eqn:Hrun; [|vm_compute in Hrun; discriminate].
  destruct (run_pass_sound _ _ _ _ _ _ _ _ Hrun) as [Hsteps Hdone].
  exists st.
  apply (pass_follows_every_import compareNodes_by_name sample_resolveFrom cycle_loader
           cycle_options cycle_start st evs "a.graphql" "b.graphql"
           {| imports := ["*"]; from := "b.graphql" |} Hsteps Hdone).
  - left. reflexivity.
  - reflexivity.
Defined.

(** ** A pass over regular documents *)

Lemma node_shrinks_regular (d d' : DefinitionNode) :
  node_shrinks d d' -> well_named d && no_holes d = true ->
  well_named d' && no_holes d' = true.
Proof.
  intros (Hk & Hn & Hf) H. apply andb_true_iff in H as [Hwell Hholes].
  apply andb_true_iff. split.
  - unfold well_named in *. rewrite Hk, Hn. exact Hwell.
  - unfold no_holes in *.
    destruct (fields d) as [fs|], (fields d') as [fs'|]; try contradiction;
      [|reflexivity].
    apply forallb_forall. intros f Hin.
    rewrite forallb_forall in Hholes. apply Hholes.
    apply list_elem_of_In. apply list_elem_of_In in Hin.
    apply (elem_of_submseteq _ _ _ Hin Hf).
Qed.

Lemma projector_keeps_regular (compareNodes : FieldNode -> FieldNode -> Z)
    (imports : list string) (typeDefinitions : list ref)
    (allDefinitions : list (list ref)) (sort : bool) (h h' : Heap)
    (result : list ref) :
  filterImportedDefinitions compareNodes imports typeDefinitions allDefinitions sort h
  = Ok (result, h') ->
  forall r, regular h r = true -> regular h' r = true.
Proof.
  intros Hrun.
  assert (store_shrinks typeDefinitions h h') as [Hnodes _].
  { revert Hrun. unfold filterImportedDefinitions.
    destruct (includes imports "*").
    - destruct (_ && _ && _); [|intros [= _ <-]; apply store_shrinks_refl].
      destruct (filterM _ (flatten _)); [|discriminate]. cbn [bind].
      destruct (filterM _ typeDefinitions); [|discriminate]. cbn [bind].
      intros [= _ <-]. apply store_shrinks_refl.
    - destruct (filterM _ typeDefinitions); [|discriminate]. cbn [bind].
      destruct (foldM _ _ h) as [h1|e] eqn:Hfold; [|discriminate]. cbn [bind].
      intros [= _ <-]. apply (project_groups_shrink _ _ _ _ _ _ Hfold). }
  intros r. unfold regular. specialize (Hnodes r).
  destruct Hnodes as [d d' Hs|]; [|discriminate].
  apply (node_shrinks_regular d d' Hs).
Qed.

Lemma regular_defined (h : Heap) (r : ref) :
  regular h r = true -> defined_name h r = true.
Proof.
  unfold regular, defined_name. destruct (h !! r) as [d|]; [|discriminate].
  intros H. apply andb_true_iff in H as [Hwell _]. unfold well_named in Hwell.
  destruct (name d); [reflexivity | discriminate | reflexivity].
Qed.

Lemma Forall2_sublist_In (parts wholes : list (list ref)) (r : ref) :
  Forall2 sublist parts wholes -> In r (flatten parts) -> In r (flatten wholes).
Proof.
  unfold flatten. induction 1 as [|part whole parts wholes Hsub _ IH]; [intros []|].
  cbn [concat]. rewrite !in_app_iff. intros [Hr|Hr]; [left|right; apply IH, Hr].
  apply list_elem_of_In. apply list_elem_of_In in Hr.
  apply (elem_of_submseteq _ _ _ Hr (sublist_submseteq _ _ Hsub)).
Qed.

Lemma concat_drop_In (n : nat) (l : list (list ref)) (r : ref) :
  In r (flatten (drop n l)) -> In r (flatten l).
Proof.
  intros Hr. rewrite <- (take_drop n l). unfold flatten in *.
  rewrite concat_app, in_app_iff. right. exact Hr.
Qed.

Section RegularPass.
Variable compareNodes : FieldNode -> FieldNode -> Z.
Variable resolveFrom : string -> string -> Result string.
Variable loadSingleFile : string -> Heap -> Result (Source * Heap).
Variable options : LoadTypedefsOptions.

(** Nothing outside the parser fails: every path resolves, and behind every
    path the loader finds a document of regular nodes whose import lines
    parse, and leaves the nodes of the store as they are. *)
Hypothesis resolver_returns :
  forall importer importFrom,
    exists p, resolveModuleFilePath resolveFrom options importer importFrom = Ok p.
Hypothesis loader_returns :
  forall p h,
    exists src h',
      loadSingleFile p h = Ok (src, h')
      /\ (forall r, regular h r = true -> regular h' r = true)
      /\ forallb (regular h') (document src) = true
      /\ exists rawModules, parseSDL (rawSDL src) = Ok rawModules.

Lemma collectDefinitions_sound (selectors : list string) (src : Source) (st : Pass) :
  sound st ->
  forallb (regular (heap st)) (document src) = true ->
  (exists rawModules, parseSDL (rawSDL src) = Ok rawModules) ->
  sound (collectDefinitions compareNodes options selectors src st).
Proof.
  intros [Hok Hreg] Hdoc (rawModules & Hparse).
  assert (forall r, In r (flatten (allDefinitions st ++ [document src])) ->
                    regular (heap st) r = true) as Hall.
  { intros r Hr. unfold flatten in Hr. rewrite concat_app, in_app_iff in Hr.
    destruct Hr as [Hr|Hr]; [apply Hreg, Hr|].
    cbn in Hr. rewrite app_nil_r in Hr.
    rewrite forallb_forall in Hdoc. apply Hdoc, Hr. }
  destruct (projector_returns compareNodes selectors (document src)
              (allDefinitions st ++ [document src]) (sort options) (heap st))
    as (current & h' & Hrun).
  { rewrite removelast_last. apply forallb_forall. exact Hreg. }
  { exact Hdoc. }
  unfold collectDefinitions. rewrite Hrun, Hparse. split; cbn [failure allDefinitions heap].
  - exact Hok.
  - intros r Hr. apply (projector_keeps_regular _ _ _ _ _ _ _ _ Hrun), Hall, Hr.
Qed.

Lemma step_sound (st st' : Pass) (ev : Event) :
  step compareNodes resolveFrom loadSingleFile options st ev st' ->
  sound st -> sound st'.
Proof.
  intros Hstep Hs. destruct Hstep as [st before t after Hpending].
  set (others := with_pending st (before ++ after)).
  assert (sound others) as Ho by exact Hs. clearbody others. clear Hs Hpending.
  destruct t as [importer m | p m].
  - destruct (resolver_returns importer (from m)) as (p & Hp).
    destruct (resume_resolving compareNodes resolveFrom loadSingleFile options
                importer m others)
      as [(e & He & _) | [(p' & _ & _ & ->) | (p' & _ & _ & ->)]]; cbn [fst snd].
    + rewrite Hp in He. discriminate.
    + exact Ho.
    + exact Ho.
  - destruct (loader_returns p (heap others)) as (src & h' & Hload & Hkeep & Hdoc & Hparse).
    destruct (resume_loading compareNodes resolveFrom loadSingleFile options p m others)
      as [(e & He & _) | (src' & h'' & Hload' & ->)]; cbn [fst snd].
    + rewrite Hload in He. discriminate.
    + rewrite Hload in Hload'. injection Hload' as <- <-.
      apply collectDefinitions_sound; cbn [heap]; [|exact Hdoc | exact Hparse].
      destruct Ho as [Hok Hreg]. split; cbn [failure allDefinitions heap]; [exact Hok|].
      intros r Hr. apply Hkeep, Hreg, Hr.
Qed.

Lemma steps_sound (st st' : Pass) (evs : list Event) :
  steps compareNodes resolveFrom loadSingleFile options st evs st' ->
  sound st -> sound st'.
Proof.
  induction 1 as [st|st ev st1 evs st2 Hstep _ IH]; intros Hs; [exact Hs|].
  apply IH, (step_sound _ _ _ Hstep Hs).
Qed.

(** X14.  On regular documents whose import lines parse, with a resolver and a
    loader that do not fail, a pass never fails, whatever the selectors of
    the imports and the order of the callbacks; and once no callback is
    left, the merge that ends [processImportSyntax] returns. *)
Theorem pass_on_regular_documents
    (documentSource : Source) (processed : gmap string (list RawModule))
    (allDefinitions0 : list (list ref)) (h : Heap)
    (evs : list Event) (st' : Pass) :
  forallb (regular h) (flatten allDefinitions0 ++ document documentSource) = true ->
  (exists rawModules, parseSDL (rawSDL documentSource) = Ok rawModules) ->
  steps compareNodes resolveFrom loadSingleFile options
    (processImportSyntax_start compareNodes options documentSource processed
       allDefinitions0 h) evs st' ->
  failure st' = None
  /\ (pending st' = [] ->
      exists merged, processImportSyntax_finish compareNodes options st' = Ok merged).
Proof.
  intros Hreg Hparse Hsteps.
  rewrite forallb_app in Hreg. apply andb_true_iff in Hreg as [Hreg0 Hdoc].
  set (start := processImportSyntax_start compareNodes options documentSource processed
                  allDefinitions0 h) in *.
  assert (sound start) as Hstart.
  { apply collectDefinitions_sound; cbn [heap]; [|exact Hdoc | exact Hparse].
    split; cbn [failure allDefinitions heap]; [reflexivity|].
    apply forallb_forall, Hreg0. }
  assert (aligned (length allDefinitions0) start) as Hal.
  { apply collectDefinitions_aligned. split; cbn; [lia|].
    intros _. rewrite drop_all. constructor. }
  assert (exists current, typeDefinitions start = [current]) as (current & Hfirst).
  { destruct Hstart as [Hok _]. revert Hok.
    unfold start, processImportSyntax_start, collectDefinitions.
    destruct (filterImportedDefinitions _ _ _ _ _ _) as [[current h']|e].
    - intros _. exists current. destruct (parseSDL (rawSDL documentSource)); reflexivity.
    - intros Hok. destruct (failure_reject e _ Hok). }
  destruct (steps_sound _ _ _ Hsteps Hstart) as [Hok Hnodes].
  destruct (steps_aligned compareNodes resolveFrom loadSingleFile options
              _ _ _ _ Hsteps Hal) as [[Hn Hal'] (more & Htds)].
  split; [exact Hok|]. intros _.
  unfold processImportSyntax_finish. rewrite Hok, Htds, Hfirst. cbn [app].
  destruct (merge_loop_inv compareNodes (sort options) (heap st')
              (flatten (current :: more) ++ current ++ flatten more))
    as (merged & Hrun & _).
  - assert (forallb (defined_name (heap st')) (flatten (current :: more)) = true) as Hdef.
    { apply forallb_forall. intros r Hr. apply regular_defined, Hnodes.
      specialize (Hal' Hok). rewrite Htds, Hfirst in Hal'. cbn [app] in Hal'.
      apply (concat_drop_In (length allDefinitions0)).
      apply (Forall2_sublist_In _ _ r Hal' Hr). }
    rewrite forallb_app.
    change (current ++ flatten more) with (flatten (current :: more)).
    rewrite Hdef. reflexivity.
  - exists merged. unfold mergeFirstTypes. rewrite firstSet_cons. exact Hrun.
Qed.
End RegularPass.

Lemma total_loader_returns (p : string) (h : Heap) :
  exists src h',
    total_loader p h = Ok (src, h')
    /\ (forall r, regular h r = true -> regular h' r = true)
    /\ forallb (regular h') (document src) = true
    /\ exists rawModules, parseSDL (rawSDL src) = Ok rawModules.
Proof.
  unfold total_loader. destruct (String.eqb p "a.graphql"); eexists _, _;
    (split; [reflexivity|]); (split; [|split]).
  - intros r Hr. unfold regular. destruct (decide (r = 0)) as [->|Hne];
      [rewrite lookup_insert_eq; reflexivity
      |rewrite lookup_insert_ne by congruence; exact Hr].
  - cbn [document source_a forallb]. unfold regular. rewrite lookup_insert_eq.
    reflexivity.
  - eexists. reflexivity.
  - intros r Hr. unfold regular. destruct (decide (r = 1)) as [->|Hne];
      [rewrite lookup_insert_eq; reflexivity
      |rewrite lookup_insert_ne by congruence; exact Hr].
  - cbn [document source_b forallb]. unfold regular. rewrite lookup_insert_eq.
    reflexivity.
  - eexists. reflexivity.
Qed.

Lemma pass_on_regular_documents_witness :
  exists st merged,
    failure st = None
    /\ processImportSyntax_finish compareNodes_by_name cycle_options st = Ok merged.
Proof.
  destruct (run_pass compareNodes_by_name sample_resolveFrom total_loader cycle_options 9
              cycle_start) as [[evs st]|] eqn:Hrun; [|vm_compute in Hrun; discriminate].
  destruct (run_pass_sound _ _ _ _ _ _ _ _ Hrun) as [Hsteps Hdone].
  destruct (pass_on_regular_documents compareNodes_by_name sample_resolveFrom
              total_loader cycle_options
              (fun importer importFrom => ex_intro _ importFrom eq_refl)
              total_loader_returns source_a ∅ [] cycle_store evs st
              eq_refl (ex_intro _ _ eq_refl) Hsteps) as [Hok Hmerge].
  destruct (Hmerge Hdone) as (merged & Hmerged).
  exists st, merged. split; [exact Hok | exact Hmerged].
Defined.

(** ** Filtering a document by kind *)

Lemma filterKind_loop (kinds : list string) (defs : list DefinitionNode) :
  forall invalid valid,
    fold_left
      (fun '(invalid, valid) definitionNode =>
         if includes kinds (kind definitionNode)
         then (invalid ++ [definitionNode], valid)
         else (invalid, valid ++ [definitionNode]))
      defs (invalid, valid)
    = (invalid ++ List.filter (fun d => includes kinds (kind d)) defs,
       valid ++ List.filter (kept_by kinds) defs).
Proof.
  induction defs as [|d defs IH]; intros invalid valid; cbn [fold_left List.filter].
  - rewrite !app_nil_r. reflexivity.
  - unfold kept_by at 1. destruct (includes kinds (kind d)); cbn [negb];
      rewrite IH, <- app_assoc; reflexivity.
Qed.

Lemma debugLog_each (process : option Process) (messages : list (list string)) :
  forall console,
    fold_left (fun con args => debugLog process args con) messages console
    = console ++ (if debugging process then messages else []).
Proof.
  induction messages as [|args messages IH]; intros console; cbn [fold_left].
  - destruct (debugging process); rewrite app_nil_r; reflexivity.
  - rewrite IH. unfold debugLog. destruct (debugging process);
      [rewrite <- app_assoc|]; reflexivity.
Qed.

Lemma List_filter_sublist {A} (p : A -> bool) (l : list A) :
  sublist (List.filter p l) l.
Proof.
  induction l as [|x l IH]; cbn [List.filter]; [constructor|].
  destruct (p x); [apply sublist_skip | apply sublist_cons]; exact IH.
Qed.

Lemma filterKind_unfold (process : option Process) (c : DocumentNode)
    (kinds : list string) (defs : list DefinitionNode) (console : list (list string)) :
  definitions c = Some defs -> defs <> [] -> kinds <> [] ->
  filterKind process (Some c) (Some kinds) console
  = (Some {| document_kind := "Document"; document_loc := None;
             definitions := Some (List.filter (kept_by kinds) defs) |},
     console ++ (if debugging process
                 then List.map (fun d => [filtered_message d kinds])
                        (List.filter (fun d => includes kinds (kind d)) defs)
                 else [])).
Proof.
  intros Hdefs Hne Hk. unfold filterKind. rewrite Hdefs.
  destruct defs as [|d defs]; [contradiction|].
  destruct kinds as [|k kinds]; [contradiction|].
  cbn [length Nat.ltb Nat.leb andb].
  rewrite (filterKind_loop (k :: kinds) (d :: defs) [] []). cbn [app].
  f_equal.
  rewrite <- (debugLog_each process
                (List.map (fun d0 => [filtered_message d0 (k :: kinds)])
                   (List.filter (fun d0 => includes (k :: kinds) (kind d0)) (d :: defs)))).
  generalize (List.filter (fun d0 => includes (k :: kinds) (kind d0)) (d :: defs)) as l.
  intros l. revert console.
  induction l as [|x l IH]; intros console; [reflexivity|].
  cbn [fold_left List.map]. apply IH.
Qed.

Lemma filterKind_no_definitions (process : option Process) (c : DocumentNode)
    (kinds : option (list string)) (console : list (list string)) :
  definitions c = None \/ definitions c = Some [] ->
  filterKind process (Some c) kinds console = (Some c, console).
Proof.
  intros H. destruct kinds as [kinds|]; [|reflexivity]. cbn.
  destruct H as [-> | ->]; reflexivity.
Qed.

Lemma filterKind_no_policy (process : option Process) (content : option DocumentNode)
    (kinds : option (list string)) (console : list (list string)) :
  kinds = None \/ kinds = Some [] ->
  filterKind process content kinds console = (content, console).
Proof.
  intros [-> | ->]; [destruct content; reflexivity|].
  destruct content as [c|]; [|reflexivity]. cbn.
  destruct (definitions c) as [defs|]; [|reflexivity].
  rewrite andb_false_r. reflexivity.
Qed.

(** X15.  With a document that has definitions and a policy that names a kind,
    [filterKind] builds a new document of the definitions whose kind the
    policy does not name, in their order; the new document has no location,
    even when no definition was dropped.  Without a document, without
    definitions or without a policy, the content comes back as it is and
    nothing is logged. *)
Theorem filterKind_result (process : option Process) (content : option DocumentNode)
    (filterKinds : option (list string)) (console : list (list string)) :
  (forall c kinds defs,
     content = Some c -> filterKinds = Some kinds ->
     definitions c = Some defs -> defs <> [] -> kinds <> [] ->
     exists valid,
       fst (filterKind process content filterKinds console)
       = Some {| document_kind := "Document"; document_loc := None;
                 definitions := Some valid |}
       /\ sublist valid defs
       /\ forall d, In d valid <-> In d defs /\ ~ In (kind d) kinds)
  /\ (content = None \/ filterKinds = None \/ filterKinds = Some []
      \/ (exists c, content = Some c
                    /\ (definitions c = None \/ definitions c = Some [])) ->
      filterKind process content filterKinds console = (content, console)).
Proof.
  split.
  - intros c kinds defs -> -> Hdefs Hne Hk.
    rewrite (filterKind_unfold process c kinds defs console Hdefs Hne Hk).
    exists (List.filter (kept_by kinds) defs). split; [reflexivity|].
    split; [apply List_filter_sublist|].
    intros d. rewrite filter_In. unfold kept_by.
    rewrite negb_true_iff, <- not_true_iff_false, includes_In. tauto.
  - intros [-> | [-> | [-> | (c & -> & Hdefs)]]].
    + reflexivity.
    + apply filterKind_no_policy. auto.
    + apply filterKind_no_policy. auto.
    + apply filterKind_no_definitions, Hdefs.
Qed.

Lemma filterKind_result_witness :
  exists valid,
    fst (filterKind None
           (Some {| document_kind := "Document"; document_loc := Some (0, 40);
                    definitions := Some [scalar_type "Date"; anonymous_operation] |})
           (Some ["OperationDefinition"]) [])
    = Some {| document_kind := "Document"; document_loc := None;
              definitions := Some valid |}
    /\ sublist valid [scalar_type "Date"; anonymous_operation].
Proof.
  destruct (proj1 (filterKind_result None
              (Some {| document_kind := "Document"; document_loc := Some (0, 40);
                       definitions := Some [scalar_type "Date"; anonymous_operation] |})
              (Some ["OperationDefinition"]) [])
              _ ["OperationDefinition"] [scalar_type "Date"; anonymous_operation]
              eq_refl eq_refl eq_refl) as (valid & Hrun & Hsub & _);
    [discriminate | discriminate |].
  exists valid. split; [exact Hrun | exact Hsub].
Defined.

Lemma kept_by_app (k1 k2 : list string) (d : DefinitionNode) :
  kept_by (k1 ++ k2) d = kept_by k1 d && kept_by k2 d.
Proof. unfold kept_by, includes. rewrite existsb_app. apply negb_orb. Qed.

Lemma filter_kept_both (k1 k2 : list string) (defs : list DefinitionNode) :
  List.filter (kept_by k2) (List.filter (kept_by k1) defs)
  = List.filter (kept_by (k1 ++ k2)) defs.
Proof.
  induction defs as [|d defs IH]; [reflexivity|]. cbn [List.filter].
  rewrite kept_by_app. destruct (kept_by k1 d); cbn [andb List.filter]; [|exact IH].
  destruct (kept_by k2 d); rewrite IH; reflexivity.
Qed.

Lemma filterKind_filtered (process : option Process) (content : option DocumentNode)
    (filterKinds : option (list string)) (console : list (list string)) :
  fst (filterKind process content filterKinds console) = filtered content filterKinds.
Proof.
  destruct content as [c|]; [|reflexivity].
  destruct filterKinds as [[|k kinds]|];
    [rewrite filterKind_no_policy by auto; destruct (definitions c); reflexivity
    | | rewrite filterKind_no_policy by auto; reflexivity].
  unfold filtered. destruct (definitions c) as [[|d defs]|] eqn:Hdefs;
    [rewrite filterKind_no_definitions by auto; reflexivity
    | | rewrite filterKind_no_definitions by auto; reflexivity].
  rewrite (filterKind_unfold process c (k :: kinds) (d :: defs) console Hdefs)
    by discriminate.
  reflexivity.
Qed.

Lemma filtered_twice (content : option DocumentNode) (k1 k2 : option (list string)) :
  filtered (filtered content k1) k2 = filtered content (both_policies k1 k2).
Proof.
  destruct content as [c|]; [|destruct k1 as [[|]|], k2 as [[|]|]; reflexivity].
  destruct k1 as [[|a ka]|]; cbn [filtered both_policies app].
  - destruct k2 as [[|b kb]|]; reflexivity.
  - destruct (definitions c) as [[|d defs]|] eqn:Hdefs.
    + destruct k2 as [[|b kb]|]; cbn [filtered]; rewrite ?Hdefs; reflexivity.
    + destruct k2 as [[|b kb]|]; cbn [filtered definitions app]; rewrite ?Hdefs;
        rewrite ?app_nil_r; try reflexivity.
      pose proof (filter_kept_both (a :: ka) (b :: kb) (d :: defs)) as Hboth.
      cbn [app] in Hboth. rewrite <- Hboth.
      destruct (List.filter (kept_by (a :: ka)) (d :: defs)) as [|x kept];
        reflexivity.
    + destruct k2 as [[|b kb]|]; cbn [filtered]; rewrite ?Hdefs; reflexivity.
  - destruct k2 as [[|b kb]|]; reflexivity.
Qed.

Lemma filtered_again (content : option DocumentNode) (k : option (list string)) :
  filtered (filtered content k) k = filtered content k.
Proof.
  destruct content as [c|]; [|destruct k as [[|]|]; reflexivity].
  destruct k as [[|a ka]|]; cbn [filtered]; try reflexivity.
  destruct (definitions c) as [[|d defs]|] eqn:Hdefs; cbn [filtered]; rewrite ?Hdefs;
    try reflexivity.
  cbn [definitions].
  destruct (List.filter (kept_by (a :: ka)) (d :: defs)) as [|x kept] eqn:Hkept;
    [reflexivity|].
  rewrite <- Hkept, filter_again. reflexivity.
Qed.

(** X16.  Filtering by one policy and then by another gives the document that
    filtering by both at once gives, whatever the content, the policies,
    [null] among them, and the consoles; and filtering twice by one policy
    changes nothing the second time. *)
Theorem filterKind_composes (process : option Process) (content : option DocumentNode)
    (k1 k2 : option (list string)) (console1 console2 console3 : list (list string)) :
  fst (filterKind process (fst (filterKind process content k1 console1)) k2 console2)
  = fst (filterKind process content (both_policies k1 k2) console3)
  /\ fst (filterKind process (fst (filterKind process content k1 console1)) k1 console2)
     = fst (filterKind process content k1 console1).
Proof.
  rewrite !filterKind_filtered. split; [apply filtered_twice | apply filtered_again].
Qed.

(** X17.  What [filterKind] logs: one line for each definition it drops, in the
    order of the document, each naming the kind and the whole policy, and
    only when the environment sets DEBUG and does not set
    GQL_TOOLKIT_NODEBUG; what was on the console stays, and the document it
    returns does not depend on the environment. *)
Theorem filterKind_logs (process : option Process) (c : DocumentNode)
    (kinds : list string) (defs : list DefinitionNode) (console : list (list string)) :
  definitions c = Some defs -> defs <> [] -> kinds <> [] ->
  snd (filterKind process (Some c) (Some kinds) console)
  = console ++ (if debugging process
                then List.map (fun d => [filtered_message d kinds])
                       (List.filter (fun d => includes kinds (kind d)) defs)
                else [])
  /\ fst (filterKind process (Some c) (Some kinds) console)
     = fst (filterKind None (Some c) (Some kinds) [])
  /\ (forall e, process = Some {| env := Some e |} ->
                env_truthy e "GQL_TOOLKIT_NODEBUG" = true ->
                snd (filterKind process (Some c) (Some kinds) console) = console).
Proof.
  intros Hdefs Hne Hk.
  rewrite (filterKind_unfold process c kinds defs console Hdefs Hne Hk).
  rewrite (filterKind_unfold None c kinds defs [] Hdefs Hne Hk). cbn [fst snd].
  split; [reflexivity|]. split; [reflexivity|].
  intros e -> Hno. cbn [debugging env]. rewrite Hno, andb_false_r.
  apply app_nil_r.
Qed.

Lemma filterKind_logs_witness :
  snd (filterKind
         (Some {| env := Some (<["DEBUG" := "1"]> ∅) |})
         (Some {| document_kind := "Document"; document_loc := None;
                  definitions := Some [scalar_type "Date"; anonymous_operation] |})
         (Some ["OperationDefinition"; "FragmentDefinition"]) [])
  = [["Filtered document of kind OperationDefinition due to filter policy (OperationDefinition, FragmentDefinition)"]].
Proof.
  refine (eq_trans
    (proj1 (filterKind_logs (Some {| env := Some (<["DEBUG" := "1"]> ∅) |})
              {| document_kind := "Document"; document_loc := None;
                 definitions := Some [scalar_type "Date"; anonymous_operation] |}
              ["OperationDefinition"; "FragmentDefinition"]
              [scalar_type "Date"; anonymous_operation] [] eq_refl _ _)) _).
  - discriminate.
  - discriminate.
  - reflexivity.
Defined.

(** ** Custom loaders *)

Section CustomLoaderFacts.
Variable Value : Type.
Variable typeof : Value -> string.
Variable truthy : Value -> bool.
Variable read_default : Value -> Result Value.
Variable string_of : Value -> string.
Variable template : Value -> Result string.

Lemma exported_loader_function (requiredModule l : Value) :
  exported_loader Value typeof truthy read_default requiredModule = Some l ->
  typeof l = "function"
  /\ truthy requiredModule = true
  /\ (read_default requiredModule = Ok l \/ l = requiredModule).
Proof.
  unfold exported_loader. destruct (truthy requiredModule); [|discriminate].
  destruct (read_default requiredModule) as [d|e]; [|discriminate].
  destruct (truthy d && String.eqb (typeof d) "function") eqn:Hd.
  - intros [= <-]. apply andb_true_iff in Hd as [_ Hd]. apply String.eqb_eq in Hd. auto.
  - destruct (String.eqb_spec (typeof requiredModule) "function") as [Hm|_];
      [|discriminate].
    intros [= <-]. auto.
Qed.

Lemma use_loader_result (byPath : string -> string -> option Value)
    (loaderPointer : Value) (cwd : string) :
  (forall path l, byPath path cwd = Some l -> typeof l = "function") ->
  (forall l,
     use_loader Value typeof string_of template byPath loaderPointer cwd = Ok l ->
     typeof l = "function"
     /\ ((typeof loaderPointer = "function" /\ l = loaderPointer)
         \/ (typeof loaderPointer = "string"
             /\ byPath (string_of loaderPointer) cwd = Some l)))
  /\ (forall e,
        use_loader Value typeof string_of template byPath loaderPointer cwd = Throw e ->
        (exists text, template loaderPointer = Ok text
                      /\ e = Error ("Failed to load custom loader: " +:+ text))
        \/ template loaderPointer = Throw e)
  /\ (typeof loaderPointer = "function" ->
      use_loader Value typeof string_of template byPath loaderPointer cwd
      = Ok loaderPointer)
  /\ (typeof loaderPointer <> "function" ->
      (typeof loaderPointer = "string" -> byPath (string_of loaderPointer) cwd = None) ->
      use_loader Value typeof string_of template byPath loaderPointer cwd
      = failed_to_load Value template loaderPointer).
Proof.
  intros HbyPath.
  assert (forall e,
            failed_to_load Value template loaderPointer = Throw e ->
            (exists text, template loaderPointer = Ok text
                          /\ e = Error ("Failed to load custom loader: " +:+ text))
            \/ template loaderPointer = Throw e) as Hfail.
  { unfold failed_to_load. intros e.
    destruct (template loaderPointer) as [text|e0]; cbn [bind]; intros [= <-];
      [left; exists text; auto | right; reflexivity]. }
  assert (forall l, failed_to_load Value template loaderPointer <> Ok l) as Hnever.
  { unfold failed_to_load. intros l.
    destruct (template loaderPointer); discriminate. }
  unfold use_loader.
  destruct (String.eqb_spec (typeof loaderPointer) "string") as [Hs|Hs].
  - destruct (byPath (string_of loaderPointer) cwd) as [l0|] eqn:Hl0.
    + rewrite (HbyPath _ _ Hl0). cbn [String.eqb].
      replace (String.eqb "function" "function") with true by reflexivity.
      split; [|split; [|split]].
      * intros l [= <-]. split; [apply (HbyPath _ _ Hl0) | right; auto].
      * discriminate.
      * intros Hf. congruence.
      * intros _ Hnone. specialize (Hnone Hs). discriminate.
    + split; [|split; [|split]].
      * intros l H. destruct (Hnever l H).
      * exact Hfail.
      * intros Hf. congruence.
      * reflexivity.
  - destruct (String.eqb_spec (typeof loaderPointer) "function") as [Hf|Hf].
    + rewrite Hf.
      replace (String.eqb "function" "function") with true by reflexivity.
      split; [|split; [|split]].
      * intros l [= <-]. auto.
      * discriminate.
      * reflexivity.
      * contradiction.
    + split; [|split; [|split]].
      * intros l H. destruct (Hnever l H).
      * exact Hfail.
      * contradiction.
      * reflexivity.
Qed.

Lemma getCustomLoaderByPath_function (imported : Result (option (ImportFrom Value)))
    (path cwd : string) (l : Value) :
  getCustomLoaderByPath Value typeof truthy read_default imported path cwd = Some l ->
  typeof l = "function".
Proof.
  unfold getCustomLoaderByPath.
  destruct imported as [[importFrom|]|e]; [|discriminate|discriminate].
  destruct (importFrom cwd path) as [m|e]; [|discriminate].
  intros H. apply (exported_loader_function m l H).
Qed.

Lemma getCustomLoaderByPathSync_function (required : Result (RequiredPackage Value))
    (path cwd : string) (l : Value) :
  getCustomLoaderByPathSync Value typeof truthy read_default required path cwd = Some l ->
  typeof l = "function".
Proof.
  unfold getCustomLoaderByPathSync.
  destruct required as [package|e]; [|discriminate]. cbv zeta.
  destruct (match required_default Value package with
            | Some callable => callable
            | None => required_self Value package
            end) as [f|]; [|discriminate].
  destruct (f cwd path) as [m|e]; [|discriminate].
  intros H. apply (exported_loader_function m l H).
Qed.

(** X18.  [useCustomLoader] and [useCustomLoaderSync] return functions only: the
    pointer itself when it is a function, or what the module at the path
    exports when the pointer is a string.  Whatever goes wrong on the way,
    the package that does not load, the module that is not found or throws,
    an export that is not a function, a pointer that is neither a string nor
    a function, the caller sees one error, the one that says the custom
    loader failed to load and shows the pointer; the error of the module
    never reaches the caller. *)
Theorem useCustomLoader_result (imported : Result (option (ImportFrom Value)))
    (required : Result (RequiredPackage Value)) (loaderPointer : Value) (cwd : string) :
  (forall l,
     useCustomLoader Value typeof truthy read_default string_of template imported
       loaderPointer cwd = Ok l
     \/ useCustomLoaderSync Value typeof truthy read_default string_of template required
          loaderPointer cwd = Ok l ->
     typeof l = "function"
     /\ (typeof loaderPointer = "function" -> l = loaderPointer))
  /\ (forall e,
        useCustomLoader Value typeof truthy read_default string_of template imported
          loaderPointer cwd = Throw e
        \/ useCustomLoaderSync Value typeof truthy read_default string_of template
             required loaderPointer cwd = Throw e ->
        (exists text, template loaderPointer = Ok text
                      /\ e = Error ("Failed to load custom loader: " +:+ text))
        \/ template loaderPointer = Throw e)
  /\ (typeof loaderPointer = "function" ->
      useCustomLoader Value typeof truthy read_default string_of template imported
        loaderPointer cwd = Ok loaderPointer
      /\ useCustomLoaderSync Value typeof truthy read_default string_of template required
           loaderPointer cwd = Ok loaderPointer)
  /\ (typeof loaderPointer <> "function" -> typeof loaderPointer <> "string" ->
      useCustomLoader Value typeof truthy read_default string_of template imported
        loaderPointer cwd = failed_to_load Value template loaderPointer
      /\ useCustomLoaderSync Value typeof truthy read_default string_of template required
           loaderPointer cwd = failed_to_load Value template loaderPointer).
Proof.
  destruct (use_loader_result
              (getCustomLoaderByPath Value typeof truthy read_default imported)
              loaderPointer cwd
              (fun path l => getCustomLoaderByPath_function imported path cwd l))
    as (A1 & A2 & A3 & A4).
  destruct (use_loader_result
              (getCustomLoaderByPathSync Value typeof truthy read_default required)
              loaderPointer cwd
              (fun path l => getCustomLoaderByPathSync_function required path cwd l))
    as (S1 & S2 & S3 & S4).
  unfold useCustomLoader, useCustomLoaderSync.
  split; [|split; [|split]].
  - intros l [H|H]; [destruct (A1 l H) as [Hf Hc] | destruct (S1 l H) as [Hf Hc]];
      (split; [exact Hf|]); intros Hp;
      (destruct Hc as [[_ ->] | [Hs _]]; [reflexivity | congruence]).
  - intros e [H|H]; [apply (A2 e H) | apply (S2 e H)].
  - intros Hf. split; [apply A3, Hf | apply S3, Hf].
  - intros Hf Hs. split; [apply A4 | apply S4]; try assumption; intros Hs'; contradiction.
Qed.
End CustomLoaderFacts.

(** A module that is not found: the error of the module does not show. *)
Example useCustomLoader_missing_module :
  useCustomLoader SampleValue sample_typeof sample_truthy sample_default sample_text
    (fun v => Ok (sample_text v)) (Ok (Some sample_importFrom))
    (sample_string "./missing.js") "/proj"
  = Throw (Error "Failed to load custom loader: ./missing.js")
  /\ useCustomLoader SampleValue sample_typeof sample_truthy sample_default sample_text
       (fun v => Ok (sample_text v)) (Ok (Some sample_importFrom))
       (sample_string "./loader.js") "/proj"
     = Ok (sample_function 7).
Proof. split; reflexivity. Qed.
